(** * mcp-servers registry: validation, conflict detection and bundle build

    A shallow embedding of [scripts/validate.js] and
    [scripts/build-bundle.js], followed by the properties of the
    registry pipeline proved about it.

    Conventions of the embedding:
    - a value produced by [JSON.parse] is a [json]; numbers are
      modelled by integers (fractions and exponents are outside the
      model, and nothing below inspects a number beyond comparing it
      with zero or with another number);
    - a JavaScript object is the list of its own properties in
      enumeration order; a well-formed object lists each key once;
    - [undefined] is [None];
    - a string is held as the bytes of its UTF-8 encoding, so a code
      point is a lead byte followed by its continuation bytes;
    - a server file holds a JSON object (a record); for the
      validator, a file holding another JSON value is outside the
      model;
    - the file system accepts the calls of the build ([mkdirSync],
      [writeFileSync]); a run in which it refuses one is outside the
      model;
    - functions of the Node runtime that the scripts call but do not
      define ([path.basename], [String.prototype.localeCompare], the
      [ToString] coercion, which may throw) are section variables. *)

From Stdlib Require Import List String Ascii ZArith Bool Arith Lia.
From Stdlib Require Import DecimalString.
From Stdlib Require Import Permutation Sorted OrderedTypeEx.
Import ListNotations.
Local Open Scope string_scope.
Local Open Scope list_scope.
#[local] Set Warnings "-register-all".

(* ================================================================== *)
(** * Part I: the model *)
(* ================================================================== *)

(** ** JSON values and JavaScript objects *)

Module Json.

Inductive json : Type :=
| JNull
| JBool (b : bool)
| JNum (n : Z)
| JStr (s : string)
| JArr (items : list json)
| JObj (props : list (string * json)).

(** Own properties, in enumeration order. *)
Definition object : Type := list (string * json).

(** JavaScript truthiness of a parsed value. *)
Definition truthy (v : json) : bool :=
  match v with
  | JNull => false
  | JBool b => b
  | JNum n => negb (n =? 0)%Z
  | JStr s => negb (s =? "")
  | JArr _ | JObj _ => true
  end.

(** Truthiness of a possibly [undefined] value. *)
Definition truthy_opt (o : option json) : bool :=
  match o with
  | Some v => truthy v
  | None => false
  end.

(** [SameValueZero], the key comparison of [Map] and [Set].  Arrays and
    objects are compared by reference, and two values coming out of
    [JSON.parse] are never the same reference. *)
Definition same_value_zero (a b : json) : bool :=
  match a, b with
  | JNull, JNull => true
  | JBool x, JBool y => Bool.eqb x y
  | JNum x, JNum y => (x =? y)%Z
  | JStr x, JStr y => (x =? y)
  | _, _ => false
  end.

(** [o[k]] for an own property. *)
Fixpoint get (o : object) (k : string) : option json :=
  match o with
  | [] => None
  | (k', v) :: rest => if (k' =? k) then Some v else get rest k
  end.

(** [o[k] !== undefined], for an object made by [JSON.parse]. *)
Definition has_key (o : object) (k : string) : bool :=
  match get o k with
  | Some _ => true
  | None => false
  end.

(** [Object.keys(o)]. *)
Definition keys (o : object) : list string := map fst o.

(** [delete o[k]]. *)
Definition delete (k : string) (o : object) : object :=
  filter (fun kv => negb (fst kv =? k)) o.

(** [o[k] = v]: an existing property keeps its place, a new one is
    appended. *)
Fixpoint set (k : string) (v : json) (o : object) : object :=
  match o with
  | [] => [(k, v)]
  | (k', v') :: rest =>
      if (k' =? k) then (k, v) :: rest else (k', v') :: set k v rest
  end.

(** [v.k] where [v] is any non-null parsed value and [k] is not a
    built-in property of strings or arrays: only objects have it. *)
Definition prop (v : json) (k : string) : option json :=
  match v with
  | JObj props => get props k
  | _ => None
  end.

(** [o.k1.k2], read as [undefined] when [o.k1] is absent or is not an
    object. *)
Definition path (o : object) (k1 k2 : string) : option json :=
  match get o k1 with
  | Some v => prop v k2
  | None => None
  end.

(** [l] with some elements left out, the others in their order. *)
Inductive subsequence {A : Type} : list A -> list A -> Prop :=
| subsequence_nil : subsequence [] []
| subsequence_skip (x : A) (l l' : list A) :
    subsequence l l' -> subsequence l (x :: l')
| subsequence_keep (x : A) (l l' : list A) :
    subsequence l l' -> subsequence (x :: l) (x :: l').

(** A well-formed object has no repeated key. *)
Definition wf_object (o : object) : Prop := NoDup (keys o).

(** The result of [loadJson]: the parsed value, or the message of the
    exception thrown by [readFileSync] or [JSON.parse]. *)
Inductive loaded (A : Type) : Type :=
| Parsed (a : A)
| LoadError (message : string).

Arguments Parsed {A} a.
Arguments LoadError {A} message.

(** A JavaScript [Map] from parsed values to strings: entries in
    insertion order, keys compared with [SameValueZero]. *)
Definition jsmap : Type := list (json * string).

Fixpoint map_get (m : jsmap) (k : json) : option string :=
  match m with
  | [] => None
  | (k', v) :: rest => if same_value_zero k' k then Some v else map_get rest k
  end.

Definition map_has (m : jsmap) (k : json) : bool :=
  match map_get m k with
  | Some _ => true
  | None => false
  end.

Fixpoint map_set (m : jsmap) (k : json) (v : string) : jsmap :=
  match m with
  | [] => [(k, v)]
  | (k', v') :: rest =>
      if same_value_zero k' k then (k', v) :: rest
      else (k', v') :: map_set rest k v
  end.

(** A JavaScript [Set] of parsed values. *)
Definition jsset : Type := list json.

Definition set_has (s : jsset) (k : json) : bool :=
  existsb (fun k' => same_value_zero k' k) s.

Definition set_add (s : jsset) (k : json) : jsset :=
  if set_has s k then s else s ++ [k].

End Json.

Import Json.

(** ** scripts/validate.js *)

Module Validate.

(** The double quote character. *)
Definition dquote : string := String "034"%char "".

Definition PLATFORM_FIELDS : list string :=
  ["badges"; "stats"; "sponsored"; "featured"].

(** [key.startsWith("_platform")]. *)
Definition platform_prefixed (key : string) : bool :=
  prefix "_platform" key.

(** A field name that the sanitizer removes. *)
Definition reserved (k : string) : bool :=
  existsb (String.eqb k) PLATFORM_FIELDS || platform_prefixed k.

Section Sanitizer.

(** [path.basename]. *)
Variable basename : string -> string.

Definition warning (field filePath : string) : string :=
  ("  WARNING: " ++ dquote ++ field ++ dquote ++
   " is a platform-managed field and will be stripped from " ++
   basename filePath)%string.

(** One turn of the loop over [PLATFORM_FIELDS] (lines 42-49). *)
Definition strip_field (filePath : string)
  (st : object * list string) (field : string) : object * list string :=
  if has_key (fst st) field
  then (delete field (fst st), snd st ++ [warning field filePath])
  else st.

(** One turn of the loop over [Object.keys(data)] (lines 51-58). *)
Definition strip_key (filePath : string)
  (st : object * list string) (key : string) : object * list string :=
  if platform_prefixed key
  then (delete key (fst st), snd st ++ [warning key filePath])
  else st.

(** [stripPlatformFields(data, filePath)]: the record as the call leaves
    it, and the warnings it returns. *)
Definition stripPlatformFields (data : object) (filePath : string)
  : object * list string :=
  let st := fold_left (strip_field filePath) PLATFORM_FIELDS (data, []) in
  fold_left (strip_key filePath) (keys (fst st)) st.

End Sanitizer.

(** *** Conflict detection *)

(** The four [CONFLICT] lines that [checkConflicts] prints, with the
    token, the file being processed and the file recorded earlier. *)
Inductive conflict : Type :=
| DuplicateId (id : json) (file first : string)
| IdCollidesAlias (id : json) (file aliasFile : string)
| DuplicateAlias (alias : json) (file first : string)
| AliasCollidesId (alias : json) (file idFile : string).

Inductive conflict_kind : Type :=
| KDuplicateId
| KDuplicateAlias
| KIdAliasCollision.

Definition kind_of (c : conflict) : conflict_kind :=
  match c with
  | DuplicateId _ _ _ => KDuplicateId
  | DuplicateAlias _ _ _ => KDuplicateAlias
  | IdCollidesAlias _ _ _ | AliasCollidesId _ _ _ => KIdAliasCollision
  end.

Definition token_of (c : conflict) : json :=
  match c with
  | DuplicateId t _ _ | IdCollidesAlias t _ _
  | DuplicateAlias t _ _ | AliasCollidesId t _ _ => t
  end.

(** The file being processed and the file found in the mapping. *)
Definition files_of (c : conflict) : string * string :=
  match c with
  | DuplicateId _ f g | IdCollidesAlias _ f g
  | DuplicateAlias _ f g | AliasCollidesId _ f g => (f, g)
  end.

Definition kind_eqb (a b : conflict_kind) : bool :=
  match a, b with
  | KDuplicateId, KDuplicateId
  | KDuplicateAlias, KDuplicateAlias
  | KIdAliasCollision, KIdAliasCollision => true
  | _, _ => false
  end.

(** The local state of one [checkConflicts] call. *)
Record detector : Type := {
  ids : jsmap;
  aliases : jsmap;
  reported : list conflict;
  hasConflicts : bool
}.

Definition start : detector :=
  {| ids := []; aliases := []; reported := []; hasConflicts := false |}.

(** [console.error(`CONFLICT ...`); hasConflicts = true]. *)
Definition report (c : conflict) (st : detector) : detector :=
  {| ids := ids st; aliases := aliases st;
     reported := reported st ++ [c]; hasConflicts := true |}.

Definition set_id (k : json) (file : string) (st : detector) : detector :=
  {| ids := map_set (ids st) k file; aliases := aliases st;
     reported := reported st; hasConflicts := hasConflicts st |}.

Definition set_alias (k : json) (file : string) (st : detector) : detector :=
  {| ids := ids st; aliases := map_set (aliases st) k file;
     reported := reported st; hasConflicts := hasConflicts st |}.

(** Lines 139-156: [if (data.id) { ... }]. *)
Definition check_id (relative : string) (data : object) (st : detector)
  : detector :=
  match get data "id" with
  | Some id =>
      if truthy id then
        let st1 :=
          match map_get (ids st) id with
          | Some first => report (DuplicateId id relative first) st
          | None => set_id id relative st
          end in
        match map_get (aliases st1) id with
        | Some other => report (IdCollidesAlias id relative other) st1
        | None => st1
        end
      else st
  | None => st
  end.

(** Lines 159-176: [if (data.alias) { ... }]. *)
Definition check_alias (relative : string) (data : object) (st : detector)
  : detector :=
  match get data "alias" with
  | Some alias =>
      if truthy alias then
        let st1 :=
          match map_get (aliases st) alias with
          | Some first => report (DuplicateAlias alias relative first) st
          | None => set_alias alias relative st
          end in
        match map_get (ids st1) alias with
        | Some other => report (AliasCollidesId alias relative other) st1
        | None => st1
        end
      else st
  | None => st
  end.

(** A server file: its path relative to the repository root, and what
    [loadJson] makes of it. *)
Definition file : Type := (string * loaded object)%type.

(** One turn of the loop of lines 128-177; a file that does not parse
    is skipped. *)
Definition visit (st : detector) (f : file) : detector :=
  match snd f with
  | Parsed data => check_alias (fst f) data (check_id (fst f) data st)
  | LoadError _ => st
  end.

Definition scan (st : detector) (files : list file) : detector :=
  fold_left visit files st.

(** [checkConflicts()] over the files that [getAllServerFiles] lists:
    the conflicts printed, in order, and the value returned. *)
Definition checkConflicts (files : list file) : list conflict * bool :=
  match files with
  | [] => ([], false)
  | _ => let st := scan start files in (reported st, hasConflicts st)
  end.

Definition conflicts (files : list file) : list conflict :=
  fst (checkConflicts files).

(** A conflict of kind [k] about the token [t]. *)
Definition about (k : conflict_kind) (t : json) (c : conflict) : bool :=
  kind_eqb (kind_of c) k && same_value_zero (token_of c) t.

(** A conflict whose two file references are [f] and [g], in either
    order. *)
Definition between (f g : string) (c : conflict) : bool :=
  let '(a, b) := files_of c in
  ((a =? f) && (b =? g)) || ((a =? g) && (b =? f)).

(** Two printed conflicts describe the same collision when they agree
    on the kind, the token and the unordered pair of files. *)
Definition same_collision (c d : conflict) : Prop :=
  kind_of c = kind_of d /\ token_of c = token_of d /\
  (files_of c = files_of d \/
   files_of c = (snd (files_of d), fst (files_of d))).

(** A value that the detector can hold against another: a truthy
    primitive, that is a non-empty string, a non-zero number or
    [true].  The guards of lines 139 and 159 skip a falsy id or alias,
    and an array or an object is the same value as no other. *)
Definition is_token (t : json) : bool :=
  truthy t && same_value_zero t t.

(** The truthy id a file declares, if it parses and has one. *)
Definition declared (field : string) (f : file) : option json :=
  match snd f with
  | Parsed data =>
      match get data field with
      | Some v => if truthy v then Some v else None
      | None => None
      end
  | LoadError _ => None
  end.

(** The file declares the token [t] in [field]: the field is truthy
    and is the same value as [t]. *)
Definition declares (field : string) (t : json) (f : file) : bool :=
  match declared field f with
  | Some v => same_value_zero v t
  | None => false
  end.

(** How many of the conflicts are of kind [k] about the token [t]. *)
Definition tally (k : conflict_kind) (t : json) (cs : list conflict) : nat :=
  List.length (filter (about k t) cs).

(** How many of the files declare [t] in [field]. *)
Definition declarations (field : string) (t : json) (files : list file)
  : nat :=
  List.length (filter (declares field t) files).

Definition bit (b : bool) : nat := if b then 1 else 0.

(** A conflict about the token [t], of any kind. *)
Definition about_token (t : json) (c : conflict) : bool :=
  same_value_zero (token_of c) t.

(** How many of the conflicts are of kind [k], about the token [t], and
    name the files [f] and [g], in either order. *)
Definition tally_between (k : conflict_kind) (t : json) (f g : string)
  (cs : list conflict) : nat :=
  List.length (filter (fun c => about k t c && between f g c) cs).

(** The file declares [t], as its id or as its alias. *)
Definition mentions (t : json) (f : file) : bool :=
  declares "id" t f || declares "alias" t f.

(** How many times [t] is declared, as a truthy id or as a truthy
    alias. *)
Definition uses (t : json) (files : list file) : nat :=
  declarations "id" t files + declarations "alias" t files.

(** Two detector states that cannot be told apart by looking up [t] or
    by reading the conflicts about [t]. *)
Definition agree (t : json) (st1 st2 : detector) : Prop :=
  map_get (ids st1) t = map_get (ids st2) t /\
  map_get (aliases st1) t = map_get (aliases st2) t /\
  filter (about_token t) (reported st1) =
  filter (about_token t) (reported st2).

Definition is_collision (c : conflict) : bool :=
  kind_eqb (kind_of c) KIdAliasCollision.

Definition is_duplicate_id (c : conflict) : bool :=
  kind_eqb (kind_of c) KDuplicateId.

(** The id of [g] is the alias of [f]. *)
Definition id_is_alias_of (g f : file) : bool :=
  match declared "id" g, declared "alias" f with
  | Some i, Some a => same_value_zero i a
  | _, _ => false
  end.

End Validate.

Import Validate.

(** ** scripts/build-bundle.js *)

Module BuildBundle.

Definition BUNDLE_VERSION : string := "2.1.0".

(** A thrown exception, and a computation that may throw. *)
Inductive exn : Type :=
| TypeError (what : string).

Inductive result (A : Type) : Type :=
| Ok (a : A)
| Throw (e : exn).

Arguments Ok {A} a.
Arguments Throw {A} e.

Definition bind {A B : Type} (r : result A) (k : A -> result B) : result B :=
  match r with
  | Ok a => k a
  | Throw e => Throw e
  end.

Notation "x <- r ;; k" := (bind r (fun x => k))
  (at level 61, r at next level, right associativity).

(** [server.publisher && server.publisher.official === true]. *)
Definition official (server : object) : bool :=
  match get server "publisher" with
  | Some p =>
      truthy p &&
      match prop p "official" with
      | Some (JBool true) => true
      | _ => false
      end
  | None => false
  end.

(** [server.transport && server.transport.type === t]. *)
Definition transport_is (t : string) (server : object) : bool :=
  match get server "transport" with
  | Some tr =>
      truthy tr &&
      match prop tr "type" with
      | Some (JStr s) => (s =? t)
      | _ => false
      end
  | None => false
  end.

Definition badges_of (server : object) : json :=
  if official server then JArr [JStr "official"] else JArr [].

Definition hosting_type_of (server : object) : json :=
  if transport_is "stdio" server then JStr "local"
  else if transport_is "http" server then JStr "remote"
  else JStr "local".

Definition timestamps_at (now : string) : json :=
  JObj [("created_at", JStr now); ("updated_at", JStr now)].

(** [enrichServer(server)], where [now] is what
    [new Date().toISOString()] returns during the call.  The spread
    [{ ...server }] copies the own properties in order. *)
Definition enrichServer (now : string) (server : object) : object :=
  let enriched := server in
  let enriched := set "badges" (badges_of server) enriched in
  let enriched := set "hosting_type" (hosting_type_of server) enriched in
  set "timestamps" (timestamps_at now) enriched.

(** [s.name || ""]. *)
Definition name_or_empty (s : object) : json :=
  match get s "name" with
  | Some v => if truthy v then v else JStr ""
  | None => JStr ""
  end.

(** The name is a string, or is falsy or absent and replaced by the
    empty string: the value the comparator receives is a string. *)
Definition string_named (s : object) : bool :=
  match name_or_empty s with
  | JStr _ => true
  | _ => false
  end.

Definition sort_key (s : object) : string :=
  match name_or_empty s with
  | JStr x => x
  | _ => ""
  end.

(** A comparison of strings that orders them totally, up to the
    strings it holds equal (a consistent comparator). *)
Record consistent (compare : string -> string -> Z) : Prop := {
  compare_flip : forall a b, (compare a b < 0)%Z <-> (compare b a > 0)%Z;
  compare_trans : forall a b c,
    (compare a b <= 0)%Z -> (compare b c <= 0)%Z -> (compare a c <= 0)%Z
}.

(** Folding of the case of ASCII letters. *)
Definition lower_char (c : ascii) : ascii :=
  let n := nat_of_ascii c in
  if (65 <=? n)%nat && (n <=? 90)%nat then ascii_of_nat (n + 32) else c.

Fixpoint lower (s : string) : string :=
  match s with
  | EmptyString => EmptyString
  | String c rest => String (lower_char c) (lower rest)
  end.



(** The fields that enrichment assigns. *)
Definition derived (k : string) : bool :=
  existsb (String.eqb k) ["badges"; "hosting_type"; "timestamps"].

Section Sorting.

(** [String.prototype.localeCompare] under the default locale of the
    host, and the [ToString] coercion it applies to its argument. *)
Variable localeCompare : string -> string -> Z.
Variable ToString : json -> result string.

(** The comparator of line 101.  Only a string has a [localeCompare]
    method: calling it on another truthy value is a [TypeError].  The
    method coerces an argument that is not a string, which throws for
    an object that cannot be converted. *)
Definition compareNames (a b : object) : result Z :=
  match name_or_empty a with
  | JStr x =>
      match name_or_empty b with
      | JStr y => Ok (localeCompare x y)
      | v => that <- ToString v ;; Ok (localeCompare x that)
      end
  | _ => Throw (TypeError "localeCompare is not a function")
  end.

(** [Array.prototype.sort(comparefn)].  The language fixes the result
    for a comparator that is consistent and does not throw (the sort
    is stable) and leaves the sequence of comparator calls to the
    engine; the model inserts the elements one by one from the left,
    each after the elements that do not compare greater.  As in the
    insertion pass of V8, the element being placed is the first
    argument of the comparator, so it is the one whose name receives
    the [localeCompare] call. *)
Fixpoint insert (x : object) (sorted : list object) : result (list object) :=
  match sorted with
  | [] => Ok [x]
  | y :: rest =>
      c <- compareNames x y ;;
      if (c <? 0)%Z then Ok (x :: y :: rest)
      else r <- insert x rest ;; Ok (y :: r)
  end.

Definition sort_from (acc : list object) (l : list object)
  : result (list object) :=
  fold_left (fun acc x => sorted <- acc ;; insert x sorted) l (Ok acc).

Definition sort (servers : list object) : result (list object) :=
  sort_from [] servers.

End Sorting.

(** A byte that continues a code point in UTF-8: [10xxxxxx]. *)
Definition continuation (c : ascii) : bool :=
  let n := nat_of_ascii c in (128 <=? n)%nat && (n <? 192)%nat.

(** The code points of a string, which is what iterating a string
    visits: each lead byte with the continuation bytes that follow
    it. *)
Fixpoint code_points (s : string) : list string :=
  match s with
  | EmptyString => []
  | String c rest =>
      match rest with
      | String d _ =>
          if continuation d then
            match code_points rest with
            | point :: points => String c point :: points
            | [] => [String c ""]
            end
          else String c "" :: code_points rest
      | EmptyString => [String c ""]
      end
  end.

(** The values visited by [for (const c of s.categories || [])]: the
    elements of an array, the code points of a string, nothing for a
    falsy value; any other value is not iterable. *)
Definition category_entries (s : object) : result (list json) :=
  match get s "categories" with
  | Some v =>
      if truthy v then
        match v with
        | JArr items => Ok items
        | JStr str => Ok (map JStr (code_points str))
        | _ => Throw (TypeError "s.categories is not iterable")
        end
      else Ok []
  | None => Ok []
  end.

(** Lines 104-109. *)
Fixpoint collect (used : jsset) (servers : list object) : result jsset :=
  match servers with
  | [] => Ok used
  | s :: rest =>
      entries <- category_entries s ;;
      collect (fold_left set_add entries used) rest
  end.

Definition usedCategories (servers : list object) : result jsset :=
  collect [] servers.

(** [s.publisher && s.publisher.official && s.publisher.verified]. *)
Definition featured (s : object) : bool :=
  match get s "publisher" with
  | Some p =>
      truthy p && truthy_opt (prop p "official")
      && truthy_opt (prop p "verified")
  | None => false
  end.

(** Lines 112-115; an absent id is [undefined]. *)
Definition featuredIds (servers : list object) : list (option json) :=
  map (fun s => get s "id") (firstn 6 (filter featured servers)).

(** The descriptors of the [ui] block. *)
Record match_rule : Type := {
  field : string;
  operator : string;
  value : option json
}.

Record filter_option : Type := {
  option_id : option json;
  option_label : option json;
  option_icon : option json;
  option_match : option match_rule
}.

Record filter_descriptor : Type := {
  filter_id : string;
  filter_label : string;
  filter_type : string;
  options : list filter_option
}.

Record sort_rule : Type := {
  rule_field : string;
  direction : string;
  nulls : option string
}.

Record sort_option : Type := {
  sort_id : string;
  sort_label : string;
  rules : list sort_rule
}.

Record ui_block : Type := {
  filters : list filter_descriptor;
  sort_options : list sort_option;
  default_sort : string;
  items_per_page : Z
}.

Record bundle : Type := {
  version : string;
  updated_at : string;
  servers : list object;
  categories : json;
  ui : ui_block;
  featured_server_ids : list (option json)
}.

(** An option without icon, [{ id, label }] or [{ id, label, match }]. *)
Definition plain_option (id label : string) (m : option match_rule)
  : filter_option :=
  {| option_id := Some (JStr id); option_label := Some (JStr label);
     option_icon := None; option_match := m |}.

Definition eq_rule (f : string) (v : json) : option match_rule :=
  Some {| field := f; operator := "eq"; value := Some v |}.

Definition all_categories : filter_option :=
  plain_option "all" "All Categories" None.

(** Lines 133-142: the option built from a category [c]. *)
Definition category_option (c : json) : filter_option :=
  {| option_id := prop c "id";
     option_label := prop c "name";
     option_icon := prop c "icon";
     option_match :=
       Some {| field := "categories"; operator := "contains";
               value := prop c "id" |} |}.

(** The callback of line 132; reading [c.id] of [null] throws, and no
    [Set] filled from parsed values holds [undefined]. *)
Definition is_used (used : jsset) (c : json) : result bool :=
  match c with
  | JNull => Throw (TypeError "cannot read properties of null")
  | _ =>
      match prop c "id" with
      | Some id => Ok (set_has used id)
      | None => Ok false
      end
  end.

Fixpoint filter_used (used : jsset) (cs : list json) : result (list json) :=
  match cs with
  | [] => Ok []
  | c :: rest =>
      keep <- is_used used c ;;
      kept <- filter_used used rest ;;
      Ok (if keep then c :: kept else kept)
  end.

(** Lines 129-143; only an array has a [filter] method. *)
Definition category_options (categories : json) (used : jsset)
  : result (list filter_option) :=
  match categories with
  | JArr cs =>
      kept <- filter_used used cs ;;
      Ok (all_categories :: map category_option kept)
  | _ => Throw (TypeError "categories.filter is not a function")
  end.

Definition publisher_filter : filter_descriptor :=
  {| filter_id := "publisher"; filter_label := "Publisher";
     filter_type := "single";
     options :=
       [ plain_option "all" "All Publishers" None;
         plain_option "official" "Official"
           (eq_rule "publisher.official" (JBool true));
         plain_option "verified" "Verified"
           (eq_rule "publisher.verified" (JBool true)) ] |}.

Definition transport_filter : filter_descriptor :=
  {| filter_id := "transport"; filter_label := "Transport";
     filter_type := "single";
     options :=
       [ plain_option "all" "All" None;
         plain_option "http" "Remote (HTTP)"
           (eq_rule "transport.type" (JStr "http"));
         plain_option "stdio" "Local (Stdio)"
           (eq_rule "transport.type" (JStr "stdio")) ] |}.

Definition auth_filter : filter_descriptor :=
  {| filter_id := "auth"; filter_label := "Auth Required";
     filter_type := "single";
     options :=
       [ plain_option "all" "All" None;
         plain_option "none" "No Auth" (eq_rule "auth.type" (JStr "none"));
         plain_option "api_key" "API Key"
           (eq_rule "auth.type" (JStr "api_key"));
         plain_option "oauth" "OAuth" (eq_rule "auth.type" (JStr "oauth")) ] |}.

Definition category_filter (opts : list filter_option) : filter_descriptor :=
  {| filter_id := "category"; filter_label := "Category";
     filter_type := "single"; options := opts |}.

Definition SORT_OPTIONS : list sort_option :=
  [ {| sort_id := "recommended"; sort_label := "Recommended";
       rules :=
         [ {| rule_field := "publisher.official"; direction := "desc";
              nulls := Some "last" |};
           {| rule_field := "publisher.verified"; direction := "desc";
              nulls := Some "last" |};
           {| rule_field := "name"; direction := "asc"; nulls := None |} ] |};
    {| sort_id := "name_asc"; sort_label := "Name A-Z";
       rules := [ {| rule_field := "name"; direction := "asc";
                     nulls := None |} ] |};
    {| sort_id := "name_desc"; sort_label := "Name Z-A";
       rules := [ {| rule_field := "name"; direction := "desc";
                     nulls := None |} ] |} ].

(** What the build prints. *)
Inductive output : Type :=
| LogLoaded (relative : string)
| ErrorCategories (message : string)
| ErrorLoading (relative message : string)
| ErrorUnexpected (e : exn)
| LogWritten (nservers ncategories : nat).

(** The calls that change the file system. *)
Inductive fs_call : Type :=
| MkdirSync
| WriteFileSync (b : bundle).

(** The part of the world the build acts on: the console, whether the
    [bundle] directory exists, the content of [bundle/bundle.json]
    (the bundle that [JSON.stringify] serialises), if the file exists,
    and the calls made so far that change the file system. *)
Record world : Type := {
  console : list output;
  bundle_dir : bool;
  bundle_json : option bundle;
  fs_calls : list fs_call
}.

Definition print (o : output) (w : world) : world :=
  {| console := console w ++ [o]; bundle_dir := bundle_dir w;
     bundle_json := bundle_json w; fs_calls := fs_calls w |}.

(** Lines 251-253. *)
Definition ensure_dir (w : world) : world :=
  if bundle_dir w then w
  else {| console := console w; bundle_dir := true;
          bundle_json := bundle_json w;
          fs_calls := fs_calls w ++ [MkdirSync] |}.

(** Line 256. *)
Definition writeFile (b : bundle) (w : world) : world :=
  {| console := console w; bundle_dir := bundle_dir w;
     bundle_json := Some b;
     fs_calls := fs_calls w ++ [WriteFileSync b] |}.

(** What a run reads: [categories.json], the files that
    [getAllServerFiles] lists, and the clock, whose [n]-th reading is
    [clock n]. *)
Record environment : Type := {
  categories_file : loaded json;
  server_files : list file;
  clock : nat -> string
}.

(** The loop of lines 87-98, from the [n]-th clock reading on: the
    enriched records, or [None] when [process.exit(1)] ended the run.
    The [try] of line 89 encloses [enrichServer]: a file holding
    [null], on which line 45 throws, ends the run as a file that does
    not load, and is a [LoadError] with the message of that exception.
    A file holding a number, a boolean, a string or an array is
    enriched as the object of its own properties, which is what the
    spread of line 41 copies. *)
Fixpoint load_servers (clock : nat -> string) (n : nat) (files : list file)
  (loaded_so_far : list object) (w : world) : world * option (list object) :=
  match files with
  | [] => (w, Some loaded_so_far)
  | (relative, Parsed data) :: rest =>
      load_servers clock (S n) rest
        (loaded_so_far ++ [enrichServer (clock n) data])
        (print (LogLoaded relative) w)
  | (relative, LoadError message) :: _ =>
      (print (ErrorLoading relative message) w, None)
  end.

Definition array_length (v : json) : nat :=
  match v with
  | JArr items => List.length items
  | _ => 0
  end.

Section Main.

Variable localeCompare : string -> string -> Z.
Variable ToString : json -> result string.

(** Lines 100-248: from the enriched records to the bundle. *)
Definition assemble (now : string) (categories : json)
  (enriched : list object) : result bundle :=
  sorted <- sort localeCompare ToString enriched ;;
  used <- usedCategories sorted ;;
  let featuredIds := featuredIds sorted in
  opts <- category_options categories used ;;
  Ok {| version := BUNDLE_VERSION;
        updated_at := now;
        servers := sorted;
        categories := categories;
        ui := {| filters := [ category_filter opts; publisher_filter;
                              transport_filter; auth_filter ];
                 sort_options := SORT_OPTIONS;
                 default_sort := "recommended";
                 items_per_page := 24 |};
        featured_server_ids := featuredIds |}.

(** [main().catch(...)]: the world the process leaves and its exit
    code.  An exception escaping [main] is caught by the handler of
    line 263, which exits with 1. *)
Definition main (env : environment) (w : world) : world * Z :=
  match categories_file env with
  | LoadError message => (print (ErrorCategories message) w, 1%Z)
  | Parsed categories =>
      match load_servers (clock env) 0 (server_files env) [] w with
      | (w1, None) => (w1, 1%Z)
      | (w1, Some enriched) =>
          match assemble (clock env (List.length enriched)) categories enriched with
          | Throw e => (print (ErrorUnexpected e) w1, 1%Z)
          | Ok b =>
              let w2 := writeFile b (ensure_dir w1) in
              (print (LogWritten (List.length (servers b))
                        (array_length categories)) w2, 0%Z)
          end
      end
  end.

End Main.

End BuildBundle.

(** ** Sample inputs *)

Module Samples.

Import BuildBundle.

Definition strings (l : list (string * string)) : object :=
  map (fun kv => (fst kv, JStr (snd kv))) l.

(** Three files: one declares the id [a], two declare the alias [a]. *)
Definition id_a : file := ("servers/a.json", Parsed (strings [("id", "a")])).
Definition alias_a1 : file :=
  ("servers/b.json", Parsed (strings [("alias", "a")])).
Definition alias_a2 : file :=
  ("servers/c.json", Parsed (strings [("alias", "a")])).

(** A file declaring [a] both as id and as alias. *)
Definition id_alias_a : file :=
  ("servers/d.json", Parsed (strings [("id", "a"); ("alias", "a")])).

(** Two files, each declaring as id the alias of the other. *)
Definition x_alias_y : file :=
  ("servers/x.json", Parsed (strings [("id", "x"); ("alias", "y")])).
Definition y_alias_x : file :=
  ("servers/y.json", Parsed (strings [("id", "y"); ("alias", "x")])).

(** Two files declaring the empty id. *)
Definition empty_id1 : file := ("servers/e1.json", Parsed (strings [("id", "")])).
Definition empty_id2 : file := ("servers/e2.json", Parsed (strings [("id", "")])).

(** A record whose author set platform-managed fields. *)
Definition authored_badges : object :=
  [ ("id", JStr "a"); ("badges", JArr [JStr "official"]);
    ("name", JStr "A"); ("_platform_rank", JNum 1) ].

(** A record whose publisher flags are truthy but not booleans. *)
Definition truthy_flags : object :=
  [ ("id", JStr "x"); ("name", JStr "X");
    ("publisher", JObj [("official", JNum 1); ("verified", JStr "yes")]) ].

(** An official publisher over HTTP, with authored platform fields. *)
Definition official_http : object :=
  [ ("id", JStr "o"); ("name", JStr "O");
    ("badges", JStr "mine"); ("stats", JNum 7);
    ("publisher", JObj [("official", JBool true); ("verified", JBool true)]);
    ("transport", JObj [("type", JStr "http")]);
    ("categories", JArr [JStr "dev"]) ].

(** A record whose [categories] is the string "dev" and not a list,
    and a category store with a category [d]. *)
Definition string_categories : object :=
  [ ("id", JStr "s"); ("name", JStr "S"); ("categories", JStr "dev") ].

Definition letter_store : json :=
  JArr [ JObj [("id", JStr "d"); ("name", JStr "D"); ("icon", JStr "disc")] ].


Definition named (n : string) : object := [("name", JStr n)].

(** A collation for the sample runs: names are ordered by their
    letters whatever their case, and of two names equal up to case the
    one with the lower-case letter at the first difference comes
    first; this is how the root collation of the host orders names
    made of ASCII letters, digits and spaces. *)
Definition caseless_compare (a b : string) : Z :=
  match String_as_OT.cmp (lower a) (lower b) with
  | Lt => (-1)%Z
  | Gt => 1%Z
  | Eq =>
      match String_as_OT.cmp b a with
      | Lt => (-1)%Z
      | Eq => 0%Z
      | Gt => 1%Z
      end
  end.

(** The [ToString] coercion on parsed values, for the sample runs: an
    array joins its elements with commas, [null] elements being empty;
    an object gives ["[object Object]"], unless it has a [toString]
    property of its own, which no parsed value can call. *)
Fixpoint to_string (v : json) : result string :=
  match v with
  | JNull => Ok "null"
  | JBool true => Ok "true"
  | JBool false => Ok "false"
  | JNum n => Ok (NilZero.string_of_int (Z.to_int n))
  | JStr s => Ok s
  | JArr items =>
      (fix join (l : list json) : result string :=
         match l with
         | [] => Ok ""
         | x :: rest =>
             first <- match x with
                      | JNull => Ok ""
                      | _ => to_string x
                      end ;;
             match rest with
             | [] => Ok first
             | _ => others <- join rest ;; Ok (first ++ "," ++ others)%string
             end
         end) items
  | JObj props =>
      if has_key props "toString"
      then Throw (TypeError "Cannot convert object to primitive value")
      else Ok "[object Object]"
  end.

(** A category store, a run that loads two records, and a run whose
    second file does not parse. *)
Definition categories_store : json :=
  JArr [ JObj [("id", JStr "dev"); ("name", JStr "Developer Tools");
               ("icon", JStr "wrench")];
         JObj [("id", JStr "data"); ("name", JStr "Data");
               ("icon", JStr "database")] ].

Definition midnight : string := "2026-01-01T00:00:00.000Z".

Definition good_run : environment :=
  {| categories_file := Parsed categories_store;
     server_files := [ ("servers/o.json", Parsed official_http);
                       ("servers/x.json", Parsed truthy_flags) ];
     clock := fun _ => midnight |}.

Definition broken_run : environment :=
  {| categories_file := Parsed categories_store;
     server_files := [ ("servers/o.json", Parsed official_http);
                       ("servers/bad.json",
                        LoadError "Unexpected end of JSON input") ];
     clock := fun _ => midnight |}.

Definition fresh_checkout : world :=
  {| console := []; bundle_dir := false; bundle_json := None;
     fs_calls := [] |}.

End Samples.

(** ** scripts/validate.js: validation of files and the command line *)

Module ValidateCli.

Import BuildBundle.

(** One entry of [validate.errors]. *)
Record violation : Type := {
  instancePath : string;
  message : string
}.

(** What the function compiled by [ajv.compile] answers: [true], or
    [false] with [validate.errors]. *)
Inductive verdict : Type :=
| Valid
| Invalid (errors : list violation).

Definition validator : Type := object -> verdict.

(** What the script prints. *)
Inductive line : Type :=
| Fail (relative : string)
| ParseFailure (message : string)
| Warn (text : string)
| ViolationLine (path message : string)
| Pass (relative : string)
| NoServerFiles
| ConflictLine (c : conflict)
| NoConflicts (nfiles : nat)
| NothingToValidate
| UnexpectedError (what : string).

(** What a run reads: the schema file, the paths that
    [getAllServerFiles] returns, and what [loadJson] makes of a path.
    As for [file], a file that parses is taken to hold an object. *)
Record repository : Type := {
  schema_file : loaded object;
  server_paths : list string;
  read : string -> loaded object
}.

(** [err.instancePath || "/"]. *)
Definition path_or_root (e : violation) : string :=
  if (instancePath e =? "") then "/" else instancePath e.

Section Host.

(** [path.basename], [path.relative(ROOT, .)], [path.resolve] and
    [ajv.compile], which may throw. *)
Variable basename : string -> string.
Variable relative_to_root : string -> string.
Variable resolve : string -> string.
Variable compile : object -> result validator.

Variable repo : repository.

(** One turn of the loop of lines 80-108: what it prints and whether it
    sets [hasErrors]. *)
Definition validate_file (validate : validator) (filePath : string)
  : list line * bool :=
  let relative := relative_to_root filePath in
  match read repo filePath with
  | LoadError msg => ([Fail relative; ParseFailure msg], true)
  | Parsed data =>
      let stripped := stripPlatformFields basename data filePath in
      let warnings := map Warn (snd stripped) in
      match validate (fst stripped) with
      | Invalid errors =>
          (warnings ++ Fail relative ::
             map (fun e => ViolationLine (path_or_root e) (message e)) errors,
           true)
      | Valid => (warnings ++ [Pass relative], false)
      end
  end.

(** The loop of lines 80-108. *)
Fixpoint validate_all (validate : validator) (files : list string)
  (out : list line) (hasErrors : bool) : list line * bool :=
  match files with
  | [] => (out, hasErrors)
  | filePath :: rest =>
      let r := validate_file validate filePath in
      validate_all validate rest (out ++ fst r) (hasErrors || snd r)
  end.

(** [validateFiles(files)]: the lines printed and the value returned,
    or the message of the exception that escapes when the schema does
    not load or does not compile. *)
Definition validateFiles (files : list string) : string + list line * bool :=
  match schema_file repo with
  | LoadError msg => inl msg
  | Parsed schema =>
      match compile (delete "$schema" schema) with
      | Throw (TypeError what) => inl what
      | Ok validate => inr (validate_all validate files [] false)
      end
  end.

(** The files as [checkConflicts] sees them. *)
Definition server_files : list file :=
  map (fun p => (relative_to_root p, read repo p)) (server_paths repo).

(** [checkConflicts()] with what it prints. *)
Definition checkConflicts_printed : list line * bool :=
  match server_files with
  | [] => ([NoServerFiles], false)
  | _ =>
      let r := checkConflicts server_files in
      (map ConflictLine (fst r)
       ++ (if snd r then [] else [NoConflicts (List.length server_files)]),
       snd r)
  end.

Definition includes (flag : string) (args : list string) : bool :=
  existsb (String.eqb flag) args.

Definition fileArgs (args : list string) : list string :=
  filter (fun a => negb (prefix "--" a)) args.

Definition is_empty {A : Type} (l : list A) : bool :=
  match l with
  | [] => true
  | _ => false
  end.

Definition code (failed : bool) : Z := if failed then 1%Z else 0%Z.

(** [main().catch(...)] of lines 190-237 on [process.argv.slice(2)]:
    what is printed and the exit code. *)
Definition main (args : list string) : list line * Z :=
  let doAll := includes "--all" args in
  let doConflicts := includes "--check-conflicts" args in
  if doConflicts && negb doAll && is_empty (fileArgs args) then
    (fst checkConflicts_printed, code (snd checkConflicts_printed))
  else
    let files :=
      if doAll then server_paths repo
      else map resolve (fileArgs args) in
    if is_empty files && negb doConflicts then ([NothingToValidate], 0%Z)
    else
      match (if is_empty files then inr ([], false) else validateFiles files)
      with
      | inl what => ([UnexpectedError what], 1%Z)
      | inr (out, hasErrors) =>
          if doConflicts then
            (out ++ fst checkConflicts_printed,
             code (hasErrors || snd checkConflicts_printed))
          else (out, code hasErrors)
      end.

End Host.

End ValidateCli.

(** ** Notions used to state further properties *)

Module Notions.

(** The file parses. *)
Definition parses (f : file) : bool :=
  match snd f with
  | Parsed _ => true
  | LoadError _ => false
  end.

(** The first of the files that declares [t] in [field]. *)
Definition first_declarer (field : string) (t : json) (files : list file)
  : option string :=
  match find (declares field t) files with
  | Some f => Some (fst f)
  | None => None
  end.

End Notions.

(** ** More sample inputs *)

Module MoreSamples.

Import BuildBundle.

(** A run whose category store holds [null]. *)
Definition null_store_run : environment :=
  {| categories_file := Parsed (JArr [JNull]);
     server_files := [ ("servers/o.json", Parsed Samples.official_http) ];
     clock := fun _ => Samples.midnight |}.

End MoreSamples.

(** ** Notions and samples for the command line *)

Module CliNotions.

Import ValidateCli.

Definition is_warning (l : line) : bool :=
  match l with
  | Warn _ => true
  | _ => false
  end.

(** The [PASS] and [FAIL] lines. *)
Definition is_verdict_line (l : line) : bool :=
  match l with
  | Fail _ | Pass _ => true
  | _ => false
  end.

Definition is_conflict_line (l : line) : bool :=
  match l with
  | ConflictLine _ => true
  | _ => false
  end.

(** The lines that report a failure. *)
Definition is_failure_line (l : line) : bool :=
  match l with
  | Fail _ | ConflictLine _ | UnexpectedError _ => true
  | _ => false
  end.

(** The arguments that [main] looks at. *)
Definition known_argument (a : string) : bool :=
  negb (prefix "--" a) || (a =? "--all") || (a =? "--check-conflicts").

(** The file does not load, or its sanitized record is invalid. *)
Definition rejected (basename : string -> string) (repo : repository)
  (validate : validator) (filePath : string) : bool :=
  match read repo filePath with
  | LoadError _ => true
  | Parsed data =>
      match validate (fst (stripPlatformFields basename data filePath)) with
      | Invalid _ => true
      | Valid => false
      end
  end.

(** A validator that requires a [name], and a registry of two files of
    which the first has none. *)
Definition requires_name : validator :=
  fun data =>
    if has_key data "name" then Valid
    else Invalid [ {| instancePath := "";
                      message := "must have required property 'name'" |} ].

Definition registry : repository :=
  {| schema_file := Parsed [("$schema", JStr "draft"); ("type", JStr "object")];
     server_paths := ["servers/a.json"; "servers/b.json"];
     read := fun p =>
       if p =? "servers/a.json" then Parsed (Samples.strings [("id", "a")])
       else if p =? "servers/b.json" then Parsed Samples.authored_badges
       else LoadError "ENOENT: no such file or directory" |}.

(** The same registry without a schema file. *)
Definition registry_without_schema : repository :=
  {| schema_file := LoadError "ENOENT: no such file or directory";
     server_paths := server_paths registry;
     read := read registry |}.

(** The registry in which the author of [b.json] set no reserved
    field. *)
Definition clean_registry : repository :=
  {| schema_file := schema_file registry;
     server_paths := server_paths registry;
     read := fun p =>
       if p =? "servers/b.json"
       then Parsed [("id", JStr "a"); ("name", JStr "A")]
       else read registry p |}.

Definition same_path (p : string) : string := p.

Definition compile_requires_name (schema : object)
  : BuildBundle.result validator :=
  BuildBundle.Ok requires_name.

End CliNotions.

(* ================================================================== *)
(** * Part II: properties *)
(* ================================================================== *)

(** ** Objects, maps and sets *)

Module JsonFacts.

(** Filters. *)
Lemma filter_all {A : Type} (p : A -> bool) (l : list A) :
  (forall x, In x l -> p x = true) -> filter p l = l.
Proof.
  induction l as [|x l IH]; simpl; intros H; [reflexivity|].
  rewrite (H x (or_introl eq_refl)). f_equal. apply IH.
  intros y Hy. apply H. now right.
Qed.

Lemma filter_twice {A : Type} (p q : A -> bool) (l : list A) :
  filter p (filter q l) = filter (fun x => q x && p x) l.
Proof.
  induction l as [|x l IH]; simpl; [reflexivity|].
  destruct (q x); simpl; [destruct (p x)|]; now rewrite IH.
Qed.

Lemma filter_nothing {A : Type} (p : A -> bool) (l : list A) :
  (forall x, In x l -> p x = false) -> filter p l = [].
Proof.
  induction l as [|x l IH]; simpl; intros H; [reflexivity|].
  rewrite (H x (or_introl eq_refl)). apply IH.
  intros y Hy. apply H. now right.
Qed.

Lemma same_value_zero_eq (a b : json) :
  same_value_zero a b = true -> a = b.
Proof.
  destruct a, b; simpl; try discriminate; intros H; try reflexivity.
  - apply Bool.eqb_prop in H. now subst.
  - apply Z.eqb_eq in H. now subst.
  - apply String.eqb_eq in H. now subst.
Qed.

Lemma same_value_zero_sym (a b : json) :
  same_value_zero a b = same_value_zero b a.
Proof.
  destruct a, b; simpl; try reflexivity.
  - now destruct b, b0.
  - apply Z.eqb_sym.
  - apply String.eqb_sym.
Qed.

(** A value that matches some key is a primitive: it matches itself. *)
Lemma same_value_zero_refl_r (a b : json) :
  same_value_zero a b = true -> same_value_zero b b = true.
Proof.
  intros H. pose proof (same_value_zero_eq _ _ H) as E. now subst.
Qed.

Lemma same_value_zero_refl_l (a b : json) :
  same_value_zero a b = true -> same_value_zero a a = true.
Proof.
  intros H. pose proof (same_value_zero_eq _ _ H) as E. now subst.
Qed.

Lemma get_set_same (k : string) (v : json) (o : object) :
  get (set k v o) k = Some v.
Proof.
  induction o as [|[k' v'] o IH]; simpl.
  - now rewrite String.eqb_refl.
  - destruct (k' =? k)%string eqn:E; simpl.
    + now rewrite String.eqb_refl.
    + now rewrite E.
Qed.

Lemma get_set_other (k k' : string) (v : json) (o : object) :
  k <> k' -> get (set k v o) k' = get o k'.
Proof.
  intros Hne. induction o as [|[k0 v0] o IH]; simpl.
  - destruct (k =? k')%string eqn:E; [|reflexivity].
    apply String.eqb_eq in E. contradiction.
  - destruct (k0 =? k)%string eqn:E; simpl.
    + apply String.eqb_eq in E. subst k0.
      destruct (k =? k')%string eqn:E'; [|reflexivity].
      apply String.eqb_eq in E'. contradiction.
    + now rewrite IH.
Qed.

Lemma map_has_cons (k : json) (v : string) (m : jsmap) (t : json) :
  map_has ((k, v) :: m) t = same_value_zero k t || map_has m t.
Proof.
  unfold map_has. simpl. now destruct (same_value_zero k t).
Qed.

Lemma map_has_set (m : jsmap) (k : json) (v : string) (t : json) :
  map_has (map_set m k v) t = map_has m t || same_value_zero k t.
Proof.
  induction m as [|[k' v'] m IH]; simpl.
  - rewrite map_has_cons. unfold map_has. simpl. apply orb_comm.
  - destruct (same_value_zero k' k) eqn:E.
    + rewrite !map_has_cons.
      apply same_value_zero_eq in E. subst k'.
      now destruct (same_value_zero k t), (map_has m t).
    + rewrite !map_has_cons, IH. now rewrite orb_assoc.
Qed.

Lemma map_get_has (m : jsmap) (k : json) (v : string) :
  map_get m k = Some v -> map_has m k = true.
Proof. unfold map_has. now intros ->. Qed.

Lemma map_get_none (m : jsmap) (k : json) :
  map_get m k = None -> map_has m k = false.
Proof. unfold map_has. now intros ->. Qed.

(** Only a primitive is ever found in a map. *)
Lemma map_get_primitive (m : jsmap) (k : json) (v : string) :
  map_get m k = Some v -> same_value_zero k k = true.
Proof.
  induction m as [|[k' v'] m IH]; simpl; [discriminate|].
  destruct (same_value_zero k' k) eqn:E; [|exact IH].
  intros _. now apply same_value_zero_refl_r in E.
Qed.

End JsonFacts.

(** ** Conflict detection *)

Module DetectorFacts.

Import JsonFacts.

Lemma tally_app (k : conflict_kind) (t : json) (l1 l2 : list conflict) :
  tally k t (l1 ++ l2) = tally k t l1 + tally k t l2.
Proof. unfold tally. now rewrite filter_app, length_app. Qed.

Lemma tally_one (k : conflict_kind) (t : json) (c : conflict) :
  tally k t [c] = if about k t c then 1 else 0.
Proof. unfold tally. simpl. now destruct (about k t c). Qed.

(** *** What one check does to the two mappings *)

Lemma check_id_aliases (relative : string) (data : object) (st : detector) :
  aliases (check_id relative data st) = aliases st.
Proof.
  unfold check_id.
  destruct (get data "id") as [id|]; [|reflexivity].
  destruct (truthy id); [|reflexivity].
  destruct (map_get (ids st) id); simpl;
    destruct (map_get (aliases st) id); reflexivity.
Qed.

Lemma check_alias_ids (relative : string) (data : object) (st : detector) :
  ids (check_alias relative data st) = ids st.
Proof.
  unfold check_alias.
  destruct (get data "alias") as [al|]; [|reflexivity].
  destruct (truthy al); [|reflexivity].
  destruct (map_get (aliases st) al); simpl;
    destruct (map_get (ids st) al); reflexivity.
Qed.

Lemma check_id_ids_has (relative : string) (data : object) (st : detector)
  (t : json) :
  map_has (ids (check_id relative data st)) t =
  map_has (ids st) t || declares "id" t (relative, Parsed data).
Proof.
  unfold check_id, declares, declared. simpl.
  destruct (get data "id") as [id|]; [|now rewrite orb_false_r].
  destruct (truthy id); [|now rewrite orb_false_r].
  destruct (map_get (ids st) id) as [first|] eqn:G; simpl.
  - destruct (map_get (aliases st) id); simpl;
      (destruct (same_value_zero id t) eqn:E;
       [ apply same_value_zero_eq in E; subst t;
         now rewrite (map_get_has _ _ _ G)
       | now rewrite orb_false_r ]).
  - destruct (map_get (aliases st) id); simpl; apply map_has_set.
Qed.

Lemma check_alias_aliases_has (relative : string) (data : object)
  (st : detector) (t : json) :
  map_has (aliases (check_alias relative data st)) t =
  map_has (aliases st) t || declares "alias" t (relative, Parsed data).
Proof.
  unfold check_alias, declares, declared. simpl.
  destruct (get data "alias") as [al|]; [|now rewrite orb_false_r].
  destruct (truthy al); [|now rewrite orb_false_r].
  destruct (map_get (aliases st) al) as [first|] eqn:G; simpl.
  - destruct (map_get (ids st) al); simpl;
      (destruct (same_value_zero al t) eqn:E;
       [ apply same_value_zero_eq in E; subst t;
         now rewrite (map_get_has _ _ _ G)
       | now rewrite orb_false_r ]).
  - destruct (map_get (ids st) al); simpl; apply map_has_set.
Qed.

Lemma visit_ids_has (st : detector) (f : file) (t : json) :
  map_has (ids (visit st f)) t = map_has (ids st) t || declares "id" t f.
Proof.
  destruct f as [relative [data|message]]; unfold visit; simpl.
  - rewrite check_alias_ids. apply check_id_ids_has.
  - unfold declares. simpl. now rewrite orb_false_r.
Qed.

Lemma visit_aliases_has (st : detector) (f : file) (t : json) :
  map_has (aliases (visit st f)) t =
  map_has (aliases st) t || declares "alias" t f.
Proof.
  destruct f as [relative [data|message]]; unfold visit; simpl.
  - rewrite check_alias_aliases_has, check_id_aliases. reflexivity.
  - unfold declares. simpl. now rewrite orb_false_r.
Qed.

(** *** What one check prints *)

Lemma check_id_tally (relative : string) (data : object) (st : detector)
  (k : conflict_kind) (t : json) :
  tally k t (reported (check_id relative data st)) =
  tally k t (reported st)
  + bit (kind_eqb KDuplicateId k
         && declares "id" t (relative, Parsed data) && map_has (ids st) t)
  + bit (kind_eqb KIdAliasCollision k
         && declares "id" t (relative, Parsed data)
         && map_has (aliases st) t).
Proof.
  unfold check_id, declares, declared. simpl.
  destruct (get data "id") as [id|];
    [|now rewrite !andb_false_r; simpl; rewrite !Nat.add_0_r].
  destruct (truthy id);
    [|now rewrite !andb_false_r; simpl; rewrite !Nat.add_0_r].
  destruct (same_value_zero id t) eqn:E.
  - apply same_value_zero_eq in E as E'. subst t.
    unfold map_has.
    destruct (map_get (ids st) id) as [first|]; simpl;
      destruct (map_get (aliases st) id) as [other|]; simpl;
      rewrite ?tally_app, ?tally_one; unfold about; simpl; rewrite ?E;
      destruct k; simpl; lia.
  - rewrite !andb_false_r; simpl. rewrite !Nat.add_0_r.
    destruct (map_get (ids st) id) as [first|]; simpl;
      destruct (map_get (aliases st) id) as [other|]; simpl;
      rewrite ?tally_app, ?tally_one; unfold about; simpl; rewrite ?E;
      rewrite ?andb_false_r; simpl; lia.
Qed.

Lemma check_alias_tally (relative : string) (data : object) (st : detector)
  (k : conflict_kind) (t : json) :
  tally k t (reported (check_alias relative data st)) =
  tally k t (reported st)
  + bit (kind_eqb KDuplicateAlias k
         && declares "alias" t (relative, Parsed data)
         && map_has (aliases st) t)
  + bit (kind_eqb KIdAliasCollision k
         && declares "alias" t (relative, Parsed data)
         && map_has (ids st) t).
Proof.
  unfold check_alias, declares, declared. simpl.
  destruct (get data "alias") as [al|];
    [|now rewrite !andb_false_r; simpl; rewrite !Nat.add_0_r].
  destruct (truthy al);
    [|now rewrite !andb_false_r; simpl; rewrite !Nat.add_0_r].
  destruct (same_value_zero al t) eqn:E.
  - apply same_value_zero_eq in E as E'. subst t.
    unfold map_has.
    destruct (map_get (aliases st) al) as [first|]; simpl;
      destruct (map_get (ids st) al) as [other|]; simpl;
      rewrite ?tally_app, ?tally_one; unfold about; simpl; rewrite ?E;
      destruct k; simpl; lia.
  - rewrite !andb_false_r; simpl. rewrite !Nat.add_0_r.
    destruct (map_get (aliases st) al) as [first|]; simpl;
      destruct (map_get (ids st) al) as [other|]; simpl;
      rewrite ?tally_app, ?tally_one; unfold about; simpl; rewrite ?E;
      rewrite ?andb_false_r; simpl; lia.
Qed.

(** The conflicts one file adds, by kind and token, in terms of what
    the two mappings held before the file. *)
Lemma visit_tally (st : detector) (f : file) (k : conflict_kind) (t : json) :
  tally k t (reported (visit st f)) =
  tally k t (reported st)
  + bit (kind_eqb KDuplicateId k && declares "id" t f && map_has (ids st) t)
  + bit (kind_eqb KIdAliasCollision k && declares "id" t f
         && map_has (aliases st) t)
  + bit (kind_eqb KDuplicateAlias k && declares "alias" t f
         && map_has (aliases st) t)
  + bit (kind_eqb KIdAliasCollision k && declares "alias" t f
         && (map_has (ids st) t || declares "id" t f)).
Proof.
  destruct f as [relative [data|message]]; unfold visit; simpl.
  - rewrite check_alias_tally, check_id_tally, check_id_aliases,
      check_id_ids_has. reflexivity.
  - unfold declares. simpl. rewrite !andb_false_r. simpl. lia.
Qed.

Lemma scan_cons (st : detector) (f : file) (l : list file) :
  scan st (f :: l) = scan (visit st f) l.
Proof. reflexivity. Qed.

Lemma declarations_cons (field : string) (t : json) (f : file)
  (l : list file) :
  declarations field t (f :: l) =
  bit (declares field t f) + declarations field t l.
Proof.
  unfold declarations. simpl. now destruct (declares field t f).
Qed.

(** *** Closed forms over a whole run *)

(** Every file that declares an id already in the mapping prints one
    duplicate-id line: in all, one less than the files declaring it. *)
Lemma scan_duplicate_ids (l : list file) (st : detector) (t : json) :
  tally KDuplicateId t (reported (scan st l)) =
  tally KDuplicateId t (reported st)
  + (if map_has (ids st) t then declarations "id" t l
     else pred (declarations "id" t l)).
Proof.
  revert st. induction l as [|f l IH]; intros st.
  - simpl. unfold declarations. simpl. destruct (map_has (ids st) t); lia.
  - rewrite scan_cons, IH, visit_tally, visit_ids_has, declarations_cons.
    simpl.
    destruct (declares "id" t f), (map_has (ids st) t); simpl; lia.
Qed.

Lemma scan_duplicate_aliases (l : list file) (st : detector) (t : json) :
  tally KDuplicateAlias t (reported (scan st l)) =
  tally KDuplicateAlias t (reported st)
  + (if map_has (aliases st) t then declarations "alias" t l
     else pred (declarations "alias" t l)).
Proof.
  revert st. induction l as [|f l IH]; intros st.
  - simpl. unfold declarations. simpl. destruct (map_has (aliases st) t); lia.
  - rewrite scan_cons, IH, visit_tally, visit_aliases_has, declarations_cons.
    simpl.
    destruct (declares "alias" t f), (map_has (aliases st) t); simpl; lia.
Qed.

Lemma positive_sum (a : nat) (b c : bool) :
  Nat.ltb 0 (a + bit b + bit c) = Nat.ltb 0 a || b || c.
Proof.
  destruct b, c, a; simpl; try reflexivity;
    rewrite ?Nat.add_0_r, ?Nat.add_1_r; reflexivity.
Qed.

(** An id-alias collision about [t] is printed exactly when [t] is
    both an id and an alias, of the files or of the mappings. *)
Lemma scan_collisions (l : list file) (st : detector) (t : json) :
  Nat.ltb 0 (tally KIdAliasCollision t (reported (scan st l))) =
  Nat.ltb 0 (tally KIdAliasCollision t (reported st))
  || (map_has (ids st) t && existsb (declares "alias" t) l)
  || (map_has (aliases st) t && existsb (declares "id" t) l)
  || (existsb (declares "id" t) l && existsb (declares "alias" t) l).
Proof.
  revert st. induction l as [|f l IH]; intros st.
  - simpl. now rewrite !andb_false_r, !orb_false_r.
  - rewrite scan_cons, IH, visit_tally, visit_ids_has, visit_aliases_has.
    simpl. rewrite !Nat.add_0_r, positive_sum.
    destruct (Nat.ltb 0 (tally KIdAliasCollision t (reported st))),
      (declares "id" t f), (declares "alias" t f),
      (map_has (ids st) t), (map_has (aliases st) t),
      (existsb (declares "id" t) l), (existsb (declares "alias" t) l);
      reflexivity.
Qed.

Lemma conflicts_scan (l : list file) :
  conflicts l = reported (scan start l).
Proof. now destruct l. Qed.

Lemma verdict_scan (l : list file) :
  snd (checkConflicts l) = hasConflicts (scan start l).
Proof. now destruct l. Qed.

Lemma duplicate_ids_count (l : list file) (t : json) :
  tally KDuplicateId t (conflicts l) = pred (declarations "id" t l).
Proof. rewrite conflicts_scan, scan_duplicate_ids. reflexivity. Qed.

Lemma duplicate_aliases_count (l : list file) (t : json) :
  tally KDuplicateAlias t (conflicts l) = pred (declarations "alias" t l).
Proof. rewrite conflicts_scan, scan_duplicate_aliases. reflexivity. Qed.

Lemma collision_reported (l : list file) (t : json) :
  Nat.ltb 0 (tally KIdAliasCollision t (conflicts l)) =
  existsb (declares "id" t) l && existsb (declares "alias" t) l.
Proof. rewrite conflicts_scan, scan_collisions. reflexivity. Qed.

(** *** The flag and the printed lines *)

(** [hasConflicts] is set exactly when a line has been printed, and
    every printed token is a primitive value. *)
Lemma report_sound (c : conflict) (st : detector) :
  same_value_zero (token_of c) (token_of c) = true ->
  (hasConflicts st = true <-> reported st <> []) /\
  Forall (fun c => same_value_zero (token_of c) (token_of c) = true)
    (reported st) ->
  (hasConflicts (report c st) = true <-> reported (report c st) <> []) /\
  Forall (fun c => same_value_zero (token_of c) (token_of c) = true)
    (reported (report c st)).
Proof.
  intros Hc [_ Hall]. simpl. split.
  - split; [|reflexivity]. intros _ H.
    apply app_eq_nil in H. destruct H as [_ H]. discriminate.
  - apply Forall_app. split; [assumption|]. constructor; [assumption|constructor].
Qed.

Lemma check_id_sound (relative : string) (data : object) (st : detector) :
  (hasConflicts st = true <-> reported st <> []) /\
  Forall (fun c => same_value_zero (token_of c) (token_of c) = true)
    (reported st) ->
  (hasConflicts (check_id relative data st) = true <->
   reported (check_id relative data st) <> []) /\
  Forall (fun c => same_value_zero (token_of c) (token_of c) = true)
    (reported (check_id relative data st)).
Proof.
  intros H. unfold check_id.
  destruct (get data "id") as [id|]; [|exact H].
  destruct (truthy id); [|exact H].
  destruct (map_get (ids st) id) as [first|] eqn:G1; simpl.
  - pose proof (map_get_primitive _ _ _ G1) as P.
    destruct (map_get (aliases st) id) as [other|];
      repeat (apply report_sound; [exact P|]); exact H.
  - destruct (map_get (aliases st) id) as [other|] eqn:G2; [|exact H].
    pose proof (map_get_primitive _ _ _ G2) as P.
    apply (report_sound (IdCollidesAlias id relative other)
             (set_id id relative st) P H).
Qed.

Lemma check_alias_sound (relative : string) (data : object) (st : detector) :
  (hasConflicts st = true <-> reported st <> []) /\
  Forall (fun c => same_value_zero (token_of c) (token_of c) = true)
    (reported st) ->
  (hasConflicts (check_alias relative data st) = true <->
   reported (check_alias relative data st) <> []) /\
  Forall (fun c => same_value_zero (token_of c) (token_of c) = true)
    (reported (check_alias relative data st)).
Proof.
  intros H. unfold check_alias.
  destruct (get data "alias") as [al|]; [|exact H].
  destruct (truthy al); [|exact H].
  destruct (map_get (aliases st) al) as [first|] eqn:G1; simpl.
  - pose proof (map_get_primitive _ _ _ G1) as P.
    destruct (map_get (ids st) al) as [other|];
      repeat (apply report_sound; [exact P|]); exact H.
  - destruct (map_get (ids st) al) as [other|] eqn:G2; [|exact H].
    pose proof (map_get_primitive _ _ _ G2) as P.
    apply (report_sound (AliasCollidesId al relative other)
             (set_alias al relative st) P H).
Qed.

Lemma scan_sound (l : list file) (st : detector) :
  (hasConflicts st = true <-> reported st <> []) /\
  Forall (fun c => same_value_zero (token_of c) (token_of c) = true)
    (reported st) ->
  (hasConflicts (scan st l) = true <-> reported (scan st l) <> []) /\
  Forall (fun c => same_value_zero (token_of c) (token_of c) = true)
    (reported (scan st l)).
Proof.
  revert st. induction l as [|[relative [data|message]] l IH]; intros st H.
  - exact H.
  - rewrite scan_cons. apply IH. unfold visit. simpl.
    now apply check_alias_sound, check_id_sound.
  - rewrite scan_cons. now apply IH.
Qed.

(** The run prints something exactly when some tally is positive. *)
Lemma verdict_tally (l : list file) :
  snd (checkConflicts l) = true <->
  exists k t, 0 < tally k t (conflicts l).
Proof.
  rewrite verdict_scan, conflicts_scan.
  destruct (scan_sound l start) as [Hflag Hall].
  { split; [|constructor]. simpl. split; [discriminate|congruence]. }
  rewrite Hflag. split.
  - intros Hne.
    destruct (reported (scan start l)) as [|c cs]; [congruence|].
    exists (kind_of c), (token_of c).
    unfold tally. simpl. unfold about at 1.
    inversion Hall as [|? ? Hc _]; subst. rewrite Hc.
    destruct (kind_of c); simpl; lia.
  - intros [k [t H]] E. rewrite E in H. unfold tally in H. simpl in H. lia.
Qed.

(** *** What does not depend on the order of the files *)

Lemma declarations_perm (field : string) (t : json) (l l' : list file) :
  Permutation l l' -> declarations field t l = declarations field t l'.
Proof.
  induction 1 as [|x l l' _ IH|x y l|l l' l'' _ IH1 _ IH2].
  - reflexivity.
  - now rewrite !declarations_cons, IH.
  - rewrite !declarations_cons. lia.
  - congruence.
Qed.

Lemma existsb_perm {A : Type} (p : A -> bool) (l l' : list A) :
  Permutation l l' -> existsb p l = existsb p l'.
Proof.
  induction 1 as [|x l l' _ IH|x y l|l l' l'' _ IH1 _ IH2]; simpl.
  - reflexivity.
  - now rewrite IH.
  - now destruct (p x), (p y).
  - congruence.
Qed.

Lemma tally_positive_perm (l l' : list file) (k : conflict_kind) (t : json) :
  Permutation l l' ->
  0 < tally k t (conflicts l) -> 0 < tally k t (conflicts l').
Proof.
  intros P H. destruct k.
  - rewrite duplicate_ids_count in *.
    now rewrite <- (declarations_perm "id" t l l' P).
  - rewrite duplicate_aliases_count in *.
    now rewrite <- (declarations_perm "alias" t l l' P).
  - apply Nat.ltb_lt. apply Nat.ltb_lt in H.
    rewrite collision_reported in *.
    now rewrite <- !(existsb_perm _ l l' P).
Qed.

(** *** Two files *)

Ltac svz_facts :=
  repeat match goal with
  | H : same_value_zero ?a ?b = true |- _ =>
      tryif constr_eq a b then fail else
        (pose proof (same_value_zero_refl_r _ _ H);
         apply same_value_zero_eq in H; subst)
  end.

(** Runs the detector symbolically, splitting on every test it makes. *)
Ltac explore_detector :=
  repeat (simpl in *; svz_facts;
    match goal with
    | H : same_value_zero ?a ?a = true |- context [same_value_zero ?a ?a] =>
        rewrite H
    | H : ?x = _ |- context [match ?x with _ => _ end] => rewrite H
    | |- context [match get ?o ?k with _ => _ end] =>
        destruct (get o k) eqn:?
    | |- context [if truthy ?v then _ else _] => destruct (truthy v) eqn:?
    | |- context [if same_value_zero ?a ?b then _ else _] =>
        destruct (same_value_zero a b) eqn:?
    | |- context [same_value_zero ?a ?b] =>
        destruct (same_value_zero a b) eqn:?
    end).

(** Two files that declare the same token. *)
Lemma colliding_tokens (fA fB : string) (A B : object) (t : json) :
  fA <> fB ->
  (declares "id" t (fA, Parsed A) = true ->
   declares "id" t (fB, Parsed B) = true ->
   filter is_duplicate_id (conflicts [(fA, Parsed A); (fB, Parsed B)]) =
     [DuplicateId t fB fA] /\
   filter is_duplicate_id (conflicts [(fB, Parsed B); (fA, Parsed A)]) =
     [DuplicateId t fA fB]) /\
  (declares "id" t (fA, Parsed A) = true ->
   declares "alias" t (fB, Parsed B) = true ->
   List.length (filter (fun c => is_collision c && between fA fB c)
                  (conflicts [(fA, Parsed A); (fB, Parsed B)])) =
     (if id_is_alias_of (fB, Parsed B) (fA, Parsed A) then 2 else 1) /\
   List.length (filter (fun c => is_collision c && between fA fB c)
                  (conflicts [(fB, Parsed B); (fA, Parsed A)])) =
     (if id_is_alias_of (fB, Parsed B) (fA, Parsed A) then 2 else 1)).
Proof.
  intros Hne.
  assert (Hab : (fA =? fB)%string = false) by now apply String.eqb_neq.
  assert (Hba : (fB =? fA)%string = false)
    by (apply String.eqb_neq; congruence).
  split.
  - unfold declares, declared. simpl.
    destruct (get A "id") as [ia|] eqn:GA; [|discriminate].
    destruct (truthy ia) eqn:TA; [|discriminate].
    destruct (get B "id") as [ib|] eqn:GB; [|discriminate].
    destruct (truthy ib) eqn:TB; [|discriminate].
    intros EA EB. svz_facts.
    unfold conflicts, checkConflicts, scan, visit, check_id, check_alias.
    split; explore_detector; try congruence; reflexivity.
  - unfold declares, declared, id_is_alias_of, declared. simpl.
    destruct (get A "id") as [ia|] eqn:GA; [|discriminate].
    destruct (truthy ia) eqn:TA; [|discriminate].
    destruct (get B "alias") as [ib|] eqn:GB; [|discriminate].
    destruct (truthy ib) eqn:TB; [|discriminate].
    intros EA EB. svz_facts.
    unfold conflicts, checkConflicts, scan, visit, check_id, check_alias.
    unfold between.
    split; explore_detector; simpl; rewrite ?String.eqb_refl, ?Hab, ?Hba; simpl;
      svz_facts; try congruence; reflexivity.
Qed.

(** Two files of which the first has an id, and the second an id or
    an alias, that is not a token. *)
Lemma colliding_non_tokens (fA fB : string) (A B : object) (t : json) :
  fA <> fB ->
  is_token t = false ->
  get A "id" = Some t ->
  (get B "id" = Some t ->
   filter is_duplicate_id (conflicts [(fA, Parsed A); (fB, Parsed B)]) = [] /\
   filter is_duplicate_id (conflicts [(fB, Parsed B); (fA, Parsed A)]) = [])
  /\
  (get B "alias" = Some t ->
   List.length (filter (fun c => is_collision c && between fA fB c)
                  (conflicts [(fA, Parsed A); (fB, Parsed B)])) =
     bit (id_is_alias_of (fB, Parsed B) (fA, Parsed A)) /\
   List.length (filter (fun c => is_collision c && between fA fB c)
                  (conflicts [(fB, Parsed B); (fA, Parsed A)])) =
     bit (id_is_alias_of (fB, Parsed B) (fA, Parsed A))).
Proof.
  intros Hne Ht GA.
  assert (Hab : (fA =? fB)%string = false) by now apply String.eqb_neq.
  assert (Hba : (fB =? fA)%string = false)
    by (apply String.eqb_neq; congruence).
  unfold is_token in Ht.
  split; intros GB.
  - unfold conflicts, checkConflicts, scan, visit, check_id, check_alias.
    simpl. rewrite GA, GB.
    destruct (truthy t) eqn:T; simpl in Ht; rewrite ?Ht;
      split; explore_detector; try congruence; reflexivity.
  - unfold id_is_alias_of, declared.
    unfold conflicts, checkConflicts, scan, visit, check_id, check_alias.
    unfold between. simpl. rewrite GA, GB.
    destruct (truthy t) eqn:T; simpl in Ht; rewrite ?Ht;
      split; explore_detector; simpl;
      rewrite ?String.eqb_refl, ?Hab, ?Hba; simpl;
      svz_facts; try congruence; reflexivity.
Qed.

(** C6 (amended).  Take two files [fA] and [fB].  If both have the id
    [t] and [t] is a truthy primitive, the run prints exactly one
    duplicate-id line, naming the file processed second and then the
    one processed first, whichever order is taken; if [t] is falsy, or
    is an array or an object, it prints none.  If [fA] has the id [t]
    and [fB] the alias [t], the id-alias-collision lines that name
    both files are as many in either order: one when [t] is a truthy
    primitive, and one more when the id of [fB] is also the alias of
    [fA]. *)
Theorem two_colliding_files (fA fB : string) (A B : object) (t : json) :
  fA <> fB ->
  get A "id" = Some t ->
  (get B "id" = Some t ->
   filter is_duplicate_id (conflicts [(fA, Parsed A); (fB, Parsed B)]) =
     (if is_token t then [DuplicateId t fB fA] else []) /\
   filter is_duplicate_id (conflicts [(fB, Parsed B); (fA, Parsed A)]) =
     (if is_token t then [DuplicateId t fA fB] else [])) /\
  (get B "alias" = Some t ->
   List.length (filter (fun c => is_collision c && between fA fB c)
                  (conflicts [(fA, Parsed A); (fB, Parsed B)])) =
     bit (is_token t) + bit (id_is_alias_of (fB, Parsed B) (fA, Parsed A)) /\
   List.length (filter (fun c => is_collision c && between fA fB c)
                  (conflicts [(fB, Parsed B); (fA, Parsed A)])) =
     bit (is_token t) + bit (id_is_alias_of (fB, Parsed B) (fA, Parsed A))).
Proof.
  intros Hne GA.
  destruct (is_token t) eqn:Ht.
  - assert (DA : declares "id" t (fA, Parsed A) = true).
    { unfold declares, declared. simpl. rewrite GA.
      unfold is_token in Ht. apply andb_true_iff in Ht.
      destruct Ht as [-> ->]. reflexivity. }
    destruct (colliding_tokens fA fB A B t Hne) as [H1 H2].
    split; intros GB.
    + apply H1; [exact DA|].
      unfold declares, declared. simpl. rewrite GB.
      unfold is_token in Ht. apply andb_true_iff in Ht.
      destruct Ht as [-> ->]. reflexivity.
    + assert (DB : declares "alias" t (fB, Parsed B) = true).
      { unfold declares, declared. simpl. rewrite GB.
        unfold is_token in Ht. apply andb_true_iff in Ht.
        destruct Ht as [-> ->]. reflexivity. }
      destruct (H2 DA DB) as [E1 E2]. rewrite E1, E2.
      destruct (id_is_alias_of _ _); split; reflexivity.
  - exact (colliding_non_tokens fA fB A B t Hne Ht GA).
Qed.

Lemma two_colliding_files_witness :
  filter is_duplicate_id (conflicts [Samples.id_a; Samples.id_alias_a]) =
    [DuplicateId (JStr "a") "servers/d.json" "servers/a.json"] /\
  List.length
    (filter (fun c => is_collision c
                      && between "servers/a.json" "servers/d.json" c)
       (conflicts [Samples.id_alias_a; Samples.id_a])) = 1.
Proof.
  destruct (two_colliding_files "servers/a.json" "servers/d.json"
              (Samples.strings [("id", "a")])
              (Samples.strings [("id", "a"); ("alias", "a")])
              (JStr "a")) as [H1 H2]; [discriminate|reflexivity|].
  split.
  - apply H1; reflexivity.
  - apply H2; reflexivity.
Defined.

(** C6, as stated, fails: two files that declare as id the alias of
    each other collide, and the run prints two id-alias-collision
    lines naming both files, in either order; and two files that both
    have the empty id get no line at all. *)
Lemma mutual_aliases_reported_twice :
  declares "id" (JStr "x") Samples.x_alias_y = true /\
  declares "alias" (JStr "x") Samples.y_alias_x = true /\
  conflicts [Samples.empty_id1; Samples.empty_id2] = [] /\
  conflicts [Samples.x_alias_y; Samples.y_alias_x] =
    [IdCollidesAlias (JStr "y") "servers/y.json" "servers/x.json";
     AliasCollidesId (JStr "x") "servers/y.json" "servers/x.json"] /\
  conflicts [Samples.y_alias_x; Samples.x_alias_y] =
    [IdCollidesAlias (JStr "x") "servers/x.json" "servers/y.json";
     AliasCollidesId (JStr "y") "servers/x.json" "servers/y.json"] /\
  List.length
    (filter (fun c => is_collision c
                      && between "servers/x.json" "servers/y.json" c)
       (conflicts [Samples.x_alias_y; Samples.y_alias_x])) <> 1.
Proof. repeat split; vm_compute; discriminate. Qed.

(** *** Falsy ids and aliases *)

(** C10.  A record whose id is absent or falsy passes the id checks
    untouched: the state after them is the state before, so nothing
    enters the identifier mapping and no line is printed; likewise for
    a falsy or absent alias and the alias checks; a record with
    neither leaves the whole state as it was.  Two records with the
    empty id give no conflict. *)
Theorem falsy_tokens_skipped (relative : string) (data : object)
  (st : detector) :
  (truthy_opt (get data "id") = false ->
   check_id relative data st = st /\
   visit st (relative, Parsed data) = check_alias relative data st /\
   ids (visit st (relative, Parsed data)) = ids st) /\
  (truthy_opt (get data "alias") = false ->
   check_alias relative data st = st /\
   visit st (relative, Parsed data) = check_id relative data st /\
   aliases (visit st (relative, Parsed data)) = aliases st) /\
  (truthy_opt (get data "id") = false ->
   truthy_opt (get data "alias") = false ->
   visit st (relative, Parsed data) = st) /\
  checkConflicts [Samples.empty_id1; Samples.empty_id2] = ([], false).
Proof.
  assert (Hid : truthy_opt (get data "id") = false ->
                forall s, check_id relative data s = s).
  { intros H s. unfold check_id.
    destruct (get data "id") as [id|]; [|reflexivity].
    simpl in H. now rewrite H. }
  assert (Hal : truthy_opt (get data "alias") = false ->
                forall s, check_alias relative data s = s).
  { intros H s. unfold check_alias.
    destruct (get data "alias") as [al|]; [|reflexivity].
    simpl in H. now rewrite H. }
  repeat split.
  - now apply Hid.
  - unfold visit. simpl. now rewrite Hid.
  - unfold visit. simpl. now rewrite check_alias_ids, Hid.
  - now apply Hal.
  - unfold visit. simpl. now rewrite Hal.
  - unfold visit. simpl. now rewrite Hal, check_id_aliases.
  - intros H1 H2. unfold visit. simpl. now rewrite Hal, Hid.
Qed.

Lemma falsy_tokens_skipped_witness :
  visit start Samples.empty_id1 = start.
Proof.
  apply (falsy_tokens_skipped "servers/e1.json"
           (Samples.strings [("id", "")]) start); reflexivity.
Defined.

(** *** Tokens declared at most twice *)

Lemma map_get_set_other (m : jsmap) (k : json) (v : string) (t : json) :
  same_value_zero k t = false -> map_get (map_set m k v) t = map_get m t.
Proof.
  intros Hk. induction m as [|[k' v'] m IH]; simpl.
  - now rewrite Hk.
  - destruct (same_value_zero k' k) eqn:E; simpl.
    + apply same_value_zero_eq in E. subst k'. now rewrite Hk.
    + now rewrite IH.
Qed.

Lemma map_get_set_new (m : jsmap) (t : json) (v : string) :
  map_get m t = None -> same_value_zero t t = true ->
  map_get (map_set m t v) t = Some v.
Proof.
  intros Hn Ht. induction m as [|[k' v'] m IH]; simpl in *.
  - now rewrite Ht.
  - destruct (same_value_zero k' t) eqn:E; [discriminate|].
    simpl. rewrite E. now apply IH.
Qed.

Lemma filter_app_one {A : Type} (p : A -> bool) (l : list A) (c : A) :
  filter p (l ++ [c]) = filter p l ++ (if p c then [c] else []).
Proof. rewrite filter_app. simpl. now destruct (p c). Qed.

(** *** Locality: a token is affected only by the files declaring it *)

Lemma agree_refl (t : json) (st : detector) : agree t st st.
Proof. now repeat split. Qed.

Lemma agree_sym (t : json) (a b : detector) : agree t a b -> agree t b a.
Proof. intros [H1 [H2 H3]]. repeat split; congruence. Qed.

Lemma agree_trans (t : json) (a b c : detector) :
  agree t a b -> agree t b c -> agree t a c.
Proof. intros [H1 [H2 H3]] [H4 [H5 H6]]. repeat split; congruence. Qed.

Lemma check_id_agree (t : json) (relative : string) (data : object)
  (st1 st2 : detector) :
  agree t st1 st2 ->
  agree t (check_id relative data st1)
    (if declares "id" t (relative, Parsed data)
     then check_id relative data st2 else st2).
Proof.
  intros [Hi [Ha Hr]]. unfold declares, declared, check_id. simpl.
  destruct (get data "id") as [id|]; [|now split].
  destruct (truthy id); [|now split].
  destruct (same_value_zero id t) eqn:E.
  - pose proof (same_value_zero_refl_r _ _ E) as R.
    apply same_value_zero_eq in E. subst id.
    rewrite <- Hi.
    destruct (map_get (ids st1) t) as [first|] eqn:G1; simpl;
      rewrite <- ?Ha;
      destruct (map_get (aliases st1) t) as [other|] eqn:G2; simpl;
      unfold agree; simpl; rewrite ?filter_app_one, ?Hr;
      rewrite ?map_get_set_new by (auto; congruence);
      repeat split; congruence.
  - destruct (map_get (ids st1) id) as [first|] eqn:G1; simpl;
      destruct (map_get (aliases st1) id) as [other|] eqn:G2; simpl;
      unfold agree; simpl; rewrite ?filter_app_one; unfold about_token; simpl;
      rewrite ?E, ?app_nil_r, ?map_get_set_other by assumption;
      repeat split; try congruence; exact Hr.
Qed.

Lemma check_alias_agree (t : json) (relative : string) (data : object)
  (st1 st2 : detector) :
  agree t st1 st2 ->
  agree t (check_alias relative data st1)
    (if declares "alias" t (relative, Parsed data)
     then check_alias relative data st2 else st2).
Proof.
  intros [Hi [Ha Hr]]. unfold declares, declared, check_alias. simpl.
  destruct (get data "alias") as [al|]; [|now split].
  destruct (truthy al); [|now split].
  destruct (same_value_zero al t) eqn:E.
  - pose proof (same_value_zero_refl_r _ _ E) as R.
    apply same_value_zero_eq in E. subst al.
    rewrite <- Ha.
    destruct (map_get (aliases st1) t) as [first|] eqn:G1; simpl;
      rewrite <- ?Hi;
      destruct (map_get (ids st1) t) as [other|] eqn:G2; simpl;
      unfold agree; simpl; rewrite ?filter_app_one, ?Hr;
      rewrite ?map_get_set_new by (auto; congruence);
      repeat split; congruence.
  - destruct (map_get (aliases st1) al) as [first|] eqn:G1; simpl;
      destruct (map_get (ids st1) al) as [other|] eqn:G2; simpl;
      unfold agree; simpl; rewrite ?filter_app_one; unfold about_token; simpl;
      rewrite ?E, ?app_nil_r, ?map_get_set_other by assumption;
      repeat split; try congruence; exact Hr.
Qed.

(** A file that does not mention [t] changes nothing about [t]. *)
Lemma visit_agree (t : json) (f : file) (st1 st2 : detector) :
  agree t st1 st2 ->
  agree t (visit st1 f) (if mentions t f then visit st2 f else st2).
Proof.
  intros H. destruct f as [relative [data|message]]; unfold visit, mentions;
    simpl; [|unfold declares; simpl; exact H].
  pose proof (check_id_agree t relative data st1 st2 H) as H1.
  pose proof (check_alias_agree t relative data _ _ H1) as H2.
  pose proof (check_id_agree t relative data st2 st2 (agree_refl t st2)) as R1.
  pose proof (check_alias_agree t relative data _ _
                (agree_refl t (check_id relative data st2))) as R2.
  pose proof (check_alias_agree t relative data _ _ (agree_sym _ _ _ R1))
    as R3.
  destruct (declares "id" t (relative, Parsed data)),
    (declares "alias" t (relative, Parsed data)); simpl.
  - exact H2.
  - eapply agree_trans; [exact H2|]. now apply agree_sym.
  - eapply agree_trans; [exact H2|]. exact R3.
  - exact H2.
Qed.

Lemma scan_agree (t : json) (l : list file) (st1 st2 : detector) :
  agree t st1 st2 ->
  agree t (scan st1 l) (scan st2 (filter (mentions t) l)).
Proof.
  revert st1 st2. induction l as [|f l IH]; intros st1 st2 H; [exact H|].
  rewrite scan_cons. simpl filter.
  pose proof (visit_agree t f st1 st2 H) as Hv.
  destruct (mentions t f); [rewrite scan_cons|]; now apply IH.
Qed.

(** The conflicts about a token are those of the run over the files
    that declare it. *)
Lemma conflicts_local (t : json) (l : list file) :
  filter (about_token t) (conflicts l) =
  filter (about_token t) (conflicts (filter (mentions t) l)).
Proof.
  rewrite !conflicts_scan.
  apply (scan_agree t l start start (agree_refl t start)).
Qed.

Lemma Permutation_filter {A : Type} (p : A -> bool) (l l' : list A) :
  Permutation l l' -> Permutation (filter p l) (filter p l').
Proof.
  induction 1 as [|x l l' _ IH|x y l|l l' l'' _ IH1 _ IH2]; simpl.
  - constructor.
  - destruct (p x); [now constructor|exact IH].
  - destruct (p x), (p y); try apply Permutation_refl. apply perm_swap.
  - eapply perm_trans; eauto.
Qed.

Lemma uses_cons (t : json) (f : file) (l : list file) :
  uses t (f :: l) =
  bit (declares "id" t f) + bit (declares "alias" t f) + uses t l.
Proof. unfold uses. rewrite !declarations_cons. lia. Qed.

Lemma uses_perm (t : json) (l l' : list file) :
  Permutation l l' -> uses t l = uses t l'.
Proof.
  intros P. unfold uses.
  now rewrite (declarations_perm "id" t l l' P),
    (declarations_perm "alias" t l l' P).
Qed.

Lemma uses_filter (t : json) (l : list file) :
  uses t (filter (mentions t) l) = uses t l /\
  List.length (filter (mentions t) l) <= uses t l.
Proof.
  induction l as [|f l [IH1 IH2]]; [split; reflexivity|].
  unfold mentions in *. cbn [filter]. rewrite uses_cons.
  destruct (declares "id" t f) eqn:D1, (declares "alias" t f) eqn:D2;
    cbn [orb bit List.length]; rewrite ?uses_cons, ?D1, ?D2;
    cbn [bit]; split; lia.
Qed.

Lemma tally_between_local (k : conflict_kind) (t : json) (f g : string)
  (l : list file) :
  tally_between k t f g (conflicts l) =
  tally_between k t f g (conflicts (filter (mentions t) l)).
Proof.
  unfold tally_between.
  assert (E : forall cs,
    filter (fun c => about k t c && between f g c) cs =
    filter (fun c => kind_eqb (kind_of c) k && between f g c)
      (filter (about_token t) cs)).
  { intros cs. rewrite filter_twice. apply filter_ext.
    intros c. unfold about, about_token.
    destruct (kind_eqb (kind_of c) k), (same_value_zero (token_of c) t);
      reflexivity. }
  now rewrite !E, conflicts_local.
Qed.

Ltac split_field o k t :=
  let v := fresh "v" in
  destruct (get o k) as [v|] eqn:?;
  [ destruct (truthy v) eqn:?;
    [ destruct (same_value_zero v t) eqn:? | ] | ].

Ltac detector_step :=
  match goal with
  | H : get ?o ?k = _ |- context [get ?o ?k] => rewrite H
  | H : truthy ?v = _ |- context [truthy ?v] => rewrite H
  | H : same_value_zero ?a ?b = _ |- context [same_value_zero ?a ?b] =>
      rewrite H
  | |- context [if same_value_zero ?a ?b then _ else _] =>
      destruct (same_value_zero a b) eqn:?; svz_facts; try congruence
  end.

Ltac run_detector := repeat (simpl; detector_step); simpl.

(** Two files that declare [t] once each. *)
Lemma swap_two (t : json) (a b : file) :
  mentions t a = true -> mentions t b = true -> uses t [a; b] <= 2 ->
  (forall k f g,
     tally_between k t f g (conflicts [a; b]) =
     tally_between k t f g (conflicts [b; a])) /\
  List.length (filter (about_token t) (conflicts [a; b])) = 1.
Proof.
  destruct a as [fa [A|ma]], b as [fb [B|mb]]; try discriminate.
  unfold mentions, uses, declarations, declares, declared,
    tally_between, conflicts, checkConflicts, scan, visit,
    check_id, check_alias.
  simpl.
  split_field A "id" t; split_field A "alias" t;
    simpl; intros M1; try discriminate; clear M1;
    split_field B "id" t; split_field B "alias" t;
    simpl; intros M2 U; try discriminate; try lia; clear M2 U.
  all: svz_facts.
  all: split; [intros k f g|]; run_detector.
  all: unfold about, about_token, between; simpl;
       repeat match goal with
       | H : same_value_zero ?a ?b = _
         |- context [same_value_zero ?a ?b] => rewrite H
       end; simpl; try reflexivity.
  all: destruct k; simpl; try reflexivity.
  all: repeat match goal with
       | |- context [(?x =? ?y)%string] => destruct (x =? y)%string
       end; reflexivity.
Qed.

(** One file that declares [t]. *)
Lemma alone (t : json) (a : file) :
  mentions t a = true ->
  List.length (filter (about_token t) (conflicts [a])) = uses t [a] - 1.
Proof.
  destruct a as [fa [A|ma]]; try discriminate.
  unfold mentions, uses, declarations, declares, declared,
    conflicts, checkConflicts, scan, visit, check_id, check_alias.
  simpl.
  split_field A "id" t; split_field A "alias" t;
    simpl; intros M1; try discriminate; clear M1.
  all: svz_facts.
  all: run_detector.
  all: unfold about_token; simpl;
       repeat match goal with
       | H : same_value_zero ?a ?b = _
         |- context [same_value_zero ?a ?b] => rewrite H
       end; reflexivity.
Qed.

(** A token declared at most twice gives one conflict when it is
    declared twice and none otherwise. *)
Lemma conflicts_of_pair (t : json) (l : list file) :
  uses t l <= 2 ->
  List.length (filter (about_token t) (conflicts l)) = uses t l - 1.
Proof.
  intros U. rewrite conflicts_local.
  destruct (uses_filter t l) as [E L]. rewrite <- E in *.
  assert (M : forall f, In f (filter (mentions t) l) -> mentions t f = true)
    by (intros f Hf; now apply filter_In in Hf).
  destruct (filter (mentions t) l) as [|a [|b [|c m]]].
  - reflexivity.
  - apply alone. apply M. now left.
  - assert (Ma : mentions t a = true) by (apply M; simpl; auto).
    assert (Mb : mentions t b = true) by (apply M; simpl; auto).
    destruct (swap_two t a b Ma Mb U) as [_ H]. rewrite H.
    rewrite !uses_cons in *. unfold mentions in Ma, Mb.
    destruct (declares "id" t a), (declares "alias" t a),
      (declares "id" t b), (declares "alias" t b);
      simpl in *; try discriminate; lia.
  - simpl in L. lia.
Qed.

Lemma conflicts_of_pair_perm (t : json) (l l' : list file) :
  Permutation l l' -> uses t l <= 2 ->
  forall k f g,
    tally_between k t f g (conflicts l) =
    tally_between k t f g (conflicts l').
Proof.
  intros P U k f g.
  rewrite (tally_between_local k t f g l), (tally_between_local k t f g l').
  pose proof (Permutation_filter (mentions t) l l' P) as Pm.
  destruct (uses_filter t l) as [E L]. rewrite <- E in U.
  assert (M : forall x, In x (filter (mentions t) l) -> mentions t x = true)
    by (intros x Hx; now apply filter_In in Hx).
  destruct (filter (mentions t) l) as [|a [|b [|c m]]].
  - apply Permutation_nil in Pm. now rewrite Pm.
  - apply Permutation_length_1_inv in Pm. now rewrite Pm.
  - assert (Ma : mentions t a = true) by (apply M; simpl; auto).
    assert (Mb : mentions t b = true) by (apply M; simpl; auto).
    apply Permutation_length_2_inv in Pm. destruct Pm as [-> | ->].
    + reflexivity.
    + now apply swap_two.
  - simpl in L. lia.
Qed.

(** *** Order of the files *)

Lemma declares_token (field : string) (t : json) (f : file) :
  declares field t f = true -> is_token t = true.
Proof.
  unfold declares, declared, is_token.
  destruct (snd f) as [data|]; [|discriminate].
  destruct (get data field) as [v|]; [|discriminate].
  destruct (truthy v) eqn:T; [|discriminate].
  intros H. pose proof (same_value_zero_refl_r _ _ H) as R.
  apply same_value_zero_eq in H. subst v. now rewrite T, R.
Qed.

Lemma non_token_unused (t : json) (l : list file) :
  is_token t = false -> uses t l = 0.
Proof.
  intros Ht. unfold uses, declarations.
  assert (N : forall field, filter (declares field t) l = []).
  { intros field. apply filter_nothing. intros f _.
    destruct (declares field t f) eqn:D; [|reflexivity].
    apply declares_token in D. congruence. }
  now rewrite !N.
Qed.

(** C1 (amended).  A token is a truthy primitive: a non-empty string,
    a non-zero number or [true]; a file declares it when its id, or
    its alias, is that value.  Processing the files in another order
    leaves unchanged: the value [checkConflicts] returns; for every
    token, the number of duplicate-id lines and the number of
    duplicate-alias lines; and, for every token, whether an id-alias
    collision is printed at all.  For a token declared at most twice
    in all, as an id or as an alias, more is true: the run prints one
    conflict about it when it is declared twice and none otherwise,
    and the conflicts about it are the same in both orders, by kind
    and by the two files they name, whichever of the two is named
    first.  A value that is falsy, or is an array or an object, is
    declared by no file, however many have it as id or alias, and no
    conflict is about it. *)
Theorem conflicts_up_to_order (l l' : list file) :
  Permutation l l' ->
  snd (checkConflicts l) = snd (checkConflicts l') /\
  (forall t, tally KDuplicateId t (conflicts l) =
             tally KDuplicateId t (conflicts l')) /\
  (forall t, tally KDuplicateAlias t (conflicts l) =
             tally KDuplicateAlias t (conflicts l')) /\
  (forall t, 0 < tally KIdAliasCollision t (conflicts l) <->
             0 < tally KIdAliasCollision t (conflicts l')) /\
  (forall t, uses t l <= 2 ->
     List.length (filter (about_token t) (conflicts l)) = uses t l - 1 /\
     List.length (filter (about_token t) (conflicts l')) = uses t l - 1 /\
     forall k f g,
       tally_between k t f g (conflicts l) =
       tally_between k t f g (conflicts l')) /\
  (forall t, is_token t = false ->
     uses t l = 0 /\
     filter (about_token t) (conflicts l) = [] /\
     filter (about_token t) (conflicts l') = []).
Proof.
  intros P. split; [|split; [|split; [|split; [|split]]]].
  - destruct (snd (checkConflicts l)) eqn:E, (snd (checkConflicts l')) eqn:E';
      try reflexivity.
    + apply verdict_tally in E. destruct E as [k [t H]].
      apply (tally_positive_perm l l' k t P) in H.
      assert (E2 : snd (checkConflicts l') = true)
        by (apply verdict_tally; eauto).
      congruence.
    + apply verdict_tally in E'. destruct E' as [k [t H]].
      apply (tally_positive_perm l' l k t (Permutation_sym P)) in H.
      assert (E2 : snd (checkConflicts l) = true)
        by (apply verdict_tally; eauto).
      congruence.
  - intros t.
    now rewrite !duplicate_ids_count, (declarations_perm "id" t l l' P).
  - intros t.
    now rewrite !duplicate_aliases_count,
      (declarations_perm "alias" t l l' P).
  - intros t. split.
    + now apply tally_positive_perm.
    + apply tally_positive_perm. now apply Permutation_sym.
  - intros t U. split; [|split].
    + now apply conflicts_of_pair.
    + rewrite (uses_perm t l l' P) in *. now apply conflicts_of_pair.
    + now apply conflicts_of_pair_perm.
  - intros t Ht.
    pose proof (non_token_unused t l Ht) as U.
    pose proof (non_token_unused t l' Ht) as U'.
    split; [exact U|].
    split; apply length_zero_iff_nil.
    + rewrite conflicts_of_pair; lia.
    + rewrite conflicts_of_pair; lia.
Qed.

Lemma conflicts_up_to_order_witness :
  snd (checkConflicts [Samples.id_a; Samples.alias_a1; Samples.alias_a2]) =
  snd (checkConflicts [Samples.alias_a1; Samples.alias_a2; Samples.id_a]).
Proof.
  apply (conflicts_up_to_order
           [Samples.id_a; Samples.alias_a1; Samples.alias_a2]
           [Samples.alias_a1; Samples.alias_a2; Samples.id_a]).
  apply (Permutation_cons_append [Samples.alias_a1; Samples.alias_a2]).
Defined.

(** C1, as stated, fails: with one file declaring the id [a] and two
    declaring the alias [a], one order prints three conflicts and
    another prints two, and the collision between the first and the
    third file is reported in one order only. *)
Lemma conflicts_depend_on_order :
  Permutation [Samples.id_a; Samples.alias_a1; Samples.alias_a2]
              [Samples.alias_a1; Samples.alias_a2; Samples.id_a] /\
  conflicts [Samples.id_a; Samples.alias_a1; Samples.alias_a2] =
    [AliasCollidesId (JStr "a") "servers/b.json" "servers/a.json";
     DuplicateAlias (JStr "a") "servers/c.json" "servers/b.json";
     AliasCollidesId (JStr "a") "servers/c.json" "servers/a.json"] /\
  conflicts [Samples.alias_a1; Samples.alias_a2; Samples.id_a] =
    [DuplicateAlias (JStr "a") "servers/c.json" "servers/b.json";
     IdCollidesAlias (JStr "a") "servers/a.json" "servers/b.json"] /\
  ~ (forall c,
       In c (conflicts [Samples.id_a; Samples.alias_a1; Samples.alias_a2]) ->
       exists d,
         In d (conflicts [Samples.alias_a1; Samples.alias_a2; Samples.id_a])
         /\ same_collision c d).
Proof.
  split; [apply (Permutation_cons_append [Samples.alias_a1; Samples.alias_a2])|].
  split; [reflexivity|]. split; [reflexivity|].
  intros H.
  destruct (H (AliasCollidesId (JStr "a") "servers/c.json" "servers/a.json"))
    as [d [Hin [_ [_ Hfiles]]]].
  { simpl. auto. }
  simpl in Hin.
  destruct Hin as [<-|[<-|[]]]; simpl in Hfiles;
    destruct Hfiles as [Hf|Hf]; discriminate Hf.
Qed.

End DetectorFacts.

(** ** The platform-field sanitizer *)

Module SanitizerFacts.

Import JsonFacts.

(** Reading a key of an object filtered on its keys. *)
Lemma get_filter_keys (p : string -> bool) (o : object) (k : string) :
  get (filter (fun kv => p (fst kv)) o) k = if p k then get o k else None.
Proof.
  induction o as [|[k' v] o IH]; simpl.
  - now destruct (p k).
  - destruct (k' =? k)%string eqn:E.
    + apply String.eqb_eq in E. subst k'.
      destruct (p k) eqn:Pk; simpl.
      * now rewrite String.eqb_refl.
      * first [exact IH | now rewrite IH, Pk].
    + destruct (p k'); simpl; [rewrite E|]; exact IH.
Qed.

Lemma get_none_keys (o : object) (k : string) :
  get o k = None -> forall kv, In kv o -> (fst kv =? k)%string = false.
Proof.
  induction o as [|[k' v] o IH]; simpl; intros G kv Hin; [contradiction|].
  destruct (k' =? k)%string eqn:E; [discriminate|].
  destruct Hin as [<-|Hin]; [exact E|now apply IH].
Qed.

Lemma get_some_key (o : object) (k : string) (v : json) :
  get o k = Some v -> In k (keys o).
Proof.
  induction o as [|[k' v'] o IH]; simpl; [discriminate|].
  destruct (k' =? k)%string eqn:E.
  - apply String.eqb_eq in E. now left.
  - intros G. right. now apply IH.
Qed.

Lemma has_key_in (o : object) (k : string) :
  has_key o k = true <-> In k (keys o).
Proof.
  unfold has_key. split.
  - destruct (get o k) eqn:G; [|discriminate].
    intros _. eapply get_some_key; eauto.
  - intros Hin. destruct (get o k) eqn:G; [reflexivity|].
    apply in_map_iff in Hin. destruct Hin as [kv [<- Hin]].
    pose proof (get_none_keys _ _ G kv Hin) as E.
    now rewrite String.eqb_refl in E.
Qed.

Lemma has_key_delete (o : object) (f k : string) :
  k <> f -> has_key (delete f o) k = has_key o k.
Proof.
  intros Hne. unfold has_key, delete.
  rewrite (get_filter_keys (fun k' => negb (k' =? f)%string)).
  apply String.eqb_neq in Hne. now rewrite Hne.
Qed.

Lemma existsb_eqb_in (k : string) (l : list string) :
  existsb (String.eqb k) l = true <-> In k l.
Proof.
  rewrite existsb_exists. split.
  - intros [x [Hin E]]. apply String.eqb_eq in E. now subst.
  - intros Hin. exists k. split; [assumption|apply String.eqb_refl].
Qed.

(** No platform-managed field name carries the reserved prefix. *)
Lemma platform_fields_not_prefixed (k : string) :
  existsb (String.eqb k) PLATFORM_FIELDS = true -> platform_prefixed k = false.
Proof.
  intros H. apply existsb_eqb_in in H. simpl in H.
  destruct H as [<-|[<-|[<-|[<-|[]]]]]; reflexivity.
Qed.

Section Sanitizer.

Variable basename : string -> string.
Variable filePath : string.

Let warn (k : string) : string := warning basename k filePath.

(** The first loop, over any list of distinct field names. *)
Lemma strip_fields_fold (fs : list string) :
  NoDup fs ->
  forall (d : object) (ws : list string),
  fold_left (strip_field basename filePath) fs (d, ws) =
  (filter (fun kv => negb (existsb (String.eqb (fst kv)) fs)) d,
   ws ++ map warn (filter (has_key d) fs)).
Proof.
  induction 1 as [|f fs Hnotin ND IH]; intros d ws; simpl.
  - rewrite app_nil_r. f_equal. symmetry. now apply filter_all.
  - unfold strip_field at 2. simpl.
    destruct (has_key d f) eqn:G; rewrite IH.
    + f_equal.
      * unfold delete. rewrite filter_twice. apply filter_ext.
        intros [k v]. simpl. now rewrite negb_orb.
      * rewrite <- app_assoc. simpl. do 3 f_equal.
        apply filter_ext_in. intros g Hg. apply has_key_delete.
        intros ->. contradiction.
    + f_equal. apply filter_ext_in. intros kv Hin.
      unfold has_key in G. destruct (get d f) eqn:G'; [discriminate|].
      now rewrite (get_none_keys _ _ G' kv Hin).
Qed.

(** The second loop, over any list of keys. *)
Lemma strip_keys_fold (ks : list string) (d : object) (ws : list string) :
  fold_left (strip_key basename filePath) ks (d, ws) =
  (filter (fun kv => negb (existsb (String.eqb (fst kv))
                             (filter platform_prefixed ks))) d,
   ws ++ map warn (filter platform_prefixed ks)).
Proof.
  revert d ws. induction ks as [|k ks IH]; intros d ws; simpl.
  - rewrite app_nil_r. f_equal. symmetry. now apply filter_all.
  - unfold strip_key at 2. simpl.
    destruct (platform_prefixed k) eqn:P; rewrite IH; [|reflexivity].
    f_equal.
    + unfold delete. rewrite filter_twice. apply filter_ext.
      intros [k' v]. simpl. now rewrite negb_orb.
    + rewrite <- app_assoc. reflexivity.
Qed.

(** What [stripPlatformFields] leaves and what it returns. *)
Lemma stripPlatformFields_spec (data : object) :
  stripPlatformFields basename data filePath =
  (filter (fun kv => negb (reserved (fst kv))) data,
   map warn (filter (has_key data) PLATFORM_FIELDS
             ++ filter platform_prefixed (keys data))).
Proof.
  unfold stripPlatformFields.
  rewrite strip_fields_fold
    by (repeat constructor; simpl; intuition discriminate).
  cbn [fst snd app]. rewrite strip_keys_fold.
  set (d1 := filter _ data).
  assert (K : filter platform_prefixed (keys d1) =
              filter platform_prefixed (keys data)).
  { unfold d1, keys. clear d1.
    induction data as [|[k v] o IH]; [reflexivity|].
    cbn [filter map fst].
    destruct (existsb (String.eqb k) PLATFORM_FIELDS) eqn:E;
      cbn [negb filter map fst].
    - rewrite (platform_fields_not_prefixed _ E). exact IH.
    - destruct (platform_prefixed k); now rewrite IH. }
  rewrite K, map_app. f_equal.
  unfold d1. rewrite filter_twice. apply filter_ext_in.
  intros [k v] Hin. unfold reserved. cbn [fst]. rewrite negb_orb.
  f_equal. f_equal.
  destruct (platform_prefixed k) eqn:P.
  - apply existsb_eqb_in. apply filter_In. split; [|exact P].
    apply in_map_iff. now exists (k, v).
  - destruct (existsb _ _) eqn:E; [|reflexivity].
    apply existsb_eqb_in, filter_In in E. destruct E as [_ E]. congruence.
Qed.

(** With distinct keys, the fields named in the warnings are the
    reserved keys of the record, each once. *)
Lemma removed_fields (data : object) :
  wf_object data ->
  NoDup (filter (has_key data) PLATFORM_FIELDS
         ++ filter platform_prefixed (keys data)) /\
  Permutation (filter (has_key data) PLATFORM_FIELDS
               ++ filter platform_prefixed (keys data))
              (filter reserved (keys data)).
Proof.
  intros WF.
  assert (ND : NoDup (filter (has_key data) PLATFORM_FIELDS
                      ++ filter platform_prefixed (keys data))).
  { apply NoDup_app.
    - apply NoDup_filter. repeat constructor; simpl; intuition discriminate.
    - now apply NoDup_filter.
    - intros k H1 H2.
      apply filter_In in H1. destruct H1 as [H1 _].
      apply filter_In in H2. destruct H2 as [_ H2].
      apply existsb_eqb_in in H1.
      rewrite (platform_fields_not_prefixed _ H1) in H2. discriminate. }
  split; [exact ND|].
  apply NoDup_Permutation; [exact ND|now apply NoDup_filter|].
  intros k. rewrite in_app_iff, !filter_In. unfold reserved.
  rewrite orb_true_iff, has_key_in, existsb_eqb_in. tauto.
Qed.

Lemma list_ascii_app (a b : string) :
  list_ascii_of_string (a ++ b) =
  list_ascii_of_string a ++ list_ascii_of_string b.
Proof. induction a as [|c a IH]; simpl; [reflexivity|now rewrite IH]. Qed.

Lemma append_inv_tail (a b tail : string) :
  (a ++ tail)%string = (b ++ tail)%string -> a = b.
Proof.
  intros H. apply (f_equal list_ascii_of_string) in H.
  rewrite !list_ascii_app in H. apply app_inv_tail in H.
  apply (f_equal string_of_list_ascii) in H.
  now rewrite !string_of_list_ascii_of_string in H.
Qed.

(** A warning names its field: the field can be read off it. *)
Lemma warning_names_field (k k' : string) :
  warning basename k filePath = warning basename k' filePath -> k = k'.
Proof.
  unfold warning, dquote. cbn [append]. intros H.
  repeat match type of H with
         | String _ _ = String _ _ => injection H as H
         end.
  exact (append_inv_tail _ _ _ H).
Qed.

(** C4.  Sanitizing a record with distinct keys leaves exactly its
    fields that are neither [badges], [stats], [sponsored] or
    [featured] nor prefixed by [_platform], unchanged and in their
    order; the warnings returned are one per removed field, each
    naming its field between double quotes, and the file: warnings of
    different fields differ; and a record without such fields is
    returned as it is, with no warning. *)
Theorem sanitizer_strips_reserved (data : object) :
  wf_object data ->
  let cleaned := fst (stripPlatformFields basename data filePath) in
  let warnings := snd (stripPlatformFields basename data filePath) in
  let quote := String "034"%char "" in
  (forall k, reserved k = true <->
     In k ["badges"; "stats"; "sponsored"; "featured"] \/
     prefix "_platform" k = true) /\
  warnings =
    map (fun k =>
           ("  WARNING: " ++ quote ++ k ++ quote ++
            " is a platform-managed field and will be stripped from " ++
            basename filePath)%string)
      (filter (has_key data) ["badges"; "stats"; "sponsored"; "featured"]
       ++ filter (prefix "_platform") (keys data)) /\
  (forall k k', warning basename k filePath = warning basename k' filePath ->
                k = k') /\
  cleaned = filter (fun kv => negb (reserved (fst kv))) data /\
  (forall k, reserved k = true -> get cleaned k = None) /\
  (forall k, reserved k = false -> get cleaned k = get data k) /\
  warnings =
    map (fun k => warning basename k filePath)
      (filter (has_key data) PLATFORM_FIELDS
       ++ filter platform_prefixed (keys data)) /\
  (exists removed,
     Permutation removed (filter reserved (keys data)) /\
     NoDup removed /\
     warnings = map (fun k => warning basename k filePath) removed) /\
  List.length warnings + List.length cleaned = List.length data /\
  ((forall k, In k (keys data) -> reserved k = false) ->
   cleaned = data /\ warnings = []).
Proof.
  intros WF cleaned warnings quote. subst cleaned warnings quote.
  rewrite stripPlatformFields_spec. cbn [fst snd].
  destruct (removed_fields data WF) as [ND Perm].
  split.
  { intros k. unfold reserved, platform_prefixed.
    rewrite orb_true_iff, existsb_eqb_in. reflexivity. }
  split; [reflexivity|].
  split; [exact warning_names_field|].
  split; [reflexivity|].
  split; [|split; [|split; [|split; [|split]]]].
  - intros k R.
    rewrite (get_filter_keys (fun k => negb (reserved k))). now rewrite R.
  - intros k R.
    rewrite (get_filter_keys (fun k => negb (reserved k))). now rewrite R.
  - reflexivity.
  - eexists. split; [exact Perm|]. split; [exact ND|reflexivity].
  - rewrite length_map, (Permutation_length Perm).
    rewrite <- (filter_length (fun kv => reserved (fst kv)) data).
    f_equal. unfold keys. clear.
    induction data as [|[k v] o IH]; [reflexivity|].
    cbn [map filter fst]. destruct (reserved k); cbn [List.length]; now rewrite IH.
  - intros Hnone. split.
    + apply filter_all. intros [k v] Hin. cbn [fst].
      rewrite Hnone; [reflexivity|]. apply in_map_iff. now exists (k, v).
    + rewrite (filter_nothing (has_key data)), (filter_nothing platform_prefixed).
      * reflexivity.
      * intros k Hin. specialize (Hnone k Hin). unfold reserved in Hnone.
        now apply orb_false_iff in Hnone.
      * intros f Hf. destruct (has_key data f) eqn:G; [|reflexivity].
        apply has_key_in in G. specialize (Hnone f G).
        unfold reserved in Hnone. apply orb_false_iff in Hnone.
        destruct Hnone as [Hnone _].
        apply existsb_eqb_in in Hf. congruence.
Qed.

End Sanitizer.

Lemma sanitizer_strips_reserved_witness :
  fst (stripPlatformFields (fun p => p) Samples.authored_badges
         "servers/a.json") =
  [("id", JStr "a"); ("name", JStr "A")].
Proof.
  apply (sanitizer_strips_reserved (fun p => p) "servers/a.json"
           Samples.authored_badges).
  unfold wf_object. simpl.
  repeat constructor; simpl; intuition discriminate.
Defined.

End SanitizerFacts.

(** ** Enrichment *)

Module EnrichFacts.

Import JsonFacts BuildBundle.

(** A value with a property is an object, hence truthy. *)
Lemma prop_truthy (v : json) (k : string) (x : json) :
  prop v k = Some x -> truthy v = true.
Proof. destruct v; simpl; try discriminate. reflexivity. Qed.

Lemma official_path (server : object) :
  official server = true <->
  path server "publisher" "official" = Some (JBool true).
Proof.
  unfold official, path.
  destruct (get server "publisher") as [p|]; [|split; discriminate].
  destruct (prop p "official") as [v|] eqn:E.
  - rewrite (prop_truthy _ _ _ E). simpl.
    destruct v as [|[|]| | | |]; split; try discriminate; reflexivity.
  - rewrite andb_false_r. split; discriminate.
Qed.

Lemma transport_path (t : string) (server : object) :
  transport_is t server = true <->
  path server "transport" "type" = Some (JStr t).
Proof.
  unfold transport_is, path.
  destruct (get server "transport") as [p|]; [|split; discriminate].
  destruct (prop p "type") as [v|] eqn:E.
  - rewrite (prop_truthy _ _ _ E). simpl.
    destruct v; split; try discriminate.
    + intros H. apply String.eqb_eq in H. now subst.
    + intros H. inversion H. apply String.eqb_refl.
  - rewrite andb_false_r. split; discriminate.
Qed.

(** The three assigned fields, read back. *)
Lemma enriched_derived (now : string) (server : object) :
  get (enrichServer now server) "badges" = Some (badges_of server) /\
  get (enrichServer now server) "hosting_type" = Some (hosting_type_of server)
  /\ get (enrichServer now server) "timestamps" = Some (timestamps_at now).
Proof.
  unfold enrichServer. repeat split.
  - rewrite !get_set_other by discriminate. apply get_set_same.
  - rewrite get_set_other by discriminate. apply get_set_same.
  - apply get_set_same.
Qed.

(** Every other field is the one of the record. *)
Lemma enriched_other (now : string) (server : object) (k : string) :
  derived k = false -> get (enrichServer now server) k = get server k.
Proof.
  unfold derived. simpl. intros H.
  apply orb_false_iff in H. destruct H as [H1 H].
  apply orb_false_iff in H. destruct H as [H2 H].
  apply orb_false_iff in H. destruct H as [H3 _].
  apply String.eqb_neq in H1, H2, H3.
  unfold enrichServer. rewrite !get_set_other; congruence.
Qed.

(** C5.  The enriched copy has [badges] equal to [["official"]] when
    [publisher.official] is the boolean [true] and to the empty array
    otherwise; it has [hosting_type] equal to ["remote"] when
    [transport.type] is ["http"], and to ["local"] otherwise, so for
    ["stdio"], for an absent transport and for any other type. *)
Theorem enriched_badges_and_hosting (now : string) (server : object) :
  (get (enrichServer now server) "badges" = Some (JArr [JStr "official"]) <->
   path server "publisher" "official" = Some (JBool true)) /\
  (path server "publisher" "official" <> Some (JBool true) ->
   get (enrichServer now server) "badges" = Some (JArr [])) /\
  (path server "transport" "type" = Some (JStr "http") ->
   get (enrichServer now server) "hosting_type" = Some (JStr "remote")) /\
  (path server "transport" "type" = Some (JStr "stdio") ->
   get (enrichServer now server) "hosting_type" = Some (JStr "local")) /\
  (get server "transport" = None ->
   get (enrichServer now server) "hosting_type" = Some (JStr "local")) /\
  (path server "transport" "type" <> Some (JStr "http") ->
   get (enrichServer now server) "hosting_type" = Some (JStr "local")).
Proof.
  destruct (enriched_derived now server) as [Hb [Hh _]].
  rewrite Hb, Hh. unfold badges_of, hosting_type_of.
  assert (L : path server "transport" "type" <> Some (JStr "http") ->
              Some (if transport_is "stdio" server then JStr "local"
                    else if transport_is "http" server then JStr "remote"
                    else JStr "local") = Some (JStr "local")).
  { intros Hne. destruct (transport_is "stdio" server); [reflexivity|].
    destruct (transport_is "http" server) eqn:T; [|reflexivity].
    exfalso. apply Hne. now apply transport_path. }
  split; [|split; [|split; [|split; [|split]]]].
  - destruct (official server) eqn:O.
    + split; [intros _; now apply official_path|reflexivity].
    + split; [discriminate|]. intros H. apply official_path in H. congruence.
  - intros Hne. destruct (official server) eqn:O; [|reflexivity].
    exfalso. apply Hne. now apply official_path.
  - intros H.
    assert (S : transport_is "stdio" server = false).
    { destruct (transport_is "stdio" server) eqn:S; [|reflexivity].
      apply transport_path in S. congruence. }
    apply transport_path in H. now rewrite S, H.
  - intros H. apply L. rewrite H. discriminate.
  - intros H. apply L. unfold path. rewrite H. discriminate.
  - exact L.
Qed.

Lemma enriched_badges_and_hosting_witness :
  get (enrichServer "2026-01-01T00:00:00.000Z" Samples.official_http)
    "hosting_type" = Some (JStr "remote").
Proof.
  apply (enriched_badges_and_hosting "2026-01-01T00:00:00.000Z"
           Samples.official_http).
  reflexivity.
Defined.

End EnrichFacts.

(** ** Sorting by name *)

Module SortFacts.

Import BuildBundle.

Section Sorting.

Variable localeCompare : string -> string -> Z.
Variable ToString : json -> result string.

Let compareNames := compareNames localeCompare ToString.
Let insert := insert localeCompare ToString.
Let sort_from := sort_from localeCompare ToString.
Let sort := sort localeCompare ToString.

(** Between records with string names the comparator does not throw
    and compares the names. *)
Lemma compareNames_strings (a b : object) :
  string_named a = true -> string_named b = true ->
  compareNames a b = Ok (localeCompare (sort_key a) (sort_key b)).
Proof.
  unfold compareNames, BuildBundle.compareNames, string_named, sort_key.
  destruct (name_or_empty a); try discriminate.
  destruct (name_or_empty b); try discriminate. reflexivity.
Qed.

Lemma insert_cons (x y : object) (rest : list object) :
  insert x (y :: rest) =
  bind (compareNames x y) (fun c =>
    if (c <? 0)%Z then Ok (x :: y :: rest)
    else bind (insert x rest) (fun r => Ok (y :: r))).
Proof. reflexivity. Qed.

Lemma insert_perm (x : object) (sorted r : list object) :
  insert x sorted = Ok r -> Permutation (x :: sorted) r.
Proof.
  revert r. induction sorted as [|y rest IH]; intros r.
  - simpl. intros H. inversion H. apply Permutation_refl.
  - rewrite insert_cons.
    destruct (compareNames x y) as [c|e]; simpl; [|discriminate].
    destruct (c <? 0)%Z.
    + intros H. inversion H. apply Permutation_refl.
    + destruct (insert x rest) as [r'|e]; simpl; [|discriminate].
      intros H. inversion H. subst r.
      apply perm_trans with (y :: x :: rest); [apply perm_swap|].
      apply perm_skip. now apply IH.
Qed.

Lemma sort_from_throw (e : exn) (l : list object) :
  fold_left (fun acc x => bind acc (fun sorted => insert x sorted)) l (Throw e)
  = Throw e.
Proof. induction l as [|x l IH]; simpl; [reflexivity|exact IH]. Qed.

Lemma sort_from_cons (acc : list object) (x : object) (l : list object) :
  sort_from acc (x :: l) = bind (insert x acc) (fun a => sort_from a l).
Proof.
  unfold sort_from, BuildBundle.sort_from. simpl.
  fold insert. destruct (insert x acc) as [a|e]; simpl; [reflexivity|].
  apply sort_from_throw.
Qed.

(** A sort that returns has only moved the records. *)
Lemma sort_from_perm (l : list object) (acc r : list object) :
  sort_from acc l = Ok r -> Permutation (acc ++ l) r.
Proof.
  revert acc r. induction l as [|x l IH]; intros acc r.
  - unfold sort_from, BuildBundle.sort_from. simpl.
    intros H. inversion H. rewrite app_nil_r. apply Permutation_refl.
  - rewrite sort_from_cons.
    destruct (insert x acc) as [a|e] eqn:E; simpl; [|discriminate].
    intros H. apply IH in H. apply insert_perm in E.
    apply perm_trans with (a ++ l); [|exact H].
    apply perm_trans with ((x :: acc) ++ l).
    + apply Permutation_sym. simpl. apply Permutation_middle.
    + now apply Permutation_app_tail.
Qed.

Lemma sort_perm (servers sorted : list object) :
  sort servers = Ok sorted -> Permutation servers sorted.
Proof. intros H. now apply sort_from_perm in H. Qed.

Lemma insert_returns (x : object) (sorted : list object) :
  string_named x = true ->
  Forall (fun s => string_named s = true) sorted ->
  exists r, insert x sorted = Ok r.
Proof.
  intros Hx. induction 1 as [|y rest Hy _ IH].
  - eexists. reflexivity.
  - rewrite insert_cons, (compareNames_strings x y Hx Hy). simpl.
    destruct (_ <? 0)%Z; [eexists; reflexivity|].
    destruct IH as [r ->]. eexists. reflexivity.
Qed.

Section Consistent.

Hypothesis collation : consistent localeCompare.

Let le (a b : object) : Prop :=
  (localeCompare (sort_key a) (sort_key b) <= 0)%Z.

Let ties (k : string) (s : object) : bool :=
  (localeCompare (sort_key s) k =? 0)%Z.

Lemma compare_zero_flip (a b : string) :
  localeCompare a b = 0%Z -> localeCompare b a = 0%Z.
Proof.
  intros H.
  pose proof (compare_flip _ collation a b).
  pose proof (compare_flip _ collation b a). lia.
Qed.

Lemma compare_not_less (a b : string) :
  ~ (localeCompare a b < 0)%Z -> (localeCompare b a <= 0)%Z.
Proof.
  intros H. pose proof (compare_flip _ collation a b). lia.
Qed.

Lemma compare_less_trans (a b c : string) :
  (localeCompare a b < 0)%Z -> (localeCompare b c <= 0)%Z ->
  (localeCompare a c < 0)%Z.
Proof.
  intros Hab Hbc.
  destruct (Z_lt_ge_dec (localeCompare a c) 0) as [H|H]; [exact H|].
  assert (Hca : (localeCompare c a <= 0)%Z) by (apply compare_not_less; lia).
  pose proof (compare_trans _ collation b c a Hbc Hca).
  pose proof (compare_flip _ collation a b). lia.
Qed.

(** Two names that tie with the same name are not strictly ordered. *)
Lemma ties_not_less (k a b : string) :
  localeCompare a k = 0%Z -> localeCompare b k = 0%Z ->
  ~ (localeCompare a b < 0)%Z.
Proof.
  intros Ha Hb Hlt.
  pose proof (compare_zero_flip _ _ Ha) as Hka.
  assert (H : (localeCompare b a <= 0)%Z)
    by (apply (compare_trans _ collation b k a); lia).
  pose proof (compare_flip _ collation a b). lia.
Qed.

Lemma insert_sorted (x : object) (sorted r : list object) :
  string_named x = true ->
  Forall (fun s => string_named s = true) sorted ->
  StronglySorted le sorted ->
  insert x sorted = Ok r ->
  StronglySorted le r.
Proof.
  intros Hx Hall. revert r.
  induction Hall as [|y rest Hy Hrest IH]; intros r Hs.
  - simpl. intros H. inversion H. repeat constructor.
  - rewrite insert_cons, (compareNames_strings x y Hx Hy). simpl.
    apply StronglySorted_inv in Hs. destruct Hs as [Hs Hle].
    destruct (_ <? 0)%Z eqn:C.
    + intros H. inversion H. subst r. apply Z.ltb_lt in C.
      constructor; [now constructor|].
      constructor; [unfold le; lia|].
      eapply Forall_impl; [|exact Hle].
      intros z Hz. unfold le in *.
      pose proof (compare_less_trans _ _ _ C Hz). lia.
    + destruct (insert x rest) as [r'|e] eqn:E; simpl; [|discriminate].
      intros H. inversion H. subst r. apply Z.ltb_ge in C.
      constructor; [now apply IH|].
      apply (Permutation_Forall (insert_perm _ _ _ E)).
      constructor; [|exact Hle].
      unfold le. apply compare_not_less. lia.
Qed.

(** The inserted record goes after the records it ties with. *)
Lemma insert_stable (x : object) (sorted r : list object) (k : string) :
  string_named x = true ->
  Forall (fun s => string_named s = true) sorted ->
  StronglySorted le sorted ->
  insert x sorted = Ok r ->
  filter (ties k) r = filter (ties k) sorted ++ filter (ties k) [x].
Proof.
  intros Hx Hall. revert r.
  induction Hall as [|y rest Hy Hrest IH]; intros r Hs.
  - simpl. intros H. inversion H. reflexivity.
  - rewrite insert_cons, (compareNames_strings x y Hx Hy). simpl bind.
    apply StronglySorted_inv in Hs. destruct Hs as [Hs Hle].
    destruct (_ <? 0)%Z eqn:C.
    + intros H. inversion H. subst r. apply Z.ltb_lt in C.
      cbn [filter]. destruct (ties k x) eqn:Tx.
      * assert (N : filter (ties k) (y :: rest) = []).
        { apply JsonFacts.filter_nothing. intros z Hz.
          destruct (ties k z) eqn:Tz; [|reflexivity]. exfalso.
          unfold ties in Tx, Tz. apply Z.eqb_eq in Tx, Tz.
          apply (ties_not_less k _ _ Tx Tz).
          destruct Hz as [<-|Hz]; [exact C|].
          rewrite Forall_forall in Hle. specialize (Hle z Hz).
          apply (compare_less_trans _ _ _ C Hle). }
        cbn [filter] in N. rewrite N. reflexivity.
      * now rewrite app_nil_r.
    + destruct (insert x rest) as [r'|e] eqn:E; simpl bind; [|discriminate].
      intros H. inversion H. subst r.
      cbn [filter]. rewrite (IH r' Hs eq_refl).
      destruct (ties k y); reflexivity.
Qed.

(** The sort returns, and what it returns. *)
Lemma sort_from_spec (l acc : list object) :
  Forall (fun s => string_named s = true) acc ->
  Forall (fun s => string_named s = true) l ->
  StronglySorted le acc ->
  exists r,
    sort_from acc l = Ok r /\
    StronglySorted le r /\
    forall k, filter (ties k) r = filter (ties k) acc ++ filter (ties k) l.
Proof.
  revert acc. induction l as [|x l IH]; intros acc Hacc Hl Hs.
  - exists acc. split; [reflexivity|]. split; [exact Hs|].
    intros k. now rewrite app_nil_r.
  - apply Forall_cons_iff in Hl. destruct Hl as [Hx Hl].
    destruct (insert_returns x acc Hx Hacc) as [a E].
    rewrite sort_from_cons, E. simpl bind.
    destruct (IH a) as [r [Hr [Hsorted Hstable]]].
    + apply (Permutation_Forall (insert_perm _ _ _ E)). now constructor.
    + exact Hl.
    + now apply (insert_sorted x acc).
    + exists r. split; [exact Hr|]. split; [exact Hsorted|].
      intros k. rewrite Hstable, (insert_stable x acc a k Hx Hacc Hs E).
      rewrite <- app_assoc. f_equal. cbn [filter].
      destruct (ties k x); reflexivity.
Qed.

End Consistent.

End Sorting.

Lemma cmp_not_greater_trans (a b c : string) :
  String_as_OT.cmp a b <> Gt -> String_as_OT.cmp b c <> Gt ->
  String_as_OT.cmp a c <> Gt.
Proof.
  intros Hab Hbc.
  destruct (String_as_OT.cmp a b) eqn:E1; [| |congruence];
    destruct (String_as_OT.cmp b c) eqn:E2; try congruence.
  - apply String_as_OT.cmp_eq in E1. subst b. now rewrite E2.
  - apply String_as_OT.cmp_eq in E1. subst b. now rewrite E2.
  - apply String_as_OT.cmp_eq in E2. subst c. now rewrite E1.
  - apply String_as_OT.cmp_lt in E1, E2.
    pose proof (String_as_OT.lt_trans _ _ _ E1 E2) as H.
    apply String_as_OT.cmp_lt in H. now rewrite H.
Qed.

(** The sample collation is a consistent comparator, and it is
    case-insensitive. *)
Lemma caseless_consistent : consistent Samples.caseless_compare.
Proof.
  split; unfold Samples.caseless_compare.
  - intros a b.
    rewrite (String_as_OT.cmp_antisym (lower a) (lower b)),
      (String_as_OT.cmp_antisym b a).
    destruct (String_as_OT.cmp (lower b) (lower a)),
      (String_as_OT.cmp a b); simpl; lia.
  - intros a b c Hab Hbc.
    assert (L : String_as_OT.cmp (lower a) (lower c) <> Gt).
    { apply (cmp_not_greater_trans _ (lower b)).
      - destruct (String_as_OT.cmp (lower a) (lower b)); [| |lia];
          discriminate.
      - destruct (String_as_OT.cmp (lower b) (lower c)); [| |lia];
          discriminate. }
    destruct (String_as_OT.cmp (lower a) (lower c)) eqn:Eac;
      [|lia|congruence].
    assert (T : String_as_OT.cmp c a <> Gt).
    { destruct (String_as_OT.cmp (lower a) (lower b)) eqn:Eab;
        destruct (String_as_OT.cmp (lower b) (lower c)) eqn:Ebc; try lia.
      - apply (cmp_not_greater_trans _ b).
        + destruct (String_as_OT.cmp c b); [| |lia]; discriminate.
        + destruct (String_as_OT.cmp b a); [| |lia]; discriminate.
      - exfalso. apply String_as_OT.cmp_eq in Eab, Eac.
        rewrite <- Eab, Eac in Ebc.
        assert (R : String_as_OT.cmp (lower c) (lower c) = Eq)
          by now apply String_as_OT.cmp_eq.
        congruence.
      - exfalso. apply String_as_OT.cmp_eq in Ebc, Eac.
        rewrite Ebc, <- Eac in Eab.
        assert (R : String_as_OT.cmp (lower a) (lower a) = Eq)
          by now apply String_as_OT.cmp_eq.
        congruence.
      - exfalso. apply String_as_OT.cmp_lt in Eab, Ebc.
        pose proof (String_as_OT.lt_trans _ _ _ Eab Ebc) as H.
        apply String_as_OT.cmp_lt in H. congruence. }
    destruct (String_as_OT.cmp c a); [lia|lia|congruence].
Qed.










End SortFacts.

(** ** The bundle *)

Module BundleFacts.

Import JsonFacts EnrichFacts BuildBundle.

(** *** Featured servers *)

Lemma featured_paths (s : object) :
  featured s =
  truthy_opt (path s "publisher" "official")
  && truthy_opt (path s "publisher" "verified").
Proof.
  unfold featured, path.
  destruct (get s "publisher") as [p|]; [|reflexivity].
  destruct p as [|[|]|n|str|items|props]; simpl; try reflexivity.
  - now destruct (n =? 0)%Z.
  - now destruct (str =? "")%string.
Qed.

Lemma subsequence_refl {A : Type} (l : list A) : subsequence l l.
Proof. induction l; now constructor. Qed.

Lemma subsequence_filter {A : Type} (p : A -> bool) (l : list A) :
  subsequence (filter p l) l.
Proof.
  induction l as [|x l IH]; simpl; [constructor|].
  destruct (p x); now constructor.
Qed.

Lemma subsequence_empty {A : Type} (l : list A) : subsequence [] l.
Proof. induction l; now constructor. Qed.

Lemma subsequence_firstn {A : Type} (n : nat) (l : list A) :
  subsequence (firstn n l) l.
Proof.
  revert n. induction l as [|x l IH]; intros [|n]; simpl;
    try apply subsequence_empty.
  apply subsequence_keep. apply IH.
Qed.

Lemma subsequence_trans {A : Type} (l1 l2 l3 : list A) :
  subsequence l1 l2 -> subsequence l2 l3 -> subsequence l1 l3.
Proof.
  intros H12 H23. revert l1 H12.
  induction H23 as [|x l2 l3 _ IH|x l2 l3 _ IH]; intros l1 H12.
  - exact H12.
  - constructor. now apply IH.
  - inversion H12; subst.
    + constructor. now apply IH.
    + apply subsequence_keep. now apply IH.
Qed.

Lemma subsequence_in {A : Type} (l1 l2 : list A) :
  subsequence l1 l2 -> forall x, In x l1 -> In x l2.
Proof.
  induction 1 as [|y l1 l2 _ IH|y l1 l2 _ IH]; intros x Hin.
  - exact Hin.
  - right. now apply IH.
  - destruct Hin as [-> |Hin]; [now left|right; now apply IH].
Qed.

(** The featured ids of any list of records. *)
Lemma featuredIds_spec (l : list object) :
  List.length (featuredIds l) <= 6 /\
  exists chosen,
    subsequence chosen l /\
    featuredIds l = map (fun s => get s "id") chosen /\
    Forall (fun s =>
              truthy_opt (path s "publisher" "official") = true /\
              truthy_opt (path s "publisher" "verified") = true /\
              (forall flag, path s "publisher" "official" = Some (JBool flag)
                            -> flag = true) /\
              (forall flag, path s "publisher" "verified" = Some (JBool flag)
                            -> flag = true)) chosen.
Proof.
  unfold featuredIds. split.
  - rewrite length_map. apply firstn_le_length.
  - exists (firstn 6 (filter featured l)). split; [|split].
    + eapply subsequence_trans;
        [apply subsequence_firstn|apply subsequence_filter].
    + reflexivity.
    + apply Forall_forall. intros s Hs.
      apply (subsequence_in _ _ (subsequence_firstn 6 _)) in Hs.
      apply filter_In in Hs. destruct Hs as [_ Hs].
      rewrite featured_paths in Hs. apply andb_true_iff in Hs.
      destruct Hs as [Ho Hv]. repeat split; try assumption.
      * intros flag E. rewrite E in Ho. exact Ho.
      * intros flag E. rewrite E in Hv. exact Hv.
Qed.

(** *** Used categories *)

(** *** Code points *)

(** The first code point of a string starts with its first byte. *)
Lemma code_points_head (c : ascii) (rest : string) :
  exists point points,
    code_points (String c rest) = String c point :: points.
Proof.
  destruct rest as [|d rest]; simpl.
  - now exists "", [].
  - destruct (continuation d).
    + destruct (match rest with
                | EmptyString => _
                | String _ _ => _
                end) as [|point points]; eexists; eexists; reflexivity.
    + eexists. eexists. reflexivity.
Qed.

Lemma code_points_cons (c d : ascii) (rest : string) :
  code_points (String c (String d rest)) =
  if continuation d then
    match code_points (String d rest) with
    | point :: points => String c point :: points
    | [] => [String c ""]
    end
  else String c "" :: code_points (String d rest).
Proof. reflexivity. Qed.

(** The code points of a string cut it into pieces: put together
    again they give the string; each is one byte followed by
    continuation bytes only; and each but the first starts with a byte
    that is not a continuation byte. *)
Lemma code_points_spec (str : string) :
  String.concat "" (code_points str) = str /\
  Forall (fun point =>
            exists c rest,
              point = String c rest /\
              forallb continuation (list_ascii_of_string rest) = true)
    (code_points str) /\
  Forall (fun point =>
            exists c rest, point = String c rest /\ continuation c = false)
    (tl (code_points str)).
Proof.
  induction str as [|c [|d rest] IH].
  - simpl. repeat split; constructor.
  - simpl. repeat split; repeat constructor. now exists c, "".
  - destruct IH as [IH1 [IH2 IH3]]. rewrite code_points_cons.
    destruct (code_points_head d rest) as [point [points E]].
    rewrite E in *. destruct (continuation d) eqn:D.
    + split; [|split].
      * cbn [String.concat] in *.
        destruct points; cbn [append] in *; now rewrite IH1.
      * apply Forall_cons_iff in IH2.
        destruct IH2 as [[d' [r [Hp Hr]]] IH2].
        injection Hp as <- <-.
        constructor; [|exact IH2].
        exists c, (String d point). split; [reflexivity|].
        simpl. now rewrite D, Hr.
      * exact IH3.
    + split; [|split].
      * cbn [String.concat append] in *. now rewrite IH1.
      * constructor; [|exact IH2]. now exists c, "".
      * cbn [tl]. constructor; [|exact IH3]. now exists d, point.
Qed.

Lemma set_has_in (used : jsset) (id : json) :
  set_has used id = true -> In id used.
Proof.
  unfold set_has. rewrite existsb_exists. intros [x [Hin E]].
  apply same_value_zero_eq in E. now subst.
Qed.

Lemma set_add_in (used : jsset) (k x : json) :
  In x (set_add used k) -> In x used \/ x = k.
Proof.
  unfold set_add. destruct (set_has used k); [now left|].
  rewrite in_app_iff. simpl. intuition.
Qed.

Lemma add_all_in (entries : list json) (used : jsset) (x : json) :
  In x (fold_left set_add entries used) -> In x used \/ In x entries.
Proof.
  revert used. induction entries as [|e entries IH]; intros used; simpl.
  - now left.
  - intros H. apply IH in H. destruct H as [H|H]; [|now right; right].
    apply set_add_in in H. destruct H as [H| ->]; [now left|right; now left].
Qed.

Lemma collect_in (l : list object) (used used' : jsset) (x : json) :
  collect used l = Ok used' -> In x used' ->
  In x used \/
  exists s entries, In s l /\ category_entries s = Ok entries /\ In x entries.
Proof.
  revert used. induction l as [|s l IH]; intros used; simpl.
  - intros H. inversion H. now left.
  - destruct (category_entries s) as [entries|e] eqn:E; simpl; [|discriminate].
    intros H Hin. destruct (IH _ H Hin) as [Hu|[s' [es [Hs [He Hx]]]]].
    + apply add_all_in in Hu. destruct Hu as [Hu|Hu]; [now left|].
      right. exists s, entries. auto.
    + right. exists s', es. auto.
Qed.

Lemma filter_used_in (used : jsset) (cs kept : list json) :
  filter_used used cs = Ok kept ->
  forall c, In c kept ->
  In c cs /\ exists id, prop c "id" = Some id /\ set_has used id = true.
Proof.
  revert kept. induction cs as [|c cs IH]; intros kept; simpl.
  - intros H. inversion H. contradiction.
  - destruct (is_used used c) as [keep|e] eqn:U; simpl; [|discriminate].
    destruct (filter_used used cs) as [kept'|e]; simpl; [|discriminate].
    intros H. inversion H. subst kept. clear H.
    intros c' Hin. destruct keep.
    + destruct Hin as [<-|Hin].
      * split; [now left|]. unfold is_used in U.
        destruct c; try discriminate;
          destruct (prop _ "id") as [id|]; inversion U; eauto.
      * destruct (IH kept' eq_refl c' Hin) as [H1 H2]. split; [now right|exact H2].
    + destruct (IH kept' eq_refl c' Hin) as [H1 H2]. split; [now right|exact H2].
Qed.

(** *** The loading loop *)

Lemma load_servers_world (clock : nat -> string) (files : list file) :
  forall n acc w,
  bundle_json (fst (load_servers clock n files acc w)) = bundle_json w /\
  bundle_dir (fst (load_servers clock n files acc w)) = bundle_dir w /\
  fs_calls (fst (load_servers clock n files acc w)) = fs_calls w.
Proof.
  induction files as [|[relative [data|message]] rest IH]; intros n acc w;
    simpl; auto.
  destruct (IH (S n) (acc ++ [enrichServer (clock n) data])
              (print (LogLoaded relative) w)) as [H1 [H2 H3]].
  now rewrite H1, H2, H3.
Qed.

Lemma load_servers_fails (clock : nat -> string) (files : list file) :
  (exists f message, In f files /\ snd f = LoadError message) ->
  forall n acc w, snd (load_servers clock n files acc w) = None.
Proof.
  intros [f [message [Hin Hf]]].
  induction files as [|[relative [data|m]] rest IH]; intros n acc w; simpl.
  - contradiction.
  - apply IH. destruct Hin as [<-|Hin]; [discriminate|exact Hin].
  - reflexivity.
Qed.

(** When the loop ends normally, it has enriched every file, in
    order. *)
Lemma load_servers_ok (clock : nat -> string) (files : list file) :
  forall n acc w w' out,
  load_servers clock n files acc w = (w', Some out) ->
  exists fresh,
    out = acc ++ fresh /\
    Forall2 (fun f e => exists data now,
               snd f = Parsed data /\ e = enrichServer now data)
      files fresh.
Proof.
  induction files as [|[relative [data|message]] rest IH];
    intros n acc w w' out; simpl.
  - intros H. inversion H. exists []. split; [now rewrite app_nil_r|constructor].
  - intros H. apply IH in H. destruct H as [fresh [-> HF]].
    exists (enrichServer (clock n) data :: fresh). split.
    + now rewrite <- app_assoc.
    + constructor; [|exact HF]. exists data, (clock n). auto.
  - discriminate.
Qed.

(** *** The run as a whole *)

Section Main.

Variable localeCompare : string -> string -> Z.
Variable ToString : json -> result string.

Let assemble := assemble localeCompare ToString.
Let main := main localeCompare ToString.

Lemma assemble_inv (now : string) (categories : json)
  (enriched : list object) (b : bundle) :
  assemble now categories enriched = Ok b ->
  exists sorted used opts,
    sort localeCompare ToString enriched = Ok sorted /\
    usedCategories sorted = Ok used /\
    category_options categories used = Ok opts /\
    servers b = sorted /\
    featured_server_ids b = featuredIds sorted /\
    filters (ui b) = [ category_filter opts; publisher_filter;
                       transport_filter; auth_filter ].
Proof.
  unfold assemble, BuildBundle.assemble.
  destruct (sort localeCompare ToString enriched) as [sorted|e] eqn:S;
    simpl; [|discriminate].
  destruct (usedCategories sorted) as [used|e] eqn:U; simpl; [|discriminate].
  destruct (category_options categories used) as [opts|e] eqn:O;
    simpl; [|discriminate].
  intros [= <-]. simpl.
  exists sorted, used, opts. repeat split; assumption.
Qed.

(** A run either exits with 1 and leaves the bundle directory and file
    as they were, or exits with 0 having written the assembled
    bundle. *)
Lemma main_outcome (env : environment) (w : world) :
  (snd (main env w) = 1%Z /\
   bundle_json (fst (main env w)) = bundle_json w /\
   bundle_dir (fst (main env w)) = bundle_dir w /\
   fs_calls (fst (main env w)) = fs_calls w) \/
  (snd (main env w) = 0%Z /\
   exists categories w1 enriched b,
     categories_file env = Parsed categories /\
     load_servers (clock env) 0 (server_files env) [] w = (w1, Some enriched)
     /\ assemble (clock env (List.length enriched)) categories enriched = Ok b
     /\ bundle_json (fst (main env w)) = Some b).
Proof.
  unfold main, BuildBundle.main.
  destruct (categories_file env) as [categories|message]; [|left; auto].
  pose proof (load_servers_world (clock env) (server_files env) 0 [] w)
    as [Hj [Hd Hc]].
  destruct (load_servers (clock env) 0 (server_files env) [] w)
    as [w1 [enriched|]] eqn:L; simpl in Hj, Hd, Hc; [|left; auto].
  fold assemble.
  destruct (assemble (clock env (List.length enriched)) categories enriched)
    as [b|e] eqn:A.
  - right. split; [reflexivity|].
    exists categories, w1, enriched, b. auto.
  - left. auto.
Qed.

(** C7.  If [categories.json] cannot be loaded, or any server file
    fails to load or parse, the run exits with code 1 without a call
    to [mkdirSync] or [writeFileSync]: the bundle directory and the
    bundle file are as they were before it.  More generally no run
    that exits with a non-zero code has written anything. *)
Theorem build_is_all_or_nothing (env : environment) (w : world) :
  ((exists message, categories_file env = LoadError message) \/
   (exists f message, In f (server_files env) /\ snd f = LoadError message) ->
   snd (main env w) = 1%Z /\
   bundle_json (fst (main env w)) = bundle_json w /\
   bundle_dir (fst (main env w)) = bundle_dir w /\
   fs_calls (fst (main env w)) = fs_calls w) /\
  (snd (main env w) <> 0%Z ->
   bundle_json (fst (main env w)) = bundle_json w /\
   bundle_dir (fst (main env w)) = bundle_dir w /\
   fs_calls (fst (main env w)) = fs_calls w).
Proof.
  split.
  - intros H.
    destruct (main_outcome env w) as [Hfail|[_ [cs [w1 [en [b [Hc [Hl _]]]]]]]];
      [exact Hfail|exfalso].
    destruct H as [[message H]|H]; [congruence|].
    pose proof (load_servers_fails (clock env) (server_files env) H 0 [] w)
      as Hnone.
    rewrite Hl in Hnone. discriminate.
  - intros Hcode.
    destruct (main_outcome env w) as [[_ Hfail]|[H0 _]];
      [exact Hfail|contradiction].
Qed.

(** C8 (amended).  In an assembled bundle the first filter is the
    category filter; its options are the fixed option ["all"] followed
    by options whose id is visited when the [categories] of at least
    one record of the bundle are iterated: it is an element of the
    list, when the field is a list, and a code point of the string,
    when the field is a string, that is one of the pieces that make
    up the string, a byte followed by continuation bytes only. *)
Theorem category_options_are_used (now : string) (categories : json)
  (enriched : list object) (b : bundle) :
  assemble now categories enriched = Ok b ->
  exists opts,
    filters (ui b) = [ category_filter (all_categories :: opts);
                       publisher_filter; transport_filter; auth_filter ] /\
    forall o, In o opts ->
      exists id s entries,
        option_id o = Some id /\ In s (servers b) /\
        category_entries s = Ok entries /\ In id entries /\
        (forall items, get s "categories" = Some (JArr items) ->
                       In id items) /\
        (forall str, get s "categories" = Some (JStr str) ->
                     exists point,
                       id = JStr point /\ In point (code_points str) /\
                       String.concat "" (code_points str) = str /\
                       exists c rest,
                         point = String c rest /\
                         forallb
                           (fun b => (128 <=? nat_of_ascii b)%nat
                                     && (nat_of_ascii b <? 192)%nat)
                           (list_ascii_of_string rest) = true).
Proof.
  intros H. apply assemble_inv in H.
  destruct H as [sorted [used [opts [_ [Hu [Ho [Hs [_ Hf]]]]]]]].
  unfold category_options in Ho.
  destruct categories as [| | | |cs|]; try discriminate.
  destruct (filter_used used cs) as [kept|e] eqn:K; simpl in Ho;
    [|discriminate].
  inversion Ho. subst opts. clear Ho.
  exists (map category_option kept). split; [exact Hf|].
  intros o Hin. apply in_map_iff in Hin. destruct Hin as [c [<- Hc]].
  destruct (filter_used_in _ _ _ K c Hc) as [_ [id [Hid Hhas]]].
  apply set_has_in in Hhas.
  destruct (collect_in _ _ _ _ Hu Hhas) as [[]|[s [entries [Hs' [He Hx]]]]].
  exists id, s, entries. rewrite Hs. simpl.
  repeat split; auto.
  - intros items Hitems. unfold category_entries in He.
    rewrite Hitems in He. simpl in He. inversion He. now subst.
  - intros str Hstr. unfold category_entries in He. rewrite Hstr in He.
    destruct (truthy (JStr str)); inversion He; subst entries;
      [|contradiction].
    apply in_map_iff in Hx. destruct Hx as [point [<- Hp]].
    destruct (code_points_spec str) as [Hcat [Hshape _]].
    exists point. split; [reflexivity|]. split; [exact Hp|].
    split; [exact Hcat|].
    rewrite Forall_forall in Hshape. exact (Hshape point Hp).
Qed.

(** C2 (amended).  In an assembled bundle, [featured_server_ids] has
    at most six entries; they are the ids of records of the bundle,
    listed in the order of the sorted records, and each of these
    records has a truthy [publisher.official] and a truthy
    [publisher.verified]: a flag that is a boolean is [true], but a
    flag need not be a boolean. *)
Theorem featured_ids_of_bundle (now : string) (categories : json)
  (enriched : list object) (b : bundle) :
  assemble now categories enriched = Ok b ->
  sort localeCompare ToString enriched = Ok (servers b) /\
  List.length (featured_server_ids b) <= 6 /\
  exists chosen,
    subsequence chosen (servers b) /\
    featured_server_ids b = map (fun s => get s "id") chosen /\
    Forall (fun s =>
              truthy_opt (path s "publisher" "official") = true /\
              truthy_opt (path s "publisher" "verified") = true /\
              (forall flag, path s "publisher" "official" = Some (JBool flag)
                            -> flag = true) /\
              (forall flag, path s "publisher" "verified" = Some (JBool flag)
                            -> flag = true)) chosen.
Proof.
  intros H. apply assemble_inv in H.
  destruct H as [sorted [used [opts [Hsort [_ [_ [Hs [Hf _]]]]]]]].
  rewrite Hs, Hf. split; [exact Hsort|]. apply featuredIds_spec.
Qed.

Lemma set_filter_other (p : string -> bool) (k : string) (v : json)
  (o : object) :
  p k = false ->
  filter (fun kv => p (fst kv)) (set k v o) = filter (fun kv => p (fst kv)) o.
Proof.
  intros Hk. induction o as [|[k' v'] o IH]; simpl.
  - now rewrite Hk.
  - destruct (k' =? k)%string eqn:E; simpl.
    + apply String.eqb_eq in E. subst k'. now rewrite Hk.
    + now rewrite IH.
Qed.

(** Enrichment leaves the fields it does not assign as they are, in
    their order. *)
Lemma enriched_frame (now : string) (server : object) :
  filter (fun kv => negb (derived (fst kv))) (enrichServer now server) =
  filter (fun kv => negb (derived (fst kv))) server.
Proof.
  unfold enrichServer.
  rewrite !(set_filter_other (fun k => negb (derived k))); reflexivity.
Qed.

(** The assigned values do not depend on an authored value of an
    assigned field. *)
Lemma derived_ignore_authored (data : object) (k : string) (v : json) :
  derived k = true ->
  badges_of (set k v data) = badges_of data /\
  hosting_type_of (set k v data) = hosting_type_of data.
Proof.
  intros Hk.
  assert (Hp : k <> "publisher") by (intros ->; discriminate).
  assert (Ht : k <> "transport") by (intros ->; discriminate).
  unfold badges_of, hosting_type_of, official, transport_is.
  now rewrite !(get_set_other k _ v data) by assumption.
Qed.

(** Apart from [badges], the fields the sanitizer would remove are not
    assigned by enrichment. *)
Lemma reserved_not_derived (k : string) :
  reserved k = true -> k <> "badges" -> derived k = false.
Proof.
  intros Hr Hb. destruct (derived k) eqn:D; [|reflexivity].
  unfold derived in D. apply SanitizerFacts.existsb_eqb_in in D.
  simpl in D. destruct D as [<-|[<-|[<-|[]]]];
    [contradiction|discriminate|discriminate].
Qed.

(** C9.  A run that exits with 0 has written a bundle that holds, for
    every server file, its enriched record: the fields other than
    [badges], [hosting_type] and [timestamps] are those of the file, in
    their order, so that [stats], [sponsored], [featured] and the
    fields prefixed by [_platform] are not removed, and the three
    assigned fields hold the computed values.  The computed values do
    not depend on authored values of the assigned fields. *)
Theorem records_pass_unsanitized (env : environment) (w : world) :
  (snd (main env w) = 0%Z ->
   exists b,
     bundle_json (fst (main env w)) = Some b /\
     forall relative data,
       In (relative, Parsed data) (server_files env) ->
       exists e now,
         In e (servers b) /\
         filter (fun kv => negb (derived (fst kv))) e =
           filter (fun kv => negb (derived (fst kv))) data /\
         (forall k, derived k = false -> get e k = get data k) /\
         (forall k, reserved k = true -> k <> "badges" ->
                    get e k = get data k) /\
         get e "badges" = Some (badges_of data) /\
         get e "hosting_type" = Some (hosting_type_of data) /\
         get e "timestamps" = Some (timestamps_at now)) /\
  (forall data k v,
     derived k = true ->
     badges_of (set k v data) = badges_of data /\
     hosting_type_of (set k v data) = hosting_type_of data).
Proof.
  split; [|exact derived_ignore_authored].
  intros Hcode.
  destruct (main_outcome env w)
    as [[H1 _]|[_ [cs [w1 [enriched [b [_ [Hl [Ha Hb]]]]]]]]]; [congruence|].
  exists b. split; [exact Hb|].
  intros relative data Hin.
  apply load_servers_ok in Hl. destruct Hl as [fresh [-> HF]]. simpl in Ha.
  apply assemble_inv in Ha.
  destruct Ha as [sorted [_ [_ [Hsort [_ [_ [Hs _]]]]]]].
  apply SortFacts.sort_perm in Hsort.
  assert (He : exists e now, In e fresh /\ e = enrichServer now data).
  { clear - HF Hin. induction HF as [|f e fs es [d [now [Hd He]]] _ IH].
    - contradiction.
    - destruct Hin as [->|Hin].
      + simpl in Hd. inversion Hd. subst d. exists e, now. split; [now left|auto].
      + destruct (IH Hin) as [e' [now' [H1 H2]]].
        exists e', now'. split; [now right|auto]. }
  destruct He as [e [now [Hfresh ->]]].
  exists (enrichServer now data), now.
  destruct (enriched_derived now data) as [B [Hh T]].
  repeat split; auto.
  - rewrite Hs. eapply Permutation_in; eauto.
  - apply enriched_frame.
  - intros k. apply enriched_other.
  - intros k Hr Hne. apply enriched_other. now apply reserved_not_derived.
Qed.

End Main.

Lemma build_is_all_or_nothing_witness :
  snd (main Samples.caseless_compare Samples.to_string
         Samples.broken_run Samples.fresh_checkout) = 1%Z /\
  bundle_json (fst (main Samples.caseless_compare Samples.to_string
                      Samples.broken_run Samples.fresh_checkout)) = None.
Proof.
  destruct (build_is_all_or_nothing Samples.caseless_compare
              Samples.to_string Samples.broken_run Samples.fresh_checkout)
    as [H _].
  destruct H as [H1 [H2 _]]; [|split; [exact H1|exact H2]].
  right.
  exists ("servers/bad.json", LoadError "Unexpected end of JSON input"),
    "Unexpected end of JSON input".
  split; [simpl; auto|reflexivity].
Defined.

Lemma category_options_are_used_witness :
  exists b opts,
    bundle_json (fst (main Samples.caseless_compare Samples.to_string
                        Samples.good_run Samples.fresh_checkout)) = Some b /\
    filters (ui b) = [ category_filter (all_categories :: opts);
                       publisher_filter; transport_filter; auth_filter ].
Proof.
  eexists.
  destruct (category_options_are_used Samples.caseless_compare
              Samples.to_string Samples.midnight Samples.categories_store
              [ enrichServer Samples.midnight Samples.official_http;
                enrichServer Samples.midnight Samples.truthy_flags ]
              _ eq_refl) as [opts [H _]].
  exists opts. split; [reflexivity|exact H].
Defined.

Lemma featured_ids_of_bundle_witness :
  exists b,
    bundle_json (fst (main Samples.caseless_compare Samples.to_string
                        Samples.good_run Samples.fresh_checkout)) = Some b /\
    List.length (featured_server_ids b) <= 6.
Proof.
  eexists. split; [reflexivity|].
  apply (featured_ids_of_bundle Samples.caseless_compare
           Samples.to_string Samples.midnight Samples.categories_store
           [ enrichServer Samples.midnight Samples.official_http;
             enrichServer Samples.midnight Samples.truthy_flags ]).
  reflexivity.
Defined.

Lemma records_pass_unsanitized_witness :
  exists b,
    bundle_json (fst (main Samples.caseless_compare Samples.to_string
                        Samples.good_run Samples.fresh_checkout)) = Some b.
Proof.
  destruct (proj1 (records_pass_unsanitized Samples.caseless_compare
                     Samples.to_string Samples.good_run
                     Samples.fresh_checkout) eq_refl) as [b [H _]].
  exists b. exact H.
Defined.

(** C8, as stated, fails: with a record whose [categories] is the
    string "dev", the category [d] of the store is offered as an
    option, though [d] is in the categories list of no record. *)
Lemma string_categories_offer_letters :
  match assemble Samples.caseless_compare Samples.to_string
          Samples.midnight Samples.letter_store
          [enrichServer Samples.midnight Samples.string_categories] with
  | Ok b =>
      (exists o rest,
         filters (ui b) = category_filter [all_categories; o] :: rest /\
         option_id o = Some (JStr "d")) /\
      ~ (exists s items,
           In s (servers b) /\
           get s "categories" = Some (JArr items) /\ In (JStr "d") items)
  | Throw _ => False
  end.
Proof.
  simpl. split.
  - eexists. eexists. split; reflexivity.
  - intros [s [items [[<-|[]] [H _]]]]. discriminate H.
Qed.

(** C2, as stated, fails: a record whose [publisher.official] is the
    number 1 and whose [publisher.verified] is the string "yes" is
    featured, though neither flag is the boolean [true]. *)
Lemma truthy_flags_are_featured :
  path Samples.truthy_flags "publisher" "official" = Some (JNum 1) /\
  path Samples.truthy_flags "publisher" "verified" = Some (JStr "yes") /\
  featuredIds [enrichServer Samples.midnight Samples.truthy_flags] =
    [Some (JStr "x")] /\
  match assemble Samples.caseless_compare Samples.to_string
          Samples.midnight Samples.categories_store
          [enrichServer Samples.midnight Samples.truthy_flags] with
  | Ok b => featured_server_ids b = [Some (JStr "x")]
  | Throw _ => False
  end.
Proof. repeat split. Qed.

End BundleFacts.

(** ** Further properties of conflict detection *)

Module DetectorExtras.

Import JsonFacts DetectorFacts Notions.

Lemma scan_app (l l' : list file) (st : detector) :
  scan st (l ++ l') = scan (scan st l) l'.
Proof. unfold scan. apply fold_left_app. Qed.

(** Each check only adds lines. *)
Lemma check_id_extends (relative : string) (data : object) (st : detector) :
  exists more, reported (check_id relative data st) = reported st ++ more.
Proof.
  unfold check_id.
  destruct (get data "id") as [id|]; [|exists []; now rewrite app_nil_r].
  destruct (truthy id); [|exists []; now rewrite app_nil_r].
  destruct (map_get (ids st) id); simpl;
    destruct (map_get (aliases st) id); simpl;
    rewrite <- ?app_assoc; eexists; try reflexivity.
  now rewrite app_nil_r.
Qed.

Lemma check_alias_extends (relative : string) (data : object)
  (st : detector) :
  exists more, reported (check_alias relative data st) = reported st ++ more.
Proof.
  unfold check_alias.
  destruct (get data "alias") as [al|]; [|exists []; now rewrite app_nil_r].
  destruct (truthy al); [|exists []; now rewrite app_nil_r].
  destruct (map_get (aliases st) al); simpl;
    destruct (map_get (ids st) al); simpl;
    rewrite <- ?app_assoc; eexists; try reflexivity.
  now rewrite app_nil_r.
Qed.

Lemma scan_extends (l : list file) (st : detector) :
  exists more, reported (scan st l) = reported st ++ more.
Proof.
  revert st. induction l as [|[relative [data|message]] l IH]; intros st.
  - exists []. now rewrite app_nil_r.
  - rewrite scan_cons. unfold visit. simpl.
    destruct (IH (check_alias relative data (check_id relative data st)))
      as [m3 ->].
    destruct (check_alias_extends relative data (check_id relative data st))
      as [m2 ->].
    destruct (check_id_extends relative data st) as [m1 ->].
    exists (m1 ++ m2 ++ m3). now rewrite <- !app_assoc.
  - rewrite scan_cons. apply IH.
Qed.

(** X1.  Processing more files after a list of files only appends
    lines: the conflicts of the list alone are the first conflicts of
    the longer run, in the same order. *)
Theorem conflicts_only_grow (l l' : list file) :
  exists more, conflicts (l ++ l') = conflicts l ++ more.
Proof.
  rewrite !conflicts_scan, scan_app. apply scan_extends.
Qed.

Lemma flag_tells_conflicts (l : list file) :
  snd (checkConflicts l) =
  match conflicts l with
  | [] => false
  | _ => true
  end.
Proof.
  rewrite verdict_scan, conflicts_scan.
  destruct (scan_sound l start) as [Hflag _].
  { split; [|constructor]. simpl. split; [discriminate|congruence]. }
  destruct (hasConflicts (scan start l)) eqn:E.
  - destruct Hflag as [H _]. specialize (H eq_refl).
    destruct (reported (scan start l)); [congruence|reflexivity].
  - destruct (reported (scan start l)) eqn:R; [reflexivity|].
    destruct Hflag as [_ H]. discriminate H. intros X. discriminate X.
Qed.

(** X2.  The value [checkConflicts] returns tells whether it has
    printed a conflict. *)
Theorem verdict_counts_lines (l : list file) :
  snd (checkConflicts l) = Nat.ltb 0 (List.length (conflicts l)).
Proof.
  rewrite flag_tells_conflicts. now destruct (conflicts l).
Qed.

(** X3.  A file that does not parse has no effect on the check: the
    conflicts and the returned value are those of the parsing files
    alone. *)
Theorem unparsed_files_skipped (l : list file) :
  checkConflicts l = checkConflicts (filter parses l).
Proof.
  assert (H : forall st, scan st l = scan st (filter parses l)).
  { induction l as [|[relative [data|message]] l IH]; intros st.
    - reflexivity.
    - simpl filter. rewrite !scan_cons. apply IH.
    - simpl filter. rewrite scan_cons. apply IH. }
  assert (E : checkConflicts l =
              (reported (scan start l), hasConflicts (scan start l)))
    by now destruct l.
  assert (E' : checkConflicts (filter parses l) =
               (reported (scan start (filter parses l)),
                hasConflicts (scan start (filter parses l))))
    by now destruct (filter parses l).
  now rewrite E, E', H.
Qed.

Lemma declared_positive (field : string) (t : json) (l : list file) :
  existsb (declares field t) l = Nat.ltb 0 (declarations field t l).
Proof.
  induction l as [|f l IH]; [reflexivity|].
  rewrite declarations_cons. simpl. rewrite IH.
  destruct (declares field t f); simpl; [reflexivity|].
  reflexivity.
Qed.

(** X4.  [checkConflicts] returns [false] exactly when no token is
    declared twice: every id and every alias is declared by one file
    only, and no id is also an alias. *)
Theorem no_conflict_iff_declared_once (l : list file) :
  snd (checkConflicts l) = false <-> forall t, uses t l <= 1.
Proof.
  split.
  - intros Hv t.
    destruct (le_gt_dec (uses t l) 1) as [H|H]; [exact H|exfalso].
    assert (Ht : snd (checkConflicts l) = true); [|congruence].
    apply verdict_tally. unfold uses in H.
    destruct (le_gt_dec 2 (declarations "id" t l)) as [Hi|Hi].
    { exists KDuplicateId, t. rewrite duplicate_ids_count. lia. }
    destruct (le_gt_dec 2 (declarations "alias" t l)) as [Ha|Ha].
    { exists KDuplicateAlias, t. rewrite duplicate_aliases_count. lia. }
    exists KIdAliasCollision, t. apply Nat.ltb_lt.
    rewrite collision_reported, !declared_positive.
    apply andb_true_iff. split; apply Nat.ltb_lt; lia.
  - intros H. destruct (snd (checkConflicts l)) eqn:E; [exfalso|reflexivity].
    apply verdict_tally in E. destruct E as [k [t Hk]].
    specialize (H t). unfold uses in H. destruct k.
    + rewrite duplicate_ids_count in Hk. lia.
    + rewrite duplicate_aliases_count in Hk. lia.
    + apply Nat.ltb_lt in Hk.
      rewrite collision_reported, !declared_positive in Hk.
      apply andb_true_iff in Hk. destruct Hk as [H1 H2].
      apply Nat.ltb_lt in H1, H2. lia.
Qed.

Lemma no_conflict_iff_declared_once_witness :
  snd (checkConflicts [Samples.id_a; Samples.empty_id1]) = false.
Proof.
  apply no_conflict_iff_declared_once. intros t.
  unfold uses, declarations, declares, declared.
  cbn -[same_value_zero].
  destruct (same_value_zero (JStr "a") t); cbn; lia.
Defined.

(** *** What the two mappings hold *)

Lemma check_id_ids_get (relative : string) (data : object) (st : detector)
  (t : json) :
  map_get (ids (check_id relative data st)) t =
  match map_get (ids st) t with
  | Some v => Some v
  | None => if declares "id" t (relative, Parsed data) then Some relative
            else None
  end.
Proof.
  unfold check_id, declares, declared. simpl.
  destruct (get data "id") as [id|]; [|now destruct (map_get (ids st) t)].
  destruct (truthy id); [|now destruct (map_get (ids st) t)].
  destruct (same_value_zero id t) eqn:E.
  - pose proof (same_value_zero_refl_r _ _ E) as R.
    apply same_value_zero_eq in E. subst id.
    destruct (map_get (ids st) t) as [first|] eqn:G; simpl;
      destruct (map_get (aliases st) t); simpl; rewrite ?G;
      try reflexivity; now apply map_get_set_new.
  - destruct (map_get (ids st) id) as [first|] eqn:G; simpl;
      destruct (map_get (aliases st) id); simpl;
      rewrite ?map_get_set_other by assumption;
      now destruct (map_get (ids st) t).
Qed.

Lemma check_alias_aliases_get (relative : string) (data : object)
  (st : detector) (t : json) :
  map_get (aliases (check_alias relative data st)) t =
  match map_get (aliases st) t with
  | Some v => Some v
  | None => if declares "alias" t (relative, Parsed data) then Some relative
            else None
  end.
Proof.
  unfold check_alias, declares, declared. simpl.
  destruct (get data "alias") as [al|];
    [|now destruct (map_get (aliases st) t)].
  destruct (truthy al); [|now destruct (map_get (aliases st) t)].
  destruct (same_value_zero al t) eqn:E.
  - pose proof (same_value_zero_refl_r _ _ E) as R.
    apply same_value_zero_eq in E. subst al.
    destruct (map_get (aliases st) t) as [first|] eqn:G; simpl;
      destruct (map_get (ids st) t); simpl; rewrite ?G;
      try reflexivity; now apply map_get_set_new.
  - destruct (map_get (aliases st) al) as [first|] eqn:G; simpl;
      destruct (map_get (ids st) al); simpl;
      rewrite ?map_get_set_other by assumption;
      now destruct (map_get (aliases st) t).
Qed.

Lemma visit_get (st : detector) (x : file) (t : json) :
  map_get (ids (visit st x)) t =
    match map_get (ids st) t with
    | Some v => Some v
    | None => if declares "id" t x then Some (fst x) else None
    end /\
  map_get (aliases (visit st x)) t =
    match map_get (aliases st) t with
    | Some v => Some v
    | None => if declares "alias" t x then Some (fst x) else None
    end.
Proof.
  destruct x as [relative [data|message]]; unfold visit; simpl.
  - rewrite check_alias_ids, check_alias_aliases_get, check_id_aliases.
    split; [apply check_id_ids_get|reflexivity].
  - unfold declares. simpl.
    split; [now destruct (map_get (ids st) t)
           |now destruct (map_get (aliases st) t)].
Qed.

Lemma first_declarer_cons (field : string) (t : json) (x : file)
  (l : list file) :
  first_declarer field t (x :: l) =
  if declares field t x then Some (fst x) else first_declarer field t l.
Proof.
  unfold first_declarer. simpl. now destruct (declares field t x).
Qed.

Lemma first_declarer_app (field : string) (t : json) (l l' : list file) :
  first_declarer field t (l ++ l') =
  match first_declarer field t l with
  | Some g => Some g
  | None => first_declarer field t l'
  end.
Proof.
  induction l as [|x l IH]; [reflexivity|].
  simpl app. rewrite !first_declarer_cons.
  now destruct (declares field t x).
Qed.

Lemma scan_get (l : list file) (st : detector) (t : json) :
  map_get (ids (scan st l)) t =
    match map_get (ids st) t with
    | Some v => Some v
    | None => first_declarer "id" t l
    end /\
  map_get (aliases (scan st l)) t =
    match map_get (aliases st) t with
    | Some v => Some v
    | None => first_declarer "alias" t l
    end.
Proof.
  revert st. induction l as [|x l IH]; intros st.
  - simpl. split; [now destruct (map_get (ids st) t)
                  |now destruct (map_get (aliases st) t)].
  - rewrite scan_cons. destruct (IH (visit st x)) as [H1 H2].
    destruct (visit_get st x t) as [V1 V2].
    rewrite H1, H2, V1, V2, !first_declarer_cons.
    split.
    + destruct (map_get (ids st) t); [reflexivity|].
      now destruct (declares "id" t x).
    + destruct (map_get (aliases st) t); [reflexivity|].
      now destruct (declares "alias" t x).
Qed.

(** X5.  At the end of a run, the identifier mapping sends every token
    to the first file that declares it as its id, and holds nothing
    for a token no file declares; likewise the alias mapping. *)
Theorem mappings_hold_first_declarer (l : list file) (t : json) :
  map_get (ids (scan start l)) t = first_declarer "id" t l /\
  map_get (aliases (scan start l)) t = first_declarer "alias" t l.
Proof. apply (scan_get l start t). Qed.

Ltac split_in :=
  rewrite ?in_app_iff; simpl; intros H;
  repeat match goal with
  | H : _ \/ _ |- _ => destruct H as [H|H]
  | H : False |- _ => contradiction
  end.

Lemma check_id_reports (relative : string) (data : object) (st : detector)
  (c : conflict) :
  In c (reported (check_id relative data st)) ->
  In c (reported st) \/
  (relative = fst (files_of c) /\
   match c with
   | DuplicateId t _ g =>
       declares "id" t (relative, Parsed data) = true /\
       map_get (ids st) t = Some g
   | IdCollidesAlias t _ g =>
       declares "id" t (relative, Parsed data) = true /\
       map_get (aliases st) t = Some g
   | _ => False
   end).
Proof.
  unfold check_id, declares, declared. simpl.
  destruct (get data "id") as [id|]; [|now left].
  destruct (truthy id) eqn:T; [|now left].
  destruct (map_get (ids st) id) as [first|] eqn:G1; simpl;
    destruct (map_get (aliases st) id) as [other|] eqn:G2; simpl;
    split_in; try (now left); subst c; right; simpl;
    rewrite ?(map_get_primitive _ _ _ G1), ?(map_get_primitive _ _ _ G2);
    auto.
Qed.

Lemma check_alias_reports (relative : string) (data : object)
  (st : detector) (c : conflict) :
  In c (reported (check_alias relative data st)) ->
  In c (reported st) \/
  (relative = fst (files_of c) /\
   match c with
   | DuplicateAlias t _ g =>
       declares "alias" t (relative, Parsed data) = true /\
       map_get (aliases st) t = Some g
   | AliasCollidesId t _ g =>
       declares "alias" t (relative, Parsed data) = true /\
       map_get (ids st) t = Some g
   | _ => False
   end).
Proof.
  unfold check_alias, declares, declared. simpl.
  destruct (get data "alias") as [al|]; [|now left].
  destruct (truthy al) eqn:T; [|now left].
  destruct (map_get (aliases st) al) as [first|] eqn:G1; simpl;
    destruct (map_get (ids st) al) as [other|] eqn:G2; simpl;
    split_in; try (now left); subst c; right; simpl;
    rewrite ?(map_get_primitive _ _ _ G1), ?(map_get_primitive _ _ _ G2);
    auto.
Qed.

(** The lines one file adds, with the file each of them names. *)
Lemma visit_reports (st : detector) (x : file) (c : conflict) :
  In c (reported (visit st x)) ->
  In c (reported st) \/
  (fst x = fst (files_of c) /\
   match c with
   | DuplicateId t _ g =>
       declares "id" t x = true /\ map_get (ids st) t = Some g
   | IdCollidesAlias t _ g =>
       declares "id" t x = true /\ map_get (aliases st) t = Some g
   | DuplicateAlias t _ g =>
       declares "alias" t x = true /\ map_get (aliases st) t = Some g
   | AliasCollidesId t _ g =>
       declares "alias" t x = true /\
       map_get (ids (visit st x)) t = Some g
   end).
Proof.
  destruct x as [relative [data|message]]; unfold visit; simpl;
    [|now left].
  intros H. apply check_alias_reports in H. destruct H as [H|[Hf H]].
  - apply check_id_reports in H. destruct H as [H|[Hf H]]; [now left|].
    right. split; [exact Hf|]. destruct c; try contradiction; exact H.
  - right. split; [exact Hf|].
    destruct c; try contradiction.
    + now rewrite check_id_aliases in H.
    + now rewrite check_alias_ids.
Qed.

(** X6.  Every conflict printed names the file being processed, which
    declares the token, and the first file that declared the token
    before it: for a duplicate id, the first earlier file with this
    id; for a duplicate alias or an id colliding with an alias, the
    first earlier file with this alias; for an alias colliding with an
    id, the first file with this id up to and including the file
    itself. *)
Theorem conflicts_name_first_declarer (l : list file) (c : conflict) :
  In c (conflicts l) ->
  exists l1 x l2,
    l = l1 ++ x :: l2 /\
    fst x = fst (files_of c) /\
    match c with
    | DuplicateId t _ g =>
        declares "id" t x = true /\ first_declarer "id" t l1 = Some g
    | IdCollidesAlias t _ g =>
        declares "id" t x = true /\ first_declarer "alias" t l1 = Some g
    | DuplicateAlias t _ g =>
        declares "alias" t x = true /\ first_declarer "alias" t l1 = Some g
    | AliasCollidesId t _ g =>
        declares "alias" t x = true /\
        first_declarer "id" t (l1 ++ [x]) = Some g
    end.
Proof.
  rewrite conflicts_scan.
  induction l as [|x l IH] using rev_ind; [contradiction|].
  rewrite scan_app. simpl scan. intros H.
  apply visit_reports in H. destruct H as [H|[Hf H]].
  - destruct (IH H) as [l1 [y [l2 [-> Hy]]]].
    exists l1, y, (l2 ++ [x]). split; [|exact Hy].
    now rewrite <- app_assoc.
  - exists l, x, []. split; [reflexivity|]. split; [exact Hf|].
    destruct (scan_get l start (token_of c)) as [Hi Ha]. simpl in Hi, Ha.
    destruct c; simpl in *.
    + now rewrite <- Hi.
    + now rewrite <- Ha.
    + now rewrite <- Ha.
    + destruct H as [H1 H2]. split; [exact H1|].
      rewrite <- H2.
      destruct (scan_get (l ++ [x]) start alias) as [Hi' _]. simpl in Hi'.
      rewrite <- Hi', scan_app. reflexivity.
Qed.

Lemma conflicts_name_first_declarer_witness :
  exists l1 x l2,
    [Samples.id_a; Samples.alias_a1; Samples.alias_a2] = l1 ++ x :: l2 /\
    fst x = "servers/c.json" /\
    declares "alias" (JStr "a") x = true /\
    first_declarer "alias" (JStr "a") l1 = Some "servers/b.json".
Proof.
  apply (conflicts_name_first_declarer
           [Samples.id_a; Samples.alias_a1; Samples.alias_a2]
           (DuplicateAlias (JStr "a") "servers/c.json" "servers/b.json")).
  simpl. auto.
Defined.

End DetectorExtras.

(** ** Further properties of the sanitizer and of enrichment *)

Module RecordExtras.

Import JsonFacts SanitizerFacts EnrichFacts BuildBundle.

(** X7.  Sanitizing is idempotent: a sanitized record has no reserved
    key, and sanitizing it again, for whatever file, returns it
    unchanged with no warning. *)
Theorem sanitizer_idempotent (basename : string -> string)
  (data : object) (filePath filePath' : string) :
  let cleaned := fst (stripPlatformFields basename data filePath) in
  (forall k, In k (keys cleaned) -> reserved k = false) /\
  stripPlatformFields basename cleaned filePath' = (cleaned, []).
Proof.
  intros cleaned. subst cleaned.
  rewrite stripPlatformFields_spec. cbn [fst].
  assert (K : forall k,
            In k (keys (filter (fun kv => negb (reserved (fst kv))) data)) ->
            reserved k = false).
  { intros k Hk. apply in_map_iff in Hk. destruct Hk as [[k' v] [<- Hin]].
    apply filter_In in Hin. destruct Hin as [_ Hin]. simpl in *.
    now destruct (reserved k'). }
  split; [exact K|].
  rewrite stripPlatformFields_spec. apply f_equal2.
  - apply filter_all. intros [k v] Hin. cbn [fst].
    rewrite (K k); [reflexivity|]. apply in_map_iff. now exists (k, v).
  - rewrite (filter_nothing (has_key _)), (filter_nothing platform_prefixed).
    + reflexivity.
    + intros k Hk. specialize (K k Hk). unfold reserved in K.
      now apply orb_false_iff in K.
    + intros f Hf. destruct (has_key _ f) eqn:G; [|reflexivity].
      apply has_key_in in G. specialize (K f G).
      unfold reserved in K. apply orb_false_iff in K. destruct K as [K _].
      apply existsb_eqb_in in Hf. congruence.
Qed.

Lemma set_same_value (k : string) (v : json) (o : object) :
  get o k = Some v -> set k v o = o.
Proof.
  induction o as [|[k' v'] o IH]; simpl; [discriminate|].
  destruct (k' =? k)%string eqn:E.
  - apply String.eqb_eq in E. subst k'. now intros [= ->].
  - intros G. now rewrite IH.
Qed.

Lemma set_twice (k : string) (v v' : json) (o : object) :
  set k v (set k v' o) = set k v o.
Proof.
  induction o as [|[k0 v0] o IH]; simpl.
  - now rewrite String.eqb_refl.
  - destruct (k0 =? k)%string eqn:E; simpl.
    + now rewrite String.eqb_refl.
    + now rewrite E, IH.
Qed.

Lemma enriched_sources (now : string) (server : object) :
  badges_of (enrichServer now server) = badges_of server /\
  hosting_type_of (enrichServer now server) = hosting_type_of server.
Proof.
  unfold badges_of, hosting_type_of, official, transport_is.
  now rewrite !(enriched_other now server) by reflexivity.
Qed.

(** X8.  Enriching an enriched record is enriching the record: the
    badges and the hosting type are computed again with the same
    result, and only the timestamps follow the clock. *)
Theorem enrichServer_idempotent (now now' : string) (server : object) :
  enrichServer now' (enrichServer now server) = enrichServer now' server.
Proof.
  destruct (enriched_sources now server) as [Hb Hh].
  destruct (enriched_derived now server) as [Gb [Gh _]].
  unfold enrichServer at 1. rewrite Hb, Hh.
  rewrite (set_same_value "badges" _ _ Gb).
  rewrite (set_same_value "hosting_type" _ _ Gh).
  unfold enrichServer. apply set_twice.
Qed.

Lemma keys_set (k : string) (v : json) (o : object) :
  keys (set k v o) = if has_key o k then keys o else keys o ++ [k].
Proof.
  unfold has_key. induction o as [|[k' v'] o IH]; simpl; [reflexivity|].
  destruct (k' =? k)%string eqn:E; simpl.
  - apply String.eqb_eq in E. now subst.
  - rewrite IH. now destruct (get o k).
Qed.

Lemma has_key_set (k k' : string) (v : json) (o : object) :
  has_key (set k v o) k' = (k =? k')%string || has_key o k'.
Proof.
  unfold has_key. destruct (k =? k')%string eqn:E.
  - apply String.eqb_eq in E. subst k'. now rewrite get_set_same.
  - apply String.eqb_neq in E. now rewrite get_set_other.
Qed.

Lemma keys_enriched (now : string) (server : object) :
  keys (enrichServer now server) =
  keys server
  ++ filter (fun k => negb (has_key server k))
       ["badges"; "hosting_type"; "timestamps"].
Proof.
  unfold enrichServer. rewrite !keys_set, !has_key_set. simpl.
  destruct (has_key server "badges"), (has_key server "hosting_type"),
    (has_key server "timestamps"); simpl;
    rewrite <- ?app_assoc, ?app_nil_r; reflexivity.
Qed.

(** X9.  The enriched record lists the keys of the record in their
    order, followed by those of [badges], [hosting_type] and
    [timestamps] that the record does not have, in this order. *)
Theorem enriched_keys (now : string) (server : object) :
  keys (enrichServer now server) =
  keys server
  ++ filter (fun k => negb (has_key server k))
       ["badges"; "hosting_type"; "timestamps"].
Proof.
  unfold enrichServer. rewrite !keys_set, !has_key_set. simpl.
  destruct (has_key server "badges"), (has_key server "hosting_type"),
    (has_key server "timestamps"); simpl;
    rewrite <- ?app_assoc, ?app_nil_r; reflexivity.
Qed.

(** X10.  Enrichment keeps the keys distinct, and adds at most three
    fields. *)
Theorem enriched_well_formed (now : string) (server : object) :
  wf_object server ->
  wf_object (enrichServer now server) /\
  List.length server <= List.length (enrichServer now server) <=
    List.length server + 3.
Proof.
  unfold wf_object. intros WF.
  assert (L : forall o : object, List.length o = List.length (keys o))
    by (intros o; unfold keys; now rewrite length_map).
  rewrite !L, keys_enriched. split.
  - apply NoDup_app; [exact WF| |].
    + apply NoDup_filter. repeat constructor; simpl; intuition discriminate.
    + intros k Hk Hf. apply filter_In in Hf. destruct Hf as [_ Hf].
      apply has_key_in in Hk. rewrite Hk in Hf. discriminate.
  - rewrite length_app.
    pose proof (filter_length_le (fun k => negb (has_key server k))
                  ["badges"; "hosting_type"; "timestamps"]) as H.
    simpl in H. simpl. lia.
Qed.

Lemma enriched_well_formed_witness :
  wf_object (enrichServer Samples.midnight Samples.official_http).
Proof.
  apply (enriched_well_formed Samples.midnight Samples.official_http).
  unfold wf_object. simpl.
  repeat constructor; simpl; intuition discriminate.
Defined.

End RecordExtras.

(** ** Further properties of the bundle build *)

Module BundleExtras.

Import JsonFacts EnrichFacts BundleFacts BuildBundle.

(** *** The set of used categories *)

Lemma set_has_add (used : jsset) (k x : json) :
  set_has (set_add used k) x = set_has used x || same_value_zero k x.
Proof.
  unfold set_add. destruct (set_has used k) eqn:H.
  - destruct (same_value_zero k x) eqn:E; [|now rewrite orb_false_r].
    apply same_value_zero_eq in E. subst x. now rewrite H.
  - unfold set_has. rewrite existsb_app. simpl. now rewrite orb_false_r.
Qed.

Lemma add_all_has (entries : list json) (used : jsset) (x : json) :
  set_has (fold_left set_add entries used) x =
  set_has used x || existsb (fun e => same_value_zero e x) entries.
Proof.
  revert used. induction entries as [|e entries IH]; intros used; simpl.
  - now rewrite orb_false_r.
  - now rewrite IH, set_has_add, orb_assoc.
Qed.

Lemma collect_has (l : list object) (used used' : jsset) (x : json) :
  collect used l = Ok used' ->
  forall s entries e,
    In s l -> category_entries s = Ok entries -> In e entries ->
    same_value_zero e x = true -> set_has used' x = true.
Proof.
  revert used.
  assert (Mono : forall l u u', collect u l = Ok u' ->
                 set_has u x = true -> set_has u' x = true).
  { clear. induction l as [|s l IH]; intros u u'; simpl.
    - now intros [= ->].
    - destruct (category_entries s) as [es|]; simpl; [|discriminate].
      intros H Hu. apply (IH _ _ H). rewrite add_all_has, Hu. reflexivity. }
  induction l as [|s0 l IH]; intros used; simpl; [contradiction|].
  destruct (category_entries s0) as [es|] eqn:E0; simpl; [|discriminate].
  intros H s entries e [<- |Hin] He Hx Hsame.
  - apply (Mono _ _ _ H). rewrite add_all_has.
    rewrite E0 in He. injection He as ->.
    apply orb_true_iff. right. apply existsb_exists. now exists e.
  - now apply (IH _ H s entries e).
Qed.

Lemma filter_used_exact (used : jsset) (cs kept : list json) :
  filter_used used cs = Ok kept ->
  kept = filter (fun c => match prop c "id" with
                          | Some id => set_has used id
                          | None => false
                          end) cs.
Proof.
  revert kept. induction cs as [|c cs IH]; intros kept; simpl.
  - now intros [= <-].
  - destruct (is_used used c) as [keep|] eqn:U; simpl; [|discriminate].
    destruct (filter_used used cs) as [kept'|]; simpl; [|discriminate].
    intros [= <-]. rewrite <- (IH kept' eq_refl).
    unfold is_used in U.
    destruct c; try discriminate; simpl in *;
      try (injection U as <-; reflexivity).
    destruct (get props "id"); injection U as <-; reflexivity.
Qed.

Section Main.

Variable localeCompare : string -> string -> Z.
Variable ToString : json -> result string.

Let assemble := assemble localeCompare ToString.
Let main := main localeCompare ToString.

(** X11.  In an assembled bundle, the category options after ["all"]
    come from categories of the store, in the order of the store, and
    none is left out: every category of the store whose id is an entry
    of the [categories] of some record of the bundle has its option. *)
Theorem used_categories_all_listed (now : string) (cs : list json)
  (enriched : list object) (b : bundle) :
  assemble now (JArr cs) enriched = Ok b ->
  exists kept,
    filters (ui b) = [ category_filter
                         (all_categories :: map category_option kept);
                       publisher_filter; transport_filter; auth_filter ] /\
    subsequence kept cs /\
    forall c id s entries e,
      In c cs -> prop c "id" = Some id ->
      In s (servers b) -> category_entries s = Ok entries ->
      In e entries -> same_value_zero e id = true ->
      In c kept.
Proof.
  intros H. apply (assemble_inv localeCompare ToString) in H.
  destruct H as [sorted [used [opts [_ [Hu [Ho [Hs [_ Hf]]]]]]]].
  unfold category_options in Ho.
  destruct (filter_used used cs) as [kept|e] eqn:K; simpl in Ho;
    [|discriminate].
  injection Ho as <-. exists kept. split; [exact Hf|].
  apply filter_used_exact in K. subst kept. split.
  - apply subsequence_filter.
  - intros c id s entries e Hc Hid Hin He Hx Hsame.
    apply filter_In. split; [exact Hc|]. rewrite Hid.
    rewrite Hs in Hin.
    exact (collect_has _ _ _ id Hu s entries e Hin He Hx Hsame).
Qed.

(** X12.  The featured ids are as many as the featured records, up to
    six: no record with truthy [publisher.official] and
    [publisher.verified] is left out while fewer than six are
    listed. *)
Theorem featured_ids_count (now : string) (categories : json)
  (enriched : list object) (b : bundle) :
  assemble now categories enriched = Ok b ->
  List.length (featured_server_ids b) =
  Nat.min 6 (List.length (filter featured enriched)).
Proof.
  intros H. apply (assemble_inv localeCompare ToString) in H.
  destruct H as [sorted [used [opts [Hsort [_ [_ [_ [Hf _]]]]]]]].
  rewrite Hf. unfold featuredIds. rewrite length_map, length_firstn.
  apply SortFacts.sort_perm in Hsort.
  now rewrite (Permutation_length
                 (DetectorFacts.Permutation_filter featured _ _ Hsort)).
Qed.

(** *** What a successful run does *)

Lemma load_servers_console (clock : nat -> string) (files : list file) :
  forall n acc w w' out,
  load_servers clock n files acc w = (w', Some out) ->
  console w' = console w ++ map (fun f => LogLoaded (fst f)) files /\
  List.length out = List.length acc + List.length files.
Proof.
  induction files as [|[relative [data|message]] rest IH];
    intros n acc w w' out; simpl.
  - intros [= <- <-]. rewrite app_nil_r. split; [reflexivity|lia].
  - intros H. apply IH in H. destruct H as [H1 H2].
    rewrite H1, H2, length_app. simpl. rewrite <- app_assoc. split;
      [reflexivity|lia].
  - discriminate.
Qed.

Lemma assemble_fields (now : string) (categories : json)
  (enriched : list object) (b : bundle) :
  assemble now categories enriched = Ok b ->
  version b = "2.1.0" /\ updated_at b = now /\
  BuildBundle.categories b = categories /\
  sort_options (ui b) = SORT_OPTIONS /\
  default_sort (ui b) = "recommended" /\ items_per_page (ui b) = 24%Z /\
  List.length (servers b) = List.length enriched.
Proof.
  intros H.
  pose proof (assemble_inv localeCompare ToString _ _ _ _ H)
    as [sorted [_ [_ [Hsort [_ [_ [Hs _]]]]]]].
  apply SortFacts.sort_perm, Permutation_length in Hsort.
  unfold assemble, BuildBundle.assemble in H.
  destruct (sort localeCompare ToString enriched); simpl in H;
    [|discriminate].
  destruct (usedCategories a); simpl in H; [|discriminate].
  destruct (category_options categories a0); simpl in H; [|discriminate].
  injection H as <-. simpl in *. subst. repeat split; auto.
Qed.

(** X13.  A run that exits with 0 has printed one line per server
    file, in order, and then the summary; it has created the bundle
    directory only if it was missing and has written the bundle file
    once; the bundle written has the version "2.1.0", the last clock
    reading, the category store as loaded and as many records as there
    are server files. *)
Theorem successful_build (env : environment) (w : world) :
  snd (main env w) = 0%Z ->
  exists b cats,
    categories_file env = Parsed cats /\
    bundle_json (fst (main env w)) = Some b /\
    bundle_dir (fst (main env w)) = true /\
    fs_calls (fst (main env w)) =
      fs_calls w ++ (if bundle_dir w then [] else [MkdirSync])
      ++ [WriteFileSync b] /\
    console (fst (main env w)) =
      console w ++ map (fun f => LogLoaded (fst f)) (server_files env)
      ++ [LogWritten (List.length (server_files env)) (array_length cats)] /\
    List.length (servers b) = List.length (server_files env) /\
    version b = "2.1.0" /\
    updated_at b = clock env (List.length (server_files env)) /\
    BuildBundle.categories b = cats.
Proof.
  unfold main, BuildBundle.main.
  destruct (categories_file env) as [cats|message]; [|discriminate].
  pose proof (load_servers_world (clock env) (server_files env) 0 [] w)
    as [Hj [Hd Hc]].
  destruct (load_servers (clock env) 0 (server_files env) [] w)
    as [w1 [enriched|]] eqn:L; simpl in Hj, Hd, Hc; [|discriminate].
  apply load_servers_console in L. destruct L as [Lc Ll]. simpl in Ll.
  fold assemble.
  destruct (assemble (clock env (List.length enriched)) cats enriched)
    as [b|e] eqn:A; [|discriminate].
  intros _. exists b, cats.
  destruct (assemble_fields _ _ _ _ A) as [V [U [C [_ [_ [_ Len]]]]]].
  simpl. unfold ensure_dir. rewrite Hd.
  destruct (bundle_dir w); simpl; rewrite ?Hc, ?Lc, Len, Ll, <- ?app_assoc;
    repeat split; auto; congruence.
Qed.

(** *** Which inputs build *)

Lemma string_named_enriched (now : string) (s : object) :
  string_named (enrichServer now s) = string_named s.
Proof.
  unfold string_named, name_or_empty.
  now rewrite (enriched_other now s "name") by reflexivity.
Qed.

Lemma category_entries_enriched (now : string) (s : object) :
  category_entries (enrichServer now s) = category_entries s.
Proof.
  unfold category_entries.
  now rewrite (enriched_other now s "categories") by reflexivity.
Qed.

Lemma sort_from_returns (l acc : list object) :
  Forall (fun s => string_named s = true) acc ->
  Forall (fun s => string_named s = true) l ->
  exists r, sort_from localeCompare ToString acc l = Ok r.
Proof.
  revert acc. induction l as [|x l IH]; intros acc Hacc Hl.
  - exists acc. reflexivity.
  - apply Forall_cons_iff in Hl. destruct Hl as [Hx Hl].
    destruct (SortFacts.insert_returns localeCompare ToString x acc Hx Hacc)
      as [a E].
    rewrite SortFacts.sort_from_cons, E. simpl. apply IH; [|exact Hl].
    apply (Permutation_Forall
             (SortFacts.insert_perm localeCompare ToString _ _ _ E)).
    now constructor.
Qed.

Lemma collect_returns (l : list object) (used : jsset) :
  Forall (fun s => exists es, category_entries s = Ok es) l ->
  exists used', collect used l = Ok used'.
Proof.
  revert used. induction l as [|s l IH]; intros used H; simpl.
  - now exists used.
  - apply Forall_cons_iff in H. destruct H as [[es ->] H]. simpl.
    now apply IH.
Qed.

Lemma collect_ok_all (l : list object) (used used' : jsset) :
  collect used l = Ok used' ->
  Forall (fun s => exists es, category_entries s = Ok es) l.
Proof.
  revert used. induction l as [|s l IH]; intros used; simpl; [constructor|].
  destruct (category_entries s) as [es|] eqn:E; simpl; [|discriminate].
  intros H. constructor; [now exists es|now apply (IH _ H)].
Qed.

Lemma filter_used_returns (used : jsset) (cs : list json) :
  Forall (fun c => c <> JNull) cs ->
  exists kept, filter_used used cs = Ok kept.
Proof.
  induction 1 as [|c cs Hc _ [kept IH]]; simpl.
  - now exists [].
  - assert (U : exists keep, is_used used c = Ok keep).
    { unfold is_used. destruct c; try contradiction;
        destruct (prop _ "id"); eexists; reflexivity. }
    destruct U as [keep ->]. rewrite IH. simpl. eexists. reflexivity.
Qed.

Lemma filter_used_no_null (used : jsset) (cs kept : list json) :
  filter_used used cs = Ok kept -> ~ In JNull cs.
Proof.
  revert kept. induction cs as [|c cs IH]; intros kept; simpl; [tauto|].
  destruct (is_used used c) as [keep|] eqn:U; simpl; [|discriminate].
  destruct (filter_used used cs) as [kept'|]; simpl; [|discriminate].
  intros _ [->|Hin]; [discriminate|]. exact (IH kept' eq_refl Hin).
Qed.

(** X14.  Between the load of the records and the write nothing
    throws on well-formed input: the records are assembled into a
    bundle, which holds them rearranged, whenever the category store
    is an array without a [null] element, every name is a string or
    is falsy or absent, and every [categories] field is an array, a
    string, or falsy or absent. *)
Theorem well_formed_records_assemble (now : string) (cs : list json)
  (enriched : list object) :
  Forall (fun c => c <> JNull) cs ->
  Forall (fun s => string_named s = true /\
                   exists es, category_entries s = Ok es) enriched ->
  exists b,
    assemble now (JArr cs) enriched = Ok b /\
    Permutation enriched (servers b) /\
    categories b = JArr cs.
Proof.
  intros Hcs Hgood. unfold assemble, BuildBundle.assemble.
  destruct (sort_from_returns enriched []) as [sorted S]; [constructor| |].
  { eapply Forall_impl; [|exact Hgood]. now intros s [H _]. }
  unfold sort. rewrite S. simpl.
  apply (SortFacts.sort_from_perm localeCompare ToString) in S. simpl in S.
  destruct (collect_returns sorted []) as [used U].
  { apply (Permutation_Forall S).
    eapply Forall_impl; [|exact Hgood]. now intros s [_ H]. }
  unfold usedCategories. rewrite U. simpl.
  destruct (filter_used_returns used cs Hcs) as [kept K]. rewrite K. simpl.
  eexists. split; [reflexivity|]. split; [exact S|reflexivity].
Qed.

(** X15.  A run does not build, and exits with 1, when the category
    store is not an array, when it has a [null] element, or when the
    [categories] of some record is a number, [true] or an object. *)
Theorem ill_formed_inputs_abort (env : environment) (w : world) :
  ((exists c, categories_file env = Parsed c /\
              forall cs, c <> JArr cs) \/
   (exists cs, categories_file env = Parsed (JArr cs) /\ In JNull cs) \/
   (exists f data e, In f (server_files env) /\ snd f = Parsed data /\
                     category_entries data = Throw e)) ->
  snd (main env w) = 1%Z /\
  fs_calls (fst (main env w)) = fs_calls w.
Proof.
  intros H.
  destruct (main_outcome localeCompare ToString env w)
    as [[H1 [_ [_ H2]]]|[_ [c [w1 [enriched [b [Hc [Hl [Ha _]]]]]]]]];
    [now split|exfalso].
  apply (assemble_inv localeCompare ToString) in Ha.
  destruct Ha as [sorted [used [opts [Hsort [Hu [Ho _]]]]]].
  destruct H as [[c' [Hc' Hna]]|[[cs [Hc' Hnull]]|[f [data [e [Hin [Hd He]]]]]]].
  - rewrite Hc in Hc'. injection Hc' as <-.
    unfold category_options in Ho.
    destruct c; try discriminate. now apply (Hna items).
  - rewrite Hc in Hc'. injection Hc' as ->.
    unfold category_options in Ho.
    destruct (filter_used used cs) as [kept|] eqn:K; [|discriminate].
    exact (filter_used_no_null _ _ _ K Hnull).
  - apply load_servers_ok in Hl. destruct Hl as [fresh [-> HF]].
    simpl in Hsort. apply SortFacts.sort_perm in Hsort.
    apply collect_ok_all in Hu.
    assert (Hx : exists now, In (enrichServer now data) fresh).
    { clear - HF Hin Hd. induction HF as [|g x gs xs [d [now [Hg Hx]]] _ IH];
        [contradiction|].
      destruct Hin as [->|Hin].
      - rewrite Hd in Hg. injection Hg as <-. subst x.
        exists now. now left.
      - destruct (IH Hin) as [now' H]. exists now'. now right. }
    destruct Hx as [now Hx].
    apply (Permutation_in _ Hsort) in Hx.
    rewrite Forall_forall in Hu. destruct (Hu _ Hx) as [es Hes].
    rewrite category_entries_enriched, He in Hes. discriminate.
Qed.

(** X16.  With no record, and a category store that is an array
    without a [null] element, the assembled bundle has no record, no
    featured id and the single category option ["all"], whatever
    categories the store lists. *)
Theorem empty_registry_assembles (now : string) (cs : list json) :
  Forall (fun c => c <> JNull) cs ->
  exists b,
    assemble now (JArr cs) [] = Ok b /\
    servers b = [] /\ featured_server_ids b = [] /\
    categories b = JArr cs /\
    filters (ui b) = [ category_filter [all_categories]; publisher_filter;
                       transport_filter; auth_filter ].
Proof.
  intros Hcs. unfold assemble, BuildBundle.assemble. simpl.
  assert (K : filter_used [] cs = Ok []).
  { induction Hcs as [|c cs Hn _ IH]; [reflexivity|].
    assert (U : is_used [] c = Ok false).
    { unfold is_used. destruct c; try contradiction;
        now destruct (prop _ "id"). }
    simpl. now rewrite U, IH. }
  rewrite K. simpl.
  eexists. split; [reflexivity|]. simpl. auto.
Qed.

(** *** Sorting again, and sorting in another order *)

Section Collation.

Hypothesis collation : consistent localeCompare.

Let le (a b : object) : Prop :=
  (localeCompare (sort_key a) (sort_key b) <= 0)%Z.

Lemma sorted_before (a : list object) (x : object) (l : list object) :
  StronglySorted le (a ++ x :: l) -> Forall (fun y => le y x) a.
Proof.
  induction a as [|y a IH]; simpl; intros H; [constructor|].
  apply StronglySorted_inv in H. destruct H as [H Hy].
  constructor; [|exact (IH H)].
  rewrite Forall_forall in Hy. apply Hy, in_elt.
Qed.

Lemma insert_last (x : object) (acc : list object) :
  string_named x = true ->
  Forall (fun s => string_named s = true) acc ->
  Forall (fun y => le y x) acc ->
  insert localeCompare ToString x acc = Ok (acc ++ [x]).
Proof.
  intros Hx Hall Hle. induction Hall as [|y rest Hy _ IH]; [reflexivity|].
  apply Forall_cons_iff in Hle. destruct Hle as [Hyx Hle].
  rewrite SortFacts.insert_cons, (SortFacts.compareNames_strings _ _ x y Hx Hy).
  simpl.
  assert (N : (localeCompare (sort_key x) (sort_key y) <? 0)%Z = false).
  { apply Z.ltb_ge. unfold le in Hyx.
    pose proof (compare_flip _ collation (sort_key x) (sort_key y)). lia. }
  rewrite N, (IH Hle). reflexivity.
Qed.

Lemma sort_from_sorted (l acc : list object) :
  Forall (fun s => string_named s = true) (acc ++ l) ->
  StronglySorted le (acc ++ l) ->
  sort_from localeCompare ToString acc l = Ok (acc ++ l).
Proof.
  revert acc. induction l as [|x l IH]; intros acc Hall Hs.
  - now rewrite app_nil_r.
  - rewrite SortFacts.sort_from_cons.
    pose proof (proj1 (Forall_app _ _ _) Hall) as [Hacc Hxl].
    apply Forall_cons_iff in Hxl. destruct Hxl as [Hx _].
    rewrite (insert_last x acc Hx Hacc (sorted_before _ _ _ Hs)). simpl.
    replace (acc ++ x :: l) with ((acc ++ [x]) ++ l) in *
      by now rewrite <- app_assoc.
    now apply IH.
Qed.

Lemma sorted_unique (r r' : list object) :
  StronglySorted le r -> StronglySorted le r' -> Permutation r r' ->
  (forall a b, In a r -> In b r -> le a b -> le b a -> a = b) ->
  r = r'.
Proof.
  intros Hs. revert r'.
  induction Hs as [|a t Hs IH Ha]; intros r' Hs' Hp Hanti.
  - apply Permutation_nil in Hp. now subst.
  - destruct r' as [|b t']; [now apply Permutation_sym, Permutation_nil in Hp|].
    apply StronglySorted_inv in Hs'. destruct Hs' as [Hs' Hb].
    rewrite Forall_forall in Ha, Hb.
    assert (E : a = b).
    { assert (Ia : In a (b :: t'))
        by (apply (Permutation_in _ Hp); now left).
      assert (Ib : In b (a :: t))
        by (apply (Permutation_in _ (Permutation_sym Hp)); now left).
      destruct Ia as [E|Ia]; [now symmetry|].
      destruct Ib as [E|Ib]; [exact E|].
      apply Hanti; [now left|now right|now apply Ha|now apply Hb]. }
    subst b. f_equal. apply Permutation_cons_inv in Hp.
    apply IH; [exact Hs'|exact Hp|].
    intros x y Hx Hy. apply Hanti; now right.
Qed.

(** X17.  Sorting is idempotent on records with string names: the
    sorted list, sorted again, is returned as it is. *)
Theorem sort_idempotent (servers sorted : list object) :
  Forall (fun s => string_named s = true) servers ->
  sort localeCompare ToString servers = Ok sorted ->
  sort localeCompare ToString sorted = Ok sorted.
Proof.
  intros Hall Hsort.
  destruct (SortFacts.sort_from_spec localeCompare ToString collation
              servers [] (Forall_nil _) Hall (SSorted_nil _))
    as [r [Hr [Hs _]]].
  unfold sort in *. rewrite Hr in Hsort. injection Hsort as ->.
  apply (sort_from_sorted sorted []); [|exact Hs].
  apply (SortFacts.sort_from_perm localeCompare ToString) in Hr.
  exact (Permutation_Forall Hr Hall).
Qed.

(** X18.  When no two different records have names that compare
    equal, the sorted list does not depend on the order in which the
    records were loaded. *)
Theorem sort_order_independent (servers servers' : list object) :
  Forall (fun s => string_named s = true) servers ->
  Permutation servers servers' ->
  (forall a b, In a servers -> In b servers ->
     localeCompare (sort_key a) (sort_key b) = 0%Z -> a = b) ->
  sort localeCompare ToString servers = sort localeCompare ToString servers'.
Proof.
  intros Hall Hp Hties.
  destruct (SortFacts.sort_from_spec localeCompare ToString collation
              servers [] (Forall_nil _) Hall (SSorted_nil _))
    as [r [Hr [Hs _]]].
  destruct (SortFacts.sort_from_spec localeCompare ToString collation
              servers' [] (Forall_nil _) (Permutation_Forall Hp Hall)
              (SSorted_nil _))
    as [r' [Hr' [Hs' _]]].
  unfold sort. rewrite Hr, Hr'. f_equal.
  apply (SortFacts.sort_from_perm localeCompare ToString) in Hr, Hr'.
  simpl in Hr, Hr'.
  apply sorted_unique; [exact Hs|exact Hs'| |].
  - now rewrite <- Hr, <- Hr'.
  - intros a b Ia Ib Hab Hba.
    apply Hties;
      [exact (Permutation_in _ (Permutation_sym Hr) Ia)
      |exact (Permutation_in _ (Permutation_sym Hr) Ib)|].
    unfold le in Hab, Hba.
    pose proof (compare_flip _ collation (sort_key a) (sort_key b)). lia.
Qed.

End Collation.

End Main.

Lemma used_categories_all_listed_witness :
  exists kept,
    subsequence kept
      [ JObj [("id", JStr "dev"); ("name", JStr "Developer Tools");
              ("icon", JStr "wrench")];
        JObj [("id", JStr "data"); ("name", JStr "Data");
              ("icon", JStr "database")] ].
Proof.
  destruct (used_categories_all_listed Samples.caseless_compare
              Samples.to_string Samples.midnight
              [ JObj [("id", JStr "dev"); ("name", JStr "Developer Tools");
                      ("icon", JStr "wrench")];
                JObj [("id", JStr "data"); ("name", JStr "Data");
                      ("icon", JStr "database")] ]
              [ enrichServer Samples.midnight Samples.official_http ]
              _ eq_refl) as [kept [_ [H _]]].
  exists kept. exact H.
Defined.

Lemma successful_build_witness :
  exists b,
    bundle_json (fst (main Samples.caseless_compare Samples.to_string
                        Samples.good_run Samples.fresh_checkout)) = Some b /\
    fs_calls (fst (main Samples.caseless_compare Samples.to_string
                     Samples.good_run Samples.fresh_checkout)) =
      [MkdirSync; WriteFileSync b].
Proof.
  destruct (successful_build Samples.caseless_compare Samples.to_string
              Samples.good_run Samples.fresh_checkout eq_refl)
    as [b [cats [_ [H1 [_ [H2 _]]]]]].
  exists b. split; [exact H1|exact H2].
Defined.

Lemma featured_ids_count_witness :
  exists b,
    bundle_json (fst (main Samples.caseless_compare Samples.to_string
                        Samples.good_run Samples.fresh_checkout)) = Some b /\
    List.length (featured_server_ids b) = 2.
Proof.
  eexists. split; [reflexivity|].
  apply (featured_ids_count Samples.caseless_compare
           Samples.to_string Samples.midnight Samples.categories_store
           [ enrichServer Samples.midnight Samples.official_http;
             enrichServer Samples.midnight Samples.truthy_flags ]).
  reflexivity.
Defined.

Lemma well_formed_records_assemble_witness :
  exists b,
    assemble Samples.caseless_compare Samples.to_string Samples.midnight
      Samples.categories_store
      [ enrichServer Samples.midnight Samples.truthy_flags;
        enrichServer Samples.midnight Samples.official_http ] = Ok b /\
    List.length (servers b) = 2.
Proof.
  destruct (well_formed_records_assemble Samples.caseless_compare
              Samples.to_string Samples.midnight
              [ JObj [("id", JStr "dev"); ("name", JStr "Developer Tools");
                      ("icon", JStr "wrench")];
                JObj [("id", JStr "data"); ("name", JStr "Data");
                      ("icon", JStr "database")] ]
              [ enrichServer Samples.midnight Samples.truthy_flags;
                enrichServer Samples.midnight Samples.official_http ])
    as [b [H [P _]]].
  - repeat constructor; discriminate.
  - repeat constructor; eexists; reflexivity.
  - exists b. split; [exact H|].
    now rewrite <- (Permutation_length P).
Defined.

Lemma ill_formed_inputs_abort_witness :
  snd (main Samples.caseless_compare Samples.to_string
         MoreSamples.null_store_run Samples.fresh_checkout) = 1%Z.
Proof.
  apply (ill_formed_inputs_abort Samples.caseless_compare
           Samples.to_string MoreSamples.null_store_run
           Samples.fresh_checkout).
  right. left. exists [JNull]. split; [reflexivity|now left].
Defined.

Lemma empty_registry_assembles_witness :
  exists b,
    assemble Samples.caseless_compare Samples.to_string Samples.midnight
      Samples.categories_store [] = Ok b /\
    servers b = [].
Proof.
  destruct (empty_registry_assembles Samples.caseless_compare
              Samples.to_string Samples.midnight
              [ JObj [("id", JStr "dev"); ("name", JStr "Developer Tools");
                      ("icon", JStr "wrench")];
                JObj [("id", JStr "data"); ("name", JStr "Data");
                      ("icon", JStr "database")] ])
    as [b [H [E _]]].
  - repeat constructor; discriminate.
  - exists b. split; [exact H|exact E].
Defined.

Lemma sort_idempotent_witness :
  sort Samples.caseless_compare Samples.to_string
    [Samples.named "alpha"; Samples.named "Bravo"; Samples.named "Charlie"] =
  Ok [Samples.named "alpha"; Samples.named "Bravo"; Samples.named "Charlie"].
Proof.
  apply (sort_idempotent Samples.caseless_compare Samples.to_string
           SortFacts.caseless_consistent
           [Samples.named "Charlie"; Samples.named "alpha";
            Samples.named "Bravo"]).
  - repeat constructor.
  - reflexivity.
Defined.

Lemma sort_order_independent_witness :
  sort Samples.caseless_compare Samples.to_string
    [Samples.named "Charlie"; Samples.named "alpha"] =
  sort Samples.caseless_compare Samples.to_string
    [Samples.named "alpha"; Samples.named "Charlie"].
Proof.
  apply (sort_order_independent Samples.caseless_compare Samples.to_string
           SortFacts.caseless_consistent).
  - repeat constructor.
  - apply perm_swap.
  - intros a b [<-|[<-|[]]] [<-|[<-|[]]]; try reflexivity;
      intros H; vm_compute in H; discriminate H.
Defined.

End BundleExtras.

(* ------------------------------------------------------------------ *)
(** ** validate.js: validation of files and the command line *)

Module CliFacts.

Import BuildBundle ValidateCli CliNotions JsonFacts DetectorFacts
  SanitizerFacts.

Section Host.

Variable basename relative_to_root resolve : string -> string.
Variable compile : object -> result validator.

Let validate_file := validate_file basename relative_to_root.
Let validate_all := validate_all basename relative_to_root.
Let validateFiles := validateFiles basename relative_to_root compile.
Let checkConflicts_printed := checkConflicts_printed relative_to_root.
Let main := main basename relative_to_root resolve compile.

Lemma validate_all_spec (repo : repository) (validate : validator)
  (files : list string) (out : list line) (hasErrors : bool) :
  validate_all repo validate files out hasErrors =
  (out ++ flat_map (fun p => fst (validate_file repo validate p)) files,
   hasErrors || existsb (fun p => snd (validate_file repo validate p)) files).
Proof.
  revert out hasErrors. induction files as [|p files IH]; intros out h.
  - simpl. now rewrite app_nil_r, orb_false_r.
  - simpl. unfold validate_all in IH. rewrite IH.
    now rewrite <- app_assoc, orb_assoc.
Qed.

Lemma warnings_are_not_failures (ws : list string) :
  existsb is_failure_line (map Warn ws) = false.
Proof. induction ws; simpl; auto. Qed.

Lemma warnings_are_not_verdicts (ws : list string) :
  filter is_verdict_line (map Warn ws) = [].
Proof. induction ws; simpl; auto. Qed.

Lemma violations_are_not_verdicts (es : list violation) :
  filter is_verdict_line
    (map (fun e => ViolationLine (path_or_root e) (message e)) es) = [].
Proof. induction es; simpl; auto. Qed.

Lemma validate_file_flag (repo : repository) (validate : validator)
  (p : string) :
  snd (validate_file repo validate p) =
  existsb is_failure_line (fst (validate_file repo validate p)).
Proof.
  unfold validate_file, ValidateCli.validate_file.
  destruct (read repo p) as [data|msg]; [|reflexivity].
  destruct (validate _); cbn [fst snd];
    now rewrite existsb_app, warnings_are_not_failures.
Qed.

Lemma validate_file_rejected (repo : repository) (validate : validator)
  (p : string) :
  snd (validate_file repo validate p) = rejected basename repo validate p.
Proof.
  unfold validate_file, ValidateCli.validate_file, rejected.
  destruct (read repo p) as [data|msg]; [|reflexivity].
  now destruct (validate _).
Qed.

Lemma validate_file_verdict (repo : repository) (validate : validator)
  (p : string) :
  filter is_verdict_line (fst (validate_file repo validate p)) =
  [ if rejected basename repo validate p then Fail (relative_to_root p)
    else Pass (relative_to_root p) ].
Proof.
  unfold validate_file, ValidateCli.validate_file, rejected.
  destruct (read repo p) as [data|msg]; [|reflexivity].
  destruct (validate _); cbn [fst snd];
    rewrite filter_app, warnings_are_not_verdicts; simpl;
    now rewrite ?violations_are_not_verdicts.
Qed.

Lemma existsb_pointwise {A : Type} (p q : A -> bool) (l : list A) :
  (forall x, p x = q x) -> existsb p l = existsb q l.
Proof.
  intros H. induction l as [|x l IH]; simpl; [reflexivity|].
  now rewrite H, IH.
Qed.

Lemma existsb_flat_map {A B : Type} (p : B -> bool) (f : A -> list B)
  (l : list A) :
  existsb p (flat_map f l) = existsb (fun x => existsb p (f x)) l.
Proof.
  induction l as [|x l IH]; simpl; [reflexivity|].
  now rewrite existsb_app, IH.
Qed.

Lemma validate_all_flag (repo : repository) (validate : validator)
  (files : list string) :
  snd (validate_all repo validate files [] false) =
  existsb is_failure_line (fst (validate_all repo validate files [] false)).
Proof.
  rewrite validate_all_spec. cbn [fst snd app orb].
  rewrite existsb_flat_map. apply existsb_pointwise.
  intros p. apply validate_file_flag.
Qed.

Lemma conflict_lines_fail (cs : list conflict) :
  existsb is_failure_line (map ConflictLine cs) =
  match cs with
  | [] => false
  | _ => true
  end.
Proof. now destruct cs. Qed.

Lemma checkConflicts_printed_flag (repo : repository) :
  snd (checkConflicts_printed repo) =
  existsb is_failure_line (fst (checkConflicts_printed repo)).
Proof.
  unfold checkConflicts_printed, ValidateCli.checkConflicts_printed.
  destruct (server_files relative_to_root repo) as [|f fs]; [reflexivity|].
  cbn [fst snd]. rewrite existsb_app, conflict_lines_fail.
  rewrite DetectorExtras.flag_tells_conflicts. unfold conflicts.
  destruct (fst (checkConflicts (f :: fs))); reflexivity.
Qed.

Lemma checkConflicts_printed_lines (repo : repository) :
  filter is_conflict_line (fst (checkConflicts_printed repo)) =
  map ConflictLine (conflicts (server_files relative_to_root repo)).
Proof.
  unfold checkConflicts_printed, ValidateCli.checkConflicts_printed.
  destruct (server_files relative_to_root repo) as [|f fs]; [reflexivity|].
  cbn [fst snd]. unfold conflicts. rewrite filter_app.
  assert (K : forall cs, filter is_conflict_line (map ConflictLine cs) =
                         map ConflictLine cs).
  { induction cs as [|c cs IH]; simpl; [reflexivity|now rewrite IH]. }
  rewrite K. destruct (snd _); simpl; now rewrite app_nil_r.
Qed.

Lemma validate_all_no_conflict_line (repo : repository)
  (validate : validator) (files : list string) :
  filter is_conflict_line (fst (validate_all repo validate files [] false))
  = [].
Proof.
  rewrite validate_all_spec. cbn [fst app].
  induction files as [|p files IH]; [reflexivity|].
  simpl. rewrite filter_app, IH, app_nil_r.
  unfold validate_file, ValidateCli.validate_file.
  destruct (read repo p) as [data|msg]; [|reflexivity].
  assert (W : forall ws, filter is_conflict_line (map Warn ws) = [])
    by (induction ws; simpl; auto).
  destruct (validate _) as [|es]; cbn [fst]; rewrite filter_app, W; simpl;
    [reflexivity|].
  induction es; simpl; auto.
Qed.

Lemma includes_filter (flag : string) (p : string -> bool)
  (args : list string) :
  p flag = true -> includes flag (filter p args) = includes flag args.
Proof.
  intros Hp. unfold includes.
  induction args as [|a args IH]; [reflexivity|]. simpl.
  destruct (p a) eqn:Pa; simpl; [now rewrite IH|].
  rewrite IH. destruct (flag =? a)%string eqn:E; [|reflexivity].
  apply String.eqb_eq in E. subst a. congruence.
Qed.

Lemma fileArgs_known (args : list string) :
  fileArgs (filter known_argument args) = fileArgs args.
Proof.
  unfold fileArgs. induction args as [|a args IH]; [reflexivity|]. simpl.
  unfold known_argument at 1.
  destruct (prefix "--" a) eqn:P; simpl.
  - destruct ((a =? "--all") || (a =? "--check-conflicts"))%string;
      simpl; [rewrite P; simpl|]; exact IH.
  - rewrite P. simpl. now rewrite IH.
Qed.

Section Repository.

Variable repo : repository.

(** X19.  Validating two lists of files one after the other prints
    what validating their concatenation prints, and the concatenation
    has errors exactly when one of the two has. *)
Theorem validateFiles_app (files files' : list string)
  (out out' : list line) (hasErrors hasErrors' : bool) :
  validateFiles repo files = inr (out, hasErrors) ->
  validateFiles repo files' = inr (out', hasErrors') ->
  validateFiles repo (files ++ files') =
  inr (out ++ out', hasErrors || hasErrors').
Proof.
  unfold validateFiles, ValidateCli.validateFiles.
  destruct (schema_file repo) as [schema|msg]; [|discriminate].
  destruct (compile _) as [validate|[what]]; [|discriminate].
  fold validate_all. rewrite !validate_all_spec. simpl.
  intros H H'. injection H as <- <-. injection H' as <- <-.
  now rewrite flat_map_app, existsb_app.
Qed.

(** X20.  When [validateFiles] returns, it has printed one [PASS] or
    [FAIL] line per file, in the order of the files, [FAIL] for a file
    that does not load or whose sanitized record the validator
    rejects, and it returns [true] exactly when there is such a
    file. *)
Theorem validation_report (schema : object) (validate : validator)
  (files : list string) (out : list line) (hasErrors : bool) :
  schema_file repo = Parsed schema ->
  compile (delete "$schema" schema) = Ok validate ->
  validateFiles repo files = inr (out, hasErrors) ->
  hasErrors = existsb (rejected basename repo validate) files /\
  filter is_verdict_line out =
    map (fun p => if rejected basename repo validate p
                  then Fail (relative_to_root p)
                  else Pass (relative_to_root p)) files.
Proof.
  intros Hs Hc. unfold validateFiles, ValidateCli.validateFiles.
  rewrite Hs, Hc. fold validate_all. rewrite validate_all_spec. simpl.
  intros H. injection H as <- <-. split.
  - apply existsb_pointwise. intros p. apply validate_file_rejected.
  - induction files as [|p files IH]; [reflexivity|].
    simpl. now rewrite filter_app, validate_file_verdict, IH.
Qed.

(** X22.  The options that [main] does not know are ignored. *)
Theorem unknown_options_ignored (args : list string) :
  main repo args = main repo (filter known_argument args).
Proof.
  unfold main, ValidateCli.main.
  rewrite !includes_filter by reflexivity. now rewrite fileArgs_known.
Qed.

(** X23.  With [--all], what the run does depends on the other
    arguments only through the presence of [--check-conflicts]: file
    arguments are not looked at. *)
Theorem all_overrides_file_arguments (args args' : list string) :
  includes "--all" args = true ->
  includes "--all" args' = true ->
  includes "--check-conflicts" args = includes "--check-conflicts" args' ->
  main repo args = main repo args'.
Proof.
  intros Ha Ha' Hc. unfold main, ValidateCli.main.
  rewrite Ha, Ha', Hc. simpl. now rewrite !andb_false_r.
Qed.

(** X24.  The exit code is 1 exactly when a [FAIL], a [CONFLICT] or
    the [Unexpected error] line has been printed, and 0 otherwise. *)
Theorem exit_code_tells_failure (args : list string) :
  snd (main repo args) =
  if existsb is_failure_line (fst (main repo args)) then 1%Z else 0%Z.
Proof.
  unfold main, ValidateCli.main.
  pose proof (checkConflicts_printed_flag repo) as C.
  unfold checkConflicts_printed in C.
  destruct (_ && _ && _).
  { cbn [fst snd]. rewrite C. now destruct (existsb _ _). }
  set (files := if includes "--all" args then _ else _).
  destruct (is_empty files && _) eqn:E; [reflexivity|].
  assert (V : forall out h,
            (if is_empty files then inr ([], false)
             else ValidateCli.validateFiles basename relative_to_root
                    compile repo files) = inr (out, h) ->
            h = existsb is_failure_line out).
  { intros out h. destruct (is_empty files).
    - intros H. now injection H as <- <-.
    - unfold ValidateCli.validateFiles.
      destruct (schema_file repo) as [schema|msg]; [|discriminate].
      destruct (compile _) as [validate|[what]]; [|discriminate].
      intros H. injection H as H.
      pose proof (validate_all_flag repo validate files) as F.
      unfold validate_all in F. now rewrite H in F. }
  destruct (if is_empty files then _ else _) as [what|[out h]];
    [reflexivity|].
  rewrite (V out h eq_refl).
  destruct (includes "--check-conflicts" args); cbn [fst snd].
  - rewrite existsb_app, C. now destruct (_ || _).
  - now destruct (existsb _ _).
Qed.

(** X25.  With [--check-conflicts], unless the run stops on an
    unexpected error, the [CONFLICT] lines printed are those of the
    whole registry, whichever files were given to validate. *)
Theorem conflict_check_covers_registry (args : list string) :
  includes "--check-conflicts" args = true ->
  (exists what, main repo args = ([UnexpectedError what], 1%Z)) \/
  filter is_conflict_line (fst (main repo args)) =
  map ConflictLine (conflicts (server_files relative_to_root repo)).
Proof.
  intros Hc. unfold main, ValidateCli.main. rewrite Hc.
  pose proof (checkConflicts_printed_lines repo) as C.
  unfold checkConflicts_printed in C.
  destruct (_ && _ && _); [now right|].
  set (files := if includes "--all" args then _ else _).
  rewrite andb_false_r.
  destruct (is_empty files).
  - right. exact C.
  - unfold ValidateCli.validateFiles.
    destruct (schema_file repo) as [schema|msg]; [|left; eauto].
    destruct (compile _) as [validate|[what]]; [|left; eauto].
    right.
    destruct (ValidateCli.validate_all _ _ _ _ _ _ _) as [out h] eqn:E.
    cbn [fst]. rewrite filter_app, C.
    pose proof (validate_all_no_conflict_line repo validate files) as N.
    unfold validate_all in N. rewrite E in N. cbn [fst] in N.
    now rewrite N.
Qed.

(** X26.  When the schema does not load or does not compile and there
    are files to validate, the run prints the unexpected error alone
    and exits with 1: no file is validated and no conflict check is
    made. *)
Theorem schema_failure_aborts (args : list string) (what : string) :
  (schema_file repo = LoadError what \/
   exists schema, schema_file repo = Parsed schema /\
                  compile (delete "$schema" schema) = Throw (TypeError what)) ->
  ((includes "--all" args = true /\ server_paths repo <> []) \/
   (includes "--all" args = false /\ fileArgs args <> [])) ->
  main repo args = ([UnexpectedError what], 1%Z).
Proof.
  intros Hs Hf. unfold main, ValidateCli.main.
  assert (V : forall files, ValidateCli.validateFiles basename
                relative_to_root compile repo files = inl what).
  { intros files. unfold ValidateCli.validateFiles.
    destruct Hs as [->|[schema [-> ->]]]; reflexivity. }
  destruct Hf as [[-> Hp]|[-> Hp]].
  - rewrite andb_false_r. simpl.
    destruct (server_paths repo) as [|p ps]; [contradiction|].
    simpl. now rewrite V.
  - destruct (fileArgs args) as [|a rest]; [contradiction|].
    rewrite andb_false_r. simpl. now rewrite V.
Qed.

End Repository.

(** X21.  Reserved fields that an author sets do not change the
    verdict on the file: two registries whose records for a file
    differ in reserved fields only get the same lines, warnings apart,
    and the same error flag. *)
Theorem reserved_fields_do_not_change_verdict (repo repo' : repository)
  (validate : validator) (p : string) (data data' : object) :
  read repo p = Parsed data ->
  read repo' p = Parsed data' ->
  filter (fun kv => negb (reserved (fst kv))) data =
  filter (fun kv => negb (reserved (fst kv))) data' ->
  filter (fun l => negb (is_warning l)) (fst (validate_file repo validate p)) =
  filter (fun l => negb (is_warning l)) (fst (validate_file repo' validate p))
  /\ snd (validate_file repo validate p) =
     snd (validate_file repo' validate p).
Proof.
  intros H H' E. unfold validate_file, ValidateCli.validate_file.
  rewrite H, H', !stripPlatformFields_spec. cbn [fst snd]. rewrite E.
  assert (W : forall ws, filter (fun l => negb (is_warning l)) (map Warn ws)
                         = [])
    by (induction ws; simpl; auto).
  destruct (validate _); cbn [fst snd]; now rewrite !filter_app, !W.
Qed.

End Host.

Lemma validateFiles_app_witness :
  exists out,
    validateFiles same_path same_path compile_requires_name registry
      (["servers/a.json"] ++ ["servers/b.json"]) = inr (out, true || false).
Proof.
  eexists.
  apply (validateFiles_app same_path same_path compile_requires_name
           registry ["servers/a.json"] ["servers/b.json"]); reflexivity.
Defined.

Lemma validation_report_witness :
  filter is_verdict_line
    (fst (validate_all same_path same_path registry requires_name
            (server_paths registry) [] false)) =
  [Fail "servers/a.json"; Pass "servers/b.json"].
Proof.
  apply (validation_report same_path same_path compile_requires_name
           registry [("$schema", JStr "draft"); ("type", JStr "object")]
           requires_name (server_paths registry) _ true); reflexivity.
Defined.

Lemma all_overrides_file_arguments_witness :
  main same_path same_path same_path compile_requires_name registry
    ["--all"; "servers/b.json"] =
  main same_path same_path same_path compile_requires_name registry
    ["--all"].
Proof.
  apply (all_overrides_file_arguments same_path same_path same_path
           compile_requires_name registry); reflexivity.
Defined.

Lemma conflict_check_covers_registry_witness :
  (exists what,
     main same_path same_path same_path compile_requires_name registry
       ["servers/b.json"; "--check-conflicts"] =
     ([UnexpectedError what], 1%Z)) \/
  filter is_conflict_line
    (fst (main same_path same_path same_path compile_requires_name registry
            ["servers/b.json"; "--check-conflicts"])) =
  map ConflictLine (conflicts (server_files same_path registry)).
Proof.
  apply (conflict_check_covers_registry same_path same_path same_path
           compile_requires_name registry). reflexivity.
Defined.

Lemma schema_failure_aborts_witness :
  main same_path same_path same_path compile_requires_name
    registry_without_schema ["--all"; "--check-conflicts"] =
  ([UnexpectedError "ENOENT: no such file or directory"], 1%Z).
Proof.
  apply (schema_failure_aborts same_path same_path same_path
           compile_requires_name registry_without_schema).
  - left. reflexivity.
  - left. split; [reflexivity|discriminate].
Defined.

Lemma reserved_fields_do_not_change_verdict_witness :
  snd (validate_file same_path same_path registry requires_name
         "servers/b.json") =
  snd (validate_file same_path same_path clean_registry requires_name
         "servers/b.json").
Proof.
  apply (reserved_fields_do_not_change_verdict same_path same_path
           registry clean_registry requires_name "servers/b.json"
           Samples.authored_badges [("id", JStr "a"); ("name", JStr "A")]);
    reflexivity.
Defined.

End CliFacts.

